(** * apiPlayground: the geo-grid crawler of the Google Places export scripts

    A shallow embedding of [src/export_google_places_plateau.py],
    [src/export_google_places_1000_per_city.py] and
    [src/export_google_places_to_sqlite.py], with the properties of the
    crawler established on it.

    Conventions of the embedding:
    - Python [float] values (coordinates, sleep durations, the window average)
      are exact rationals [Q];
    - a place (one element of the provider's [results] array, a Python dict) is
      the record [place] of the keys the scripts read;
    - the network, the provider and the random jitter are an explicit [world]
      that the effectful code consults in order;
    - a Python exception is the [Raise] outcome of the error monad [M];
    - the state of a run records, besides the database connection and the
      output, the grid points handed to [fetch_nearby], in order. *)

From Stdlib Require Import ZArith QArith Qround Lia Lqa Bool Sorted.
From stdpp Require Import base option list gmap sets strings pretty.

Local Open Scope nat_scope.
#[local] Set Warnings "-clear-no-such-hyp".


(** ** Plateau detector ([main] of export_google_places_plateau.py) *)

Module Plateau.

Definition WINDOW : nat := 50.
Definition MIN_NEW_AVG : Q := 0.5.
Definition STABLE_WINDOWS : nat := 5.
Definition MIN_POINTS_BEFORE_PLATEAU : nat := 80.

(** [deque(maxlen=n).append(x)]: a full deque drops its oldest element. *)
Definition deque_append (maxlen : nat) (x : nat) (d : list nat) : list nat :=
  let d' := d ++ [x] in
  if maxlen <? length d' then tail d' else d'.

(** [sum(recent)] *)
Definition sum (l : list nat) : nat := foldr Nat.add 0 l.

(** [sum(recent) / len(recent)]. With at most [WINDOW] samples the float
    quotient is below 0.5 exactly when the rational one is. *)
Definition avg (l : list nat) : Q :=
  (inject_Z (Z.of_nat (sum l)) / inject_Z (Z.of_nat (length l)))%Q.

(** [a < b] on the averages *)
Definition Qltb (a b : Q) : bool := negb (Qle_bool b a).

(** The loop variables [recent], [stable_hits], [points_done]. *)
Record detector := Detector {
  recent : list nat;
  stable_hits : nat;
  points_done : nat
}.

Definition init : detector :=
  {| recent := []; stable_hits := 0; points_done := 0 |}.

(** One iteration of the loop body from [points_done += 1] to the [break]:
    the new state and whether the loop breaks ("Plateau reached"). *)
Definition observe (new_count : nat) (d : detector) : detector * bool :=
  let pd := S (points_done d) in
  let cleared := pd =? MIN_POINTS_BEFORE_PLATEAU in
  let rc := if cleared then [] else recent d in
  let sh := if cleared then 0 else stable_hits d in
  let rc := deque_append WINDOW new_count rc in
  let avg_new := avg rc in
  if length rc =? WINDOW then
    if pd <? MIN_POINTS_BEFORE_PLATEAU then
      ({| recent := rc; stable_hits := 0; points_done := pd |}, false)
    else
      let sh := if Qltb avg_new MIN_NEW_AVG then S sh else 0 in
      ({| recent := rc; stable_hits := sh; points_done := pd |},
       STABLE_WINDOWS <=? sh)
  else ({| recent := rc; stable_hits := sh; points_done := pd |}, false).

(** The detector fed with the new-record counts of successive grid points:
    [Some n] when the loop breaks at the [n]-th point, [None] when the
    counts run out first. *)
Fixpoint run (d : detector) (xs : list nat) : option nat :=
  match xs with
  | [] => None
  | x :: xs' =>
      let '(d', stop) := observe x d in
      if stop then Some (points_done d') else run d' xs'
  end.

(** The state after the counts [xs], had no break occurred. *)
Definition feed (d : detector) (xs : list nat) : detector :=
  fold_left (fun d x => fst (observe x d)) xs d.

(** The counts 0, 1, 0, 1, ... ([b = false]) or 1, 0, 1, 0, ... *)
Fixpoint alternating (b : bool) (n : nat) : list nat :=
  match n with
  | 0 => []
  | S n' => (if b then 1 else 0) :: alternating (negb b) n'
  end.

End Plateau.

(** ** Geo-grid generator ([grid_points], [generate_grid_points]) *)

Module Geo.
Local Open Scope Q_scope.

(** [bbox]: the dict with keys lat_min, lat_max, lng_min, lng_max. *)
Record bbox := BBox {
  lat_min : Q;
  lat_max : Q;
  lng_min : Q;
  lng_max : Q
}.

Definition point : Type := Q * Q.

Section Grid.

(** [math.cos(math.radians(lat))], taken as given: the cosine of a latitude
    in degrees is not a rational function. *)
Variable cos_deg : Q -> Q.

Definition meters_to_lat (m : Q) : Q := m / 111320.

Definition meters_to_lng (m lat : Q) : Q :=
  m / (111320 * cos_deg lat + 1e-9).

(** The inner [while lng <= lng_max] loop: the points it yields, or [None]
    when [fuel] iterations do not reach its end. *)
Fixpoint lng_loop (fuel : nat) (lat lng hi lng_step : Q)
  : option (list point) :=
  if Qle_bool lng hi then
    match fuel with
    | O => None
    | S fuel' =>
        match lng_loop fuel' lat (lng + lng_step) hi lng_step with
        | Some row => Some ((lat, lng) :: row)
        | None => None
        end
    end
  else Some [].

(** Iterations that see a loop from [lo] up to [hi] by [step] to its end. *)
Definition span_fuel (lo hi step : Q) : nat :=
  S (Z.to_nat (Qfloor ((hi - lo) / step))).

(** The outer [while lat <= lat_max] loop of [grid_points]; the longitude
    step is computed in each row. *)
Fixpoint lat_loop (fuel : nat) (b : bbox) (step_m lat : Q)
  : option (list point) :=
  if Qle_bool lat (lat_max b) then
    match fuel with
    | O => None
    | S fuel' =>
        let lng := lng_min b in
        let lng_step := meters_to_lng step_m lat in
        match lng_loop (span_fuel lng (lng_max b) lng_step)
                       lat lng (lng_max b) lng_step with
        | Some row =>
            match lat_loop fuel' b step_m (lat + meters_to_lat step_m) with
            | Some rest => Some (row ++ rest)
            | None => None
            end
        | None => None
        end
    end
  else Some [].

(** [grid_points(bbox, step_m)] of export_google_places_plateau.py: the
    sequence the generator yields. *)
Definition grid_points (b : bbox) (step_m : Q) : option (list point) :=
  lat_loop (span_fuel (lat_min b) (lat_max b) (meters_to_lat step_m))
           b step_m (lat_min b).

(** [generate_grid_points] of export_google_places_1000_per_city.py computes
    the latitude step once, before the loop. *)
Fixpoint lat_loop' (fuel : nat) (b : bbox) (step_m lat_step lat : Q)
  : option (list point) :=
  if Qle_bool lat (lat_max b) then
    match fuel with
    | O => None
    | S fuel' =>
        let lng_step := meters_to_lng step_m lat in
        let lng := lng_min b in
        match lng_loop (span_fuel lng (lng_max b) lng_step)
                       lat lng (lng_max b) lng_step with
        | Some row =>
            match lat_loop' fuel' b step_m lat_step (lat + lat_step) with
            | Some rest => Some (row ++ rest)
            | None => None
            end
        | None => None
        end
    end
  else Some [].

Definition generate_grid_points (b : bbox) (step_m : Q) : option (list point) :=
  let lat_step := meters_to_lat step_m in
  lat_loop' (span_fuel (lat_min b) (lat_max b) lat_step)
            b step_m lat_step (lat_min b).

(** A point of the box. *)
Definition in_bbox (b : bbox) (p : point) : Prop :=
  lat_min b <= fst p <= lat_max b /\ lng_min b <= snd p <= lng_max b.

(** The point that follows [p] in row-major order: the next one of its row,
    or the first one of the next row when the row is over. *)
Definition grid_next (b : bbox) (step_m : Q) (p q : point) : Prop :=
  let lng' := snd p + meters_to_lng step_m (fst p) in
  (lng' <= lng_max b /\ q = (fst p, lng')) \/
  (lng_max b < lng' /\ q = (fst p + meters_to_lat step_m, lng_min b)).

End Grid.

(** A rational stand-in for the cosine of a latitude in degrees, to run the
    generator on examples: the parabola through 1 at the equator and 0 at
    the poles. *)
Definition cos_parabola (lat : Q) : Q := 1 - (lat / 90) * (lat / 90).

End Geo.

(** ** Python values and exceptions *)

Module Py.

(** The exception classes the scripts raise or meet. [ReadTimeout] is a
    [RequestException]; [DatabaseError] stands for [sqlite3.Error]. *)
Inductive exn := RuntimeError | RequestException | DatabaseError.

Inductive result (A : Type) : Type :=
  | Ok (a : A)
  | Raise (e : exn).
Arguments Ok {A} a.
Arguments Raise {A} e.

(** Truth value of an optional string: [None] and the empty string are false. *)
Definition truthy (o : option string) : bool :=
  match o with
  | Some (String _ _) => true
  | _ => false
  end.

(** [a or b] *)
Definition or_else (a b : option string) : option string :=
  if truthy a then a else b.

End Py.

(** ** The store ([init_db], [load_existing_ids], [insert_places],
    [upsert_places], [upsert_restaurants], [count_city]) *)

Module Store.
Import Py.

(** One element of the provider's [results] array, by the keys the scripts
    read with [p.get]; [None] is a missing (or null) key. [p_lat] and [p_lng]
    are [geometry.location.lat] and [.lng]. *)
Record place := Place {
  p_place_id : option string;
  p_name : option string;
  p_vicinity : option string;
  p_formatted_address : option string;
  p_lat : option Q;
  p_lng : option Q;
  p_rating : option Q;
  p_user_ratings_total : option Z;
  p_price_level : option Z;
  p_business_status : option string;
  p_types : option (list string)
}.

(** A row of the table [restaurants]. The columns [types] and [raw_json]
    hold [json.dumps] of a list and of the place: the embedding keeps the
    values serialised. [fetched_at] is a clock reading. *)
Record row := Row {
  city : string;
  place_id : option string;
  name : option string;
  address : option string;
  lat : option Q;
  lng : option Q;
  rating : option Q;
  user_ratings_total : option Z;
  price_level : option Z;
  business_status : option string;
  types : list string;
  raw_json : place;
  fetched_at : nat
}.

Definition table : Type := list row.

(** The tuple [insert_places] and [upsert_places] build for [p]
    ([vicinity] first), with the timestamp of the statement. *)
Definition row_of_place (now : nat) (c : string) (p : place) : row :=
  {| city := c;
     place_id := p_place_id p;
     name := p_name p;
     address := or_else (p_vicinity p) (p_formatted_address p);
     lat := p_lat p;
     lng := p_lng p;
     rating := p_rating p;
     user_ratings_total := p_user_ratings_total p;
     price_level := p_price_level p;
     business_status := p_business_status p;
     types := default [] (p_types p);
     raw_json := p;
     fetched_at := now |}.

(** The tuple [upsert_restaurants] builds ([formatted_address] first). *)
Definition row_of_place_text (now : nat) (c : string) (p : place) : row :=
  {| city := c;
     place_id := p_place_id p;
     name := p_name p;
     address := or_else (p_formatted_address p) (p_vicinity p);
     lat := p_lat p;
     lng := p_lng p;
     rating := p_rating p;
     user_ratings_total := p_user_ratings_total p;
     price_level := p_price_level p;
     business_status := p_business_status p;
     types := default [] (p_types p);
     raw_json := p;
     fetched_at := now |}.

(** [PRIMARY KEY (city, place_id)]: two rows conflict when both columns are
    equal; a NULL place_id equals nothing. *)
Definition conflicts (new old : row) : bool :=
  bool_decide (city old = city new) &&
  match place_id new, place_id old with
  | Some a, Some b => bool_decide (a = b)
  | _, _ => false
  end.

(** [ON CONFLICT(city, place_id) DO UPDATE SET ...]: every column but the
    key is taken from the excluded row, [fetched_at] from the clock. *)
Definition do_update (new old : row) : row :=
  {| city := city old;
     place_id := place_id old;
     name := name new;
     address := address new;
     lat := lat new;
     lng := lng new;
     rating := rating new;
     user_ratings_total := user_ratings_total new;
     price_level := price_level new;
     business_status := business_status new;
     types := types new;
     raw_json := raw_json new;
     fetched_at := fetched_at new |}.

(** One [INSERT ... ON CONFLICT DO UPDATE] statement. *)
Definition upsert (new : row) (t : table) : table :=
  if existsb (conflicts new) t
  then map (fun old => if conflicts new old then do_update new old else old) t
  else t ++ [new].

(** A connection: the committed content of the database, the content as the
    open transaction sees it (if one is open), and [total_changes]. *)
Record conn := Conn {
  committed : table;
  pending : option table;
  total_changes : nat
}.

Definition current (c : conn) : table := default (committed c) (pending c).

Definition commit (c : conn) : conn :=
  {| committed := current c; pending := None;
     total_changes := total_changes c |}.

Definition rollback (c : conn) : conn :=
  {| committed := committed c; pending := None;
     total_changes := total_changes c |}.

Section Engine.

(** Whether the engine refuses a statement (disk full, database locked,
    a value it cannot bind, ...), given [total_changes] at that moment. *)
Variable rejects : nat -> row -> bool.

(** Schema constraint of a statement: none for the table of the plateau
    script; [place_id TEXT NOT NULL] for the two others. *)
Variable violates : row -> bool.

(** [executemany] inside the open transaction: the statements run in order
    and stop at the first one that fails, the earlier ones staying applied. *)
Fixpoint run_statements (rows : list row) (t : table) (n : nat)
  : result unit * table * nat :=
  match rows with
  | [] => (Ok tt, t, n)
  | r :: rows' =>
      if rejects n r || violates r then (Raise DatabaseError, t, n)
      else run_statements rows' (upsert r t) (S n)
  end.

(** [cursor.executemany(sql, rows)]: sqlite3 opens a transaction before the
    first statement unless one is open. *)
Definition executemany (rows : list row) (c : conn) : result unit * conn :=
  let '(r, t, n) := run_statements rows (current c) (total_changes c) in
  (r, {| committed := committed c; pending := Some t; total_changes := n |}).

End Engine.

Definition no_constraint (r : row) : bool := false.

Definition not_null_place_id (r : row) : bool :=
  match place_id r with None => true | Some _ => false end.

(** [insert_places(conn, city, places)] of the plateau script:
    [with conn:] commits when the block ends and rolls back when it raises. *)
Definition insert_places (rejects : nat -> row -> bool) (now : nat)
    (c : conn) (cty : string) (places : list place) : result nat * conn :=
  match places with
  | [] => (Ok 0, c)
  | _ =>
      let rows := map (row_of_place now cty) places in
      let before := total_changes c in
      match executemany rejects no_constraint rows c with
      | (Ok _, c1) =>
          let c2 := commit c1 in (Ok (total_changes c2 - before), c2)
      | (Raise e, c1) => (Raise e, rollback c1)
      end
  end.

(** [upsert_places(conn, city, places)] of the 1000-per-city script:
    [executemany] then [conn.commit()]; an exception of [executemany] leaves
    the function before the commit. *)
Definition upsert_places (rejects : nat -> row -> bool) (now : nat)
    (c : conn) (cty : string) (places : list place) : result unit * conn :=
  let rows := map (row_of_place now cty) places in
  match executemany rejects not_null_place_id rows c with
  | (Ok _, c1) => (Ok tt, commit c1)
  | (Raise e, c1) => (Raise e, c1)
  end.

(** [upsert_restaurants(conn, city, places)] of the text-search script. *)
Definition upsert_restaurants (rejects : nat -> row -> bool) (now : nat)
    (c : conn) (cty : string) (places : list place) : result unit * conn :=
  let rows := map (row_of_place_text now cty) places in
  match executemany rejects not_null_place_id rows c with
  | (Ok _, c1) => (Ok tt, commit c1)
  | (Raise e, c1) => (Raise e, c1)
  end.

(** What the database file holds once the process has ended: an open
    transaction is lost with the connection. *)
Definition at_exit (c : conn) : table := committed c.

(** [load_existing_ids(conn, city)]: the place ids of the city's rows (a
    NULL place id, which no record that passes [if pid] can equal, is left
    out). *)
Definition load_existing_ids (c : conn) (cty : string) : gset string :=
  list_to_set
    (omap (fun r => if bool_decide (city r = cty) then place_id r else None)
          (current c)).

(** [count_city(conn, city)] *)
Definition count_city (c : conn) (cty : string) : nat :=
  length (filter (fun r => city r = cty) (current c)).

(** The columns of a row but [fetched_at]. *)
Definition descriptive (r : row) : row :=
  {| city := city r;
     place_id := place_id r;
     name := name r;
     address := address r;
     lat := lat r;
     lng := lng r;
     rating := rating r;
     user_ratings_total := user_ratings_total r;
     price_level := price_level r;
     business_status := business_status r;
     types := types r;
     raw_json := raw_json r;
     fetched_at := 0 |}.

End Store.

(** ** The world and the effects of the scripts *)

Module Effects.
Import Py Store.

(** The [params] of a request: the first page of a location query, or a
    continuation ([pagetoken]). *)
Inductive request :=
  | Nearby (lat lng : Q) (radius : nat) (keyword : string)
  | NextPage (token : string).

(** The JSON body of an answer: [status], [results], [next_page_token]. *)
Record response := Response {
  status : string;
  results : list place;
  next_page_token : option string
}.

(** What [requests.get] comes to. *)
Inductive net_outcome :=
  | Answer (r : response)
  | ReadTimeout
  | ConnectionError.

(** Everything outside the process, consulted in order. *)
Record world := World {
  api_key : option string;               (* os.getenv("GOOGLE_API_KEY") *)
  net : nat -> request -> net_outcome;   (* the n-th requests.get *)
  jitter : nat -> Q;                     (* the n-th random.uniform(0, 1) *)
  clock : nat -> nat;                    (* the time once n requests are made *)
  rejects : nat -> row -> bool           (* the storage engine, see [Store] *)
}.

(** The lines of output the embedding keeps: the status of a refused query,
    the line of a grid point, the end of a city's loop, the final row count,
    the error and progress lines of the 1000-per-city script and its
    warning. *)
Inductive event :=
  | ProviderError (st : string) (lat lng : Q)
  | PointLine (lat lng : Q) (got new total pt : nat)
  | PlateauReached (cty : string)
  | FinalRows (cty : string) (n : nat)
  | ApiError (lat lng : Q)
  | Progress (lat lng : Q) (got new total : nat)
  | TargetWarning (cty : string) (n : nat).

(** The state of a run. [visited] lists the grid points handed to
    [fetch_nearby] so far. *)
Record state := State {
  db : conn;
  calls : nat;
  draws : nat;
  slept : list Q;
  out : list event;
  visited : list (Q * Q)
}.

Definition M (A : Type) : Type := state -> result A * state.

Definition ret {A} (a : A) : M A := fun st => (Ok a, st).

Definition raise {A} (e : exn) : M A := fun st => (Raise e, st).

Definition bind {A B} (m : M A) (k : A -> M B) : M B :=
  fun st =>
    match m st with
    | (Ok a, st') => k a st'
    | (Raise e, st') => (Raise e, st')
    end.

(** [try: m except RuntimeError: ...]: [None] when [m] raised it. *)
Definition try_runtime {A} (m : M A) : M (option A) :=
  fun st =>
    match m st with
    | (Ok a, st') => (Ok (Some a), st')
    | (Raise RuntimeError, st') => (Ok None, st')
    | (Raise e, st') => (Raise e, st')
    end.

Definition sleep (s : Q) : M unit :=
  fun st =>
    (Ok tt, {| db := db st; calls := calls st; draws := draws st;
               slept := slept st ++ [s]; out := out st;
               visited := visited st |}).

Definition print (e : event) : M unit :=
  fun st =>
    (Ok tt, {| db := db st; calls := calls st; draws := draws st;
               slept := slept st; out := out st ++ [e];
               visited := visited st |}).

Definition visit (p : Q * Q) : M unit :=
  fun st =>
    (Ok tt, {| db := db st; calls := calls st; draws := draws st;
               slept := slept st; out := out st;
               visited := visited st ++ [p] |}).

(** [random.uniform(0, 1)] *)
Definition uniform (w : world) : M Q :=
  fun st =>
    (Ok (jitter w (draws st)),
     {| db := db st; calls := calls st; draws := S (draws st);
        slept := slept st; out := out st; visited := visited st |}).

(** [requests.get(url, params=params, timeout=...)] with its exceptions
    left to the caller. *)
Definition http_get (w : world) (params : request) : M net_outcome :=
  fun st =>
    (Ok (net w (calls st) params),
     {| db := db st; calls := S (calls st); draws := draws st;
        slept := slept st; out := out st; visited := visited st |}).

(** A function of the store run on the connection of the state. *)
Definition on_db {A} (f : conn -> result A * conn) : M A :=
  fun st =>
    let '(r, c) := f (db st) in
    (r, {| db := c; calls := calls st; draws := draws st;
           slept := slept st; out := out st; visited := visited st |}).

Definition get_db : M conn := fun st => (Ok (db st), st).

Definition now (w : world) : M nat := fun st => (Ok (clock w (calls st)), st).

(** The state a computation leaves. *)
Definition exec {A} (m : M A) (st : state) : state := snd (m st).

End Effects.

Declare Scope crawl_scope.
Delimit Scope crawl_scope with crawl.
Notation "x <- m ; k" := (Effects.bind m (fun x => k))
  (at level 20, m at level 100, k at level 200, only parsing) : crawl_scope.
Notation "m ;; k" := (Effects.bind m (fun _ => k))
  (at level 100, k at level 200, only parsing, right associativity)
  : crawl_scope.

(** ** Provider adapter ([safe_get], [fetch_nearby]) *)

Module Adapter.
Import Py Store Effects.
Local Open Scope crawl_scope.

Definition KEYWORD : string := "restaurant".

(** [min(2 ** i, 30)] *)
Definition backoff (i : nat) : Q := inject_Z (Z.of_nat (Nat.min (2 ^ i) 30)).

(** The loop [for i in range(max_tries)] of [safe_get], from iteration [i]
    with [tries] iterations to go. Both [except] clauses sleep
    [min(2 ** i, 30) + random.uniform(0, 1)] and go round. *)
Fixpoint safe_get_from (w : world) (tries i : nat) (params : request)
  : M response :=
  match tries with
  | O => raise RuntimeError
  | S tries' =>
      o <- http_get w params ;
      match o with
      | Answer r => ret r
      | ReadTimeout | ConnectionError =>
          j <- uniform w ;
          sleep (backoff i + j)%Q ;;
          safe_get_from w tries' (S i) params
      end
  end.

(** [safe_get(url, params, max_tries=6)] *)
Definition safe_get (w : world) (params : request) : M response :=
  safe_get_from w 6 0 params.

(** [params] at the top of an iteration of the page loop. *)
Definition page_params (params : request) (next_token : option string)
  : request :=
  match next_token with
  | Some tok => if truthy next_token then NextPage tok else params
  | None => params
  end.

(** [fetch_nearby] of the plateau script: the loop [for _ in range(3)] with
    [pages] iterations to go. *)
Fixpoint fetch_pages (w : world) (pages : nat) (lat lng : Q)
    (params : request) (next_token : option string)
    (all_results : list place) : M (list place) :=
  match pages with
  | O => ret all_results
  | S pages' =>
      (if truthy next_token then sleep 2 else ret tt) ;;
      let params := page_params params next_token in
      data <- safe_get w params ;
      data <- (if String.eqb (status data) "INVALID_REQUEST"
                  && truthy next_token
               then sleep 2 ;; safe_get w params
               else ret data) ;
      if String.eqb (status data) "OK" then
        let all_results := all_results ++ results data in
        let next_token := next_page_token data in
        if truthy next_token
        then fetch_pages w pages' lat lng params next_token all_results
        else ret all_results
      else if String.eqb (status data) "ZERO_RESULTS" then ret all_results
      else if String.eqb (status data) "UNKNOWN_ERROR" then
        sleep 2 ;;
        data <- safe_get w params ;
        if String.eqb (status data) "OK" then
          let all_results := all_results ++ results data in
          let next_token := next_page_token data in
          if truthy next_token
          then fetch_pages w pages' lat lng params next_token all_results
          else ret all_results
        else if String.eqb (status data) "ZERO_RESULTS" then ret all_results
        else print (ProviderError (status data) lat lng) ;; ret []
      else print (ProviderError (status data) lat lng) ;; ret []
  end.

Definition fetch_nearby (w : world) (lat lng : Q) (radius_m : nat)
    (keyword : string) : M (list place) :=
  fetch_pages w 3 lat lng (Nearby lat lng radius_m keyword) None [].

(** [requests.get(..., timeout=30)] of the 1000-per-city script: a network
    failure is the exception of [requests]. *)
Definition requests_get (w : world) (params : request) : M response :=
  o <- http_get w params ;
  match o with
  | Answer r => ret r
  | ReadTimeout | ConnectionError => raise RequestException
  end.

(** [fetch_nearby] of the 1000-per-city script: the loop
    [for _ in range(max_pages)]. *)
Fixpoint fetch_pages_1000 (w : world) (pages : nat) (params : request)
    (next_token : option string) (all_results : list place)
  : M (list place) :=
  match pages with
  | O => ret all_results
  | S pages' =>
      (if truthy next_token then sleep 2 else ret tt) ;;
      let params := page_params params next_token in
      data <- requests_get w params ;
      data <- (if String.eqb (status data) "INVALID_REQUEST"
                  && truthy next_token
               then sleep 2 ;; requests_get w params
               else ret data) ;
      if negb (String.eqb (status data) "OK"
               || String.eqb (status data) "ZERO_RESULTS")
      then raise RuntimeError
      else
        let all_results := all_results ++ results data in
        let next_token := next_page_token data in
        if truthy next_token
        then fetch_pages_1000 w pages' params next_token all_results
        else ret all_results
  end.

Definition fetch_nearby_1000 (w : world) (lat lng : Q) (radius_m : nat)
    (keyword : string) (max_pages : nat) : M (list place) :=
  fetch_pages_1000 w max_pages (Nearby lat lng radius_m keyword) None [].

End Adapter.

(** ** Crawl orchestrator ([main] of the two grid scripts) *)

Module Crawl.
Import Py Store Effects Adapter.
Local Open Scope crawl_scope.

Definition REQUEST_SLEEP : Q := 0.8.
Definition TARGET_PER_CITY : nat := 1000.

(** A place id that passes [if pid]. *)
Definition pid_of (p : place) : option string :=
  if truthy (p_place_id p) then p_place_id p else None.

(** The loop [for p in results] of the plateau script, on the variables
    [seen] and [new_places]. *)
Fixpoint collect (results : list place) (seen : gset string)
    (new_places : list place) : gset string * list place :=
  match results with
  | [] => (seen, new_places)
  | p :: rest =>
      match pid_of p with
      | Some pid =>
          if bool_decide (pid ∈ seen) then collect rest seen new_places
          else collect rest ({[pid]} ∪ seen) (new_places ++ [p])
      | None => collect rest seen new_places
      end
  end.

(** The same loop in the 1000-per-city script, which leaves it once the
    target is reached. *)
Fixpoint collect_1000 (results : list place) (seen : gset string)
    (new_places : list place) : gset string * list place :=
  match results with
  | [] => (seen, new_places)
  | p :: rest =>
      match pid_of p with
      | None => collect_1000 rest seen new_places
      | Some pid =>
          if bool_decide (pid ∈ seen) then collect_1000 rest seen new_places
          else
            let seen := {[pid]} ∪ seen in
            let new_places := new_places ++ [p] in
            if TARGET_PER_CITY <=? size seen then (seen, new_places)
            else collect_1000 rest seen new_places
      end
  end.

(** [written = insert_places(conn, city, new_places)] when [new_places]
    is not empty. *)
Definition write_new (w : world) (cty : string) (new_places : list place)
  : M nat :=
  match new_places with
  | [] => ret 0
  | _ =>
      t <- now w ;
      on_db (fun c => insert_places (rejects w) t c cty new_places)
  end.

(** The loop [for lat, lng in grid_points(...)] of the plateau script over
    the points the generator yields, on the variables [seen] and the
    detector's. *)
Fixpoint city_loop (w : world) (cty : string) (radius : nat)
    (pts : list (Q * Q)) (seen : gset string) (d : Plateau.detector)
  : M unit :=
  match pts with
  | [] => ret tt
  | (lat, lng) :: pts' =>
      visit (lat, lng) ;;
      results <- fetch_nearby w lat lng radius KEYWORD ;
      let '(seen, new_places) := collect results seen [] in
      write_new w cty new_places ;;
      let '(d, stop) := Plateau.observe (length new_places) d in
      print (PointLine lat lng (length results) (length new_places)
                       (size seen) (Plateau.points_done d)) ;;
      if stop then print (PlateauReached cty)
      else sleep REQUEST_SLEEP ;; city_loop w cty radius pts' seen d
  end.

(** A city of [CITIES] with the points [grid_points] yields for its box:
    the name, [radius_m], the points. *)
Definition city_cfg : Type := string * nat * list (Q * Q).

(** The body of [for city, cfg in CITIES.items()] of the plateau script. *)
Definition crawl_city (w : world) (cfg : city_cfg) : M unit :=
  let '(cty, radius, pts) := cfg in
  c <- get_db ;
  let seen := load_existing_ids c cty in
  city_loop w cty radius pts seen Plateau.init ;;
  c <- get_db ;
  print (FinalRows cty (count_city c cty)).

Fixpoint for_cities (body : city_cfg -> M unit) (cities : list city_cfg)
  : M unit :=
  match cities with
  | [] => ret tt
  | cfg :: rest => body cfg ;; for_cities body rest
  end.

(** [main] of export_google_places_plateau.py, [cities] being the entries
    of [CITIES] with their grids (see [configured] below). *)
Definition main (w : world) (cities : list city_cfg) : M unit :=
  if truthy (api_key w) then for_cities (crawl_city w) cities
  else raise RuntimeError.

(** [upsert_places(conn, city, new_places)] when [new_places] is not empty. *)
Definition write_new_1000 (w : world) (cty : string)
    (new_places : list place) : M unit :=
  match new_places with
  | [] => ret tt
  | _ =>
      t <- now w ;
      on_db (fun c => upsert_places (rejects w) t c cty new_places)
  end.

(** The loop [for (lat, lng) in generate_grid_points(...)] of the
    1000-per-city script; it returns the final [seen_place_ids]. *)
Fixpoint city_loop_1000 (w : world) (cty : string) (radius : nat)
    (pts : list (Q * Q)) (seen : gset string) : M (gset string) :=
  match pts with
  | [] => ret seen
  | (lat, lng) :: pts' =>
      if TARGET_PER_CITY <=? size seen then ret seen
      else
        visit (lat, lng) ;;
        r <- try_runtime (fetch_nearby_1000 w lat lng radius KEYWORD 3) ;
        match r with
        | None =>
            print (ApiError lat lng) ;;
            sleep 2 ;;
            city_loop_1000 w cty radius pts' seen
        | Some results =>
            let '(seen, new_places) := collect_1000 results seen [] in
            write_new_1000 w cty new_places ;;
            (if (size seen mod 100 =? 0)
                || match new_places with [] => false | _ => true end
             then print (Progress lat lng (length results)
                                  (length new_places) (size seen))
             else ret tt) ;;
            sleep 0.2 ;;
            city_loop_1000 w cty radius pts' seen
        end
  end.

(** The body of [for city, cfg in CITIES.items()] of the 1000-per-city
    script. *)
Definition crawl_city_1000 (w : world) (cfg : city_cfg) : M unit :=
  let '(cty, radius, pts) := cfg in
  c <- get_db ;
  let seen := load_existing_ids c cty in
  city_loop_1000 w cty radius pts seen ;;
  c <- get_db ;
  let final_count := count_city c cty in
  print (FinalRows cty final_count) ;;
  if final_count <? TARGET_PER_CITY
  then print (TargetWarning cty final_count)
  else ret tt.

(** [main] of export_google_places_1000_per_city.py *)
Definition main_1000 (w : world) (cities : list city_cfg) : M unit :=
  if truthy (api_key w) then for_cities (crawl_city_1000 w) cities
  else raise RuntimeError.

(** *** The configuration of the plateau script *)

Definition STEP_MULTIPLIER : Q := 1.2.

(** [CITIES]: name, bounding box, [radius_m]. *)
Definition CITIES : list (string * Geo.bbox * nat) :=
  [("San Francisco",
    {| Geo.lat_min := 37.66; Geo.lat_max := 37.84;
       Geo.lng_min := -122.55; Geo.lng_max := -122.33 |}, 1200%nat);
   ("Los Angeles",
    {| Geo.lat_min := 33.70; Geo.lat_max := 34.35;
       Geo.lng_min := -118.70; Geo.lng_max := -118.10 |}, 3000%nat);
   ("Chicago",
    {| Geo.lat_min := 41.65; Geo.lat_max := 42.10;
       Geo.lng_min := -88.05; Geo.lng_max := -87.45 |}, 1600%nat);
   ("New York",
    {| Geo.lat_min := 40.50; Geo.lat_max := 40.95;
       Geo.lng_min := -74.30; Geo.lng_max := -73.65 |}, 1400%nat)]%Q.

(** [step_m = int(radius * STEP_MULTIPLIER)] *)
Definition step_m_of (radius : nat) : Q :=
  inject_Z (Qfloor (inject_Z (Z.of_nat radius) * STEP_MULTIPLIER)).

(** The cities as [main] goes through them, each with the points
    [grid_points(cfg["bbox"], step_m)] yields; [None] if a grid has no end. *)
Fixpoint configured (cos_deg : Q -> Q)
    (cities : list (string * Geo.bbox * nat)) : option (list city_cfg) :=
  match cities with
  | [] => Some []
  | (cty, bbox, radius) :: rest =>
      match Geo.grid_points cos_deg bbox (step_m_of radius),
            configured cos_deg rest with
      | Some pts, Some cfgs => Some ((cty, radius, pts) :: cfgs)
      | _, _ => None
      end
  end.

End Crawl.

(** ** The text-search script ([fetch_text_search] and [main] of
    export_google_places_to_sqlite.py) *)

Module TextSearch.
Import Py Store Effects.
Local Open Scope crawl_scope.

(** The [params] of a text-search request: the query of the first page, or
    a continuation ([pagetoken]). *)
Inductive ts_request :=
  | Query (query : string)
  | PageToken (token : string).

(** Everything outside the process of this script. *)
Record ts_world := TsWorld {
  ts_api_key : option string;                (* os.getenv("GOOGLE_API_KEY") *)
  ts_net : nat -> ts_request -> net_outcome; (* the n-th requests.get *)
  ts_clock : nat -> nat;                     (* the time after n requests *)
  ts_rejects : nat -> row -> bool            (* the storage engine *)
}.

Definition ts_http_get (w : ts_world) (params : ts_request) : M net_outcome :=
  fun st =>
    (Ok (ts_net w (calls st) params),
     {| db := db st; calls := S (calls st); draws := draws st;
        slept := slept st; out := out st; visited := visited st |}).

(** [requests.get(TEXTSEARCH_URL, params=params, timeout=30)] *)
Definition ts_requests_get (w : ts_world) (params : ts_request)
  : M response :=
  o <- ts_http_get w params ;
  match o with
  | Answer r => ret r
  | ReadTimeout | ConnectionError => raise RequestException
  end.

Definition ts_now (w : ts_world) : M nat :=
  fun st => (Ok (ts_clock w (calls st)), st).

(** [params] at the top of an iteration of the page loop. *)
Definition ts_page_params (params : ts_request) (next_token : option string)
  : ts_request :=
  match next_token with
  | Some tok => if truthy next_token then PageToken tok else params
  | None => params
  end.

(** The loop [for page in range(max_pages)] of [fetch_text_search]. *)
Fixpoint fetch_text_pages (w : ts_world) (pages : nat) (params : ts_request)
    (next_page_token_ : option string) (all_results : list place)
  : M (list place) :=
  match pages with
  | O => ret all_results
  | S pages' =>
      (if truthy next_page_token_ then sleep 2 else ret tt) ;;
      let params := ts_page_params params next_page_token_ in
      data <- ts_requests_get w params ;
      if negb (String.eqb (status data) "OK"
               || String.eqb (status data) "ZERO_RESULTS")
      then raise RuntimeError
      else
        let all_results := all_results ++ results data in
        let next_page_token_ := next_page_token data in
        if truthy next_page_token_
        then fetch_text_pages w pages' params next_page_token_ all_results
        else ret all_results
  end.

(** [fetch_text_search(api_key, query, max_pages)] *)
Definition fetch_text_search (w : ts_world) (query : string)
    (max_pages : nat) : M (list place) :=
  fetch_text_pages w max_pages (Query query) None [].

(** [CITIES]: the name of a city and the text of its query. *)
Definition CITIES_TEXT : list (string * string) :=
  [("San Francisco", "San Francisco, CA");
   ("Los Angeles", "Los Angeles, CA");
   ("Chicago", "Chicago, IL");
   ("New York", "New York, NY")].

(** The body of [for city_name, city_query in CITIES.items()]; of its
    output the line with the row count is kept. *)
Definition search_city (w : ts_world) (c : string * string) : M unit :=
  let '(city_name, city_query) := c in
  let query := String.append "restaurants in " city_query in
  places <- fetch_text_search w query 3 ;
  t <- ts_now w ;
  on_db (fun c => upsert_restaurants (ts_rejects w) t c city_name places) ;;
  c <- get_db ;
  print (FinalRows city_name (count_city c city_name)).

Fixpoint for_queries (body : string * string -> M unit)
    (cities : list (string * string)) : M unit :=
  match cities with
  | [] => ret tt
  | c :: rest => body c ;; for_queries body rest
  end.

(** [main] of export_google_places_to_sqlite.py *)
Definition main_text (w : ts_world) (cities : list (string * string))
  : M unit :=
  if truthy (ts_api_key w) then for_queries (search_city w) cities
  else raise RuntimeError.

End TextSearch.

(** * Properties *)

(** ** The plateau detector *)

Module PlateauFacts.
Import Plateau.

Lemma length_deque_append n x d :
  length (deque_append n x d) =
  if n <? S (length d) then length d else S (length d).
Proof.
  unfold deque_append. rewrite length_app, Nat.add_1_r.
  destruct (n <? S (length d)); [|by rewrite length_app, Nat.add_1_r].
  destruct d; cbn; [reflexivity|]. by rewrite length_app, Nat.add_1_r.
Qed.

(** What holds of the detector from the warm-up boundary on: the window
    only holds samples taken since the boundary, and every low-yield hit
    was earned by a full window of them. *)
Definition sampling (d : detector) : Prop :=
  MIN_POINTS_BEFORE_PLATEAU <= points_done d /\
  length (recent d) = Nat.min (points_done d - 79) WINDOW /\
  stable_hits d <= points_done d - 128.

Lemma observe_points_done x d :
  points_done (fst (observe x d)) = S (points_done d).
Proof.
  unfold observe.
  repeat match goal with |- context [if ?c then _ else _] => destruct c end;
    reflexivity.
Qed.

Lemma observe_warming_up x d :
  S (points_done d) < MIN_POINTS_BEFORE_PLATEAU -> snd (observe x d) = false.
Proof.
  intros Hlt. unfold observe.
  destruct (S (points_done d) =? MIN_POINTS_BEFORE_PLATEAU) eqn:E.
  { apply Nat.eqb_eq in E. lia. }
  apply Nat.ltb_lt in Hlt. rewrite Hlt.
  destruct (_ =? WINDOW); reflexivity.
Qed.

(** The iteration that crosses the boundary forgets the window and the
    counter it was handed. *)
Lemma observe_boundary x d :
  S (points_done d) = MIN_POINTS_BEFORE_PLATEAU ->
  observe x d =
  ({| recent := [x]; stable_hits := 0;
      points_done := MIN_POINTS_BEFORE_PLATEAU |}, false).
Proof.
  intros E. unfold observe. rewrite E. reflexivity.
Qed.

Lemma sampling_boundary x :
  sampling {| recent := [x]; stable_hits := 0;
              points_done := MIN_POINTS_BEFORE_PLATEAU |}.
Proof. unfold sampling; cbn. unfold MIN_POINTS_BEFORE_PLATEAU, WINDOW. lia. Qed.

Lemma observe_sampling x d :
  sampling d ->
  sampling (fst (observe x d)) /\
  (snd (observe x d) = true -> 133 <= S (points_done d)).
Proof.
  intros (Hge & Hlen & Hsh). unfold sampling.
  rewrite observe_points_done. unfold observe.
  unfold MIN_POINTS_BEFORE_PLATEAU, WINDOW, STABLE_WINDOWS in *.
  destruct (S (points_done d) =? 80) eqn:E; [apply Nat.eqb_eq in E; lia|].
  pose proof (length_deque_append 50 x (recent d)) as HL.
  destruct (length (deque_append 50 x (recent d)) =? 50) eqn:E50.
  - apply Nat.eqb_eq in E50.
    destruct (S (points_done d) <? 80) eqn:E80; [apply Nat.ltb_lt in E80; lia|].
    destruct (50 <? S (length (recent d))) eqn:Efull;
      [apply Nat.ltb_lt in Efull | apply Nat.ltb_ge in Efull];
      destruct (Qltb _ _); cbn [fst snd recent stable_hits points_done];
      rewrite ?Nat.leb_le; lia.
  - apply Nat.eqb_neq in E50. cbn [fst snd recent stable_hits points_done].
    destruct (50 <? S (length (recent d))) eqn:Efull;
      [apply Nat.ltb_lt in Efull | apply Nat.ltb_ge in Efull];
      (split; [lia | discriminate]).
Qed.

Lemma run_sampling xs : forall d n,
  sampling d -> run d xs = Some n ->
  133 <= n <= points_done d + length xs.
Proof.
  induction xs as [|x xs IH]; intros d n Hs; cbn [run]; [discriminate|].
  destruct (observe_sampling x d Hs) as [Hs' Hstop].
  pose proof (observe_points_done x d) as Hpd.
  destruct (observe x d) as [d' stop]; cbn [fst snd] in *.
  destruct stop.
  - intros [= <-]. specialize (Hstop eq_refl). cbn [length]. lia.
  - intros Hrun. apply IH in Hrun; [|exact Hs']. cbn [length]. lia.
Qed.

Lemma run_warming_up xs : forall d n,
  points_done d < MIN_POINTS_BEFORE_PLATEAU -> run d xs = Some n ->
  133 <= n <= points_done d + length xs.
Proof.
  induction xs as [|x xs IH]; intros d n Hlt; cbn [run]; [discriminate|].
  destruct (decide (S (points_done d) = MIN_POINTS_BEFORE_PLATEAU)) as [E|NE].
  - rewrite (observe_boundary x d E). intros Hrun.
    apply run_sampling in Hrun; [|apply sampling_boundary].
    cbn [points_done length] in *. lia.
  - pose proof (observe_warming_up x d ltac:(lia)) as Hstop.
    pose proof (observe_points_done x d) as Hpd.
    destruct (observe x d) as [d' stop]; cbn [fst snd] in *. subst stop.
    intros Hrun. apply IH in Hrun; [|lia]. cbn [length]. lia.
Qed.

(** Before the boundary the loop never breaks, so running over [pre ++ suf]
    is running over [suf] from the state [pre] leaves. *)
Lemma run_app_warming_up pre : forall d suf,
  points_done d + length pre < MIN_POINTS_BEFORE_PLATEAU ->
  run d (pre ++ suf) = run (feed d pre) suf.
Proof.
  induction pre as [|x pre IH]; intros d suf Hlt; [reflexivity|].
  cbn [app run feed fold_left length] in *.
  pose proof (observe_warming_up x d ltac:(lia)) as Hstop.
  pose proof (observe_points_done x d) as Hpd.
  destruct (observe x d) as [d' stop]; cbn [fst snd] in *. subst stop.
  apply IH. lia.
Qed.

Lemma feed_points_done xs : forall d,
  points_done (feed d xs) = points_done d + length xs.
Proof.
  induction xs as [|x xs IH]; intros d; cbn [feed fold_left length]; [lia|].
  fold (feed (fst (observe x d)) xs). rewrite IH, observe_points_done. lia.
Qed.

Lemma feed_app xs ys d : feed d (xs ++ ys) = feed (feed d xs) ys.
Proof. unfold feed. apply fold_left_app. Qed.

Lemma run_from_boundary d1 d2 xs :
  S (points_done d1) = MIN_POINTS_BEFORE_PLATEAU ->
  S (points_done d2) = MIN_POINTS_BEFORE_PLATEAU ->
  run d1 xs = run d2 xs.
Proof.
  intros E1 E2. destruct xs as [|x xs]; [reflexivity|].
  cbn [run]. rewrite (observe_boundary x d1 E1), (observe_boundary x d2 E2).
  reflexivity.
Qed.

Lemma observe_recent x d :
  recent (fst (observe x d)) =
  deque_append WINDOW x
    (if S (points_done d) =? MIN_POINTS_BEFORE_PLATEAU then [] else recent d).
Proof.
  unfold observe.
  repeat match goal with |- context [if ?c then _ else _] => destruct c end;
    reflexivity.
Qed.

Lemma feed_snoc d xs x : feed d (xs ++ [x]) = fst (observe x (feed d xs)).
Proof. by rewrite feed_app. Qed.

(** From the boundary on, the window holds the samples taken since the
    boundary, the last [WINDOW] of them at most. *)
Lemma feed_window (xs : list nat) k :
  MIN_POINTS_BEFORE_PLATEAU <= k <= length xs ->
  recent (feed init (take k xs)) =
  drop (Nat.max 79 (k - WINDOW)) (take k xs).
Proof.
  unfold MIN_POINTS_BEFORE_PLATEAU, WINDOW. intros [Hk Hlen].
  induction k as [|k IH]; [lia|].
  destruct (lookup_lt_is_Some_2 xs k ltac:(lia)) as [x Hx].
  rewrite (take_S_r xs k x Hx), feed_snoc, observe_recent.
  rewrite feed_points_done, length_take.
  change (points_done init) with 0.
  rewrite Nat.add_0_l, Nat.min_l by lia.
  unfold MIN_POINTS_BEFORE_PLATEAU, WINDOW.
  destruct (S k =? 80) eqn:E.
  - apply Nat.eqb_eq in E. assert (k = 79) as -> by lia.
    change (79 `max` (80 - 50)) with 79.
    rewrite drop_app_length' by (rewrite length_take; lia). reflexivity.
  - apply Nat.eqb_neq in E. rewrite IH by lia.
    unfold deque_append.
    rewrite length_app, length_drop, length_take, Nat.min_l by lia.
    cbn [length].
    rewrite <- drop_app_le by (rewrite length_take; lia).
    destruct (50 <? _) eqn:E50;
      [apply Nat.ltb_lt in E50 | apply Nat.ltb_ge in E50].
    + replace (79 `max` (S k - 50)) with (S (79 `max` (k - 50))) by lia.
      generalize (take k xs ++ [x]) as l. generalize (79 `max` (k - 50)) as m.
      intros m. induction m as [|m IHm]; intros [|a l]; try reflexivity.
      apply IHm.
    + f_equal. lia.
Qed.

(** C3. When [points_done] reaches the warm-up count 80 the window and the
    low-yield counter are reset: after any 79 counts and a further count [x]
    the state is the window [[x]] with counter 0. Hence the counts seen before
    the boundary have no effect on where the loop breaks; on every input
    a break happens at point 133 at the earliest (window 50, stability 5),
    with a window made of the last 50 counts, all taken from point 84 on;
    on zeros only it happens at point 133. *)
Theorem plateau_warmup_reset :
  (forall (pre : list nat) (x : nat),
     length pre = 79 ->
     feed init (pre ++ [x]) =
     {| recent := [x]; stable_hits := 0; points_done := 80 |}) /\
  (forall pre pre' suf : list nat,
     length pre = 79 -> length pre' = 79 ->
     run init (pre ++ suf) = run init (pre' ++ suf)) /\
  (forall (xs : list nat) (n : nat),
     run init xs = Some n ->
     133 <= n <= length xs /\
     recent (feed init (take n xs)) = take WINDOW (drop (n - WINDOW) xs)) /\
  run init (repeat 0 133) = Some 133.
Proof.
  split; [|split; [|split]].
  - intros pre x Hlen. rewrite feed_app. cbn [feed fold_left].
    rewrite observe_boundary; [reflexivity|].
    rewrite feed_points_done. cbn. unfold MIN_POINTS_BEFORE_PLATEAU. lia.
  - intros pre pre' suf H H'.
    rewrite !run_app_warming_up
      by (cbn; unfold MIN_POINTS_BEFORE_PLATEAU; lia).
    apply run_from_boundary; rewrite feed_points_done; cbn;
      unfold MIN_POINTS_BEFORE_PLATEAU; lia.
  - intros xs n Hrun. apply run_warming_up in Hrun;
      [|cbn; unfold MIN_POINTS_BEFORE_PLATEAU; lia].
    change (points_done init) with 0 in Hrun. split; [lia|].
    rewrite feed_window by (unfold MIN_POINTS_BEFORE_PLATEAU; lia).
    unfold WINDOW. replace (79 `max` (n - 50)) with (n - 50) by lia.
    rewrite take_drop_commute. do 2 f_equal. lia.
  - vm_compute. reflexivity.
Qed.

(** *** Alternating yields *)

Definition bit (b : bool) : nat := if b then 1 else 0.

(** The value that continues [alternating b0 k]. *)
Definition next (b0 : bool) (k : nat) : bool :=
  if Nat.even k then b0 else negb b0.

Lemma next_S b0 k : next b0 (S k) = negb (next b0 k).
Proof.
  unfold next. rewrite Nat.even_succ, <- Nat.negb_even.
  destruct (Nat.even k), b0; reflexivity.
Qed.

Lemma next_negb b0 k : next (negb b0) k = negb (next b0 k).
Proof. unfold next. destruct (Nat.even k); reflexivity. Qed.

Lemma length_alternating n : forall b, length (alternating b n) = n.
Proof. induction n as [|n IH]; intros b; cbn; [|rewrite IH]; reflexivity. Qed.

Lemma alternating_snoc k : forall b0,
  alternating b0 k ++ [bit (next b0 k)] = alternating b0 (S k).
Proof.
  induction k as [|k IH]; intros b0; [reflexivity|].
  change (alternating b0 (S k)) with (bit b0 :: alternating (negb b0) k).
  change (alternating b0 (S (S k)))
    with (bit b0 :: alternating (negb b0) (S k)).
  rewrite <- IH, next_S, next_negb. reflexivity.
Qed.

Lemma deque_append_alternating b0 k :
  k <= WINDOW ->
  deque_append WINDOW (bit (next b0 k)) (alternating b0 k) =
  if k <? WINDOW then alternating b0 (S k) else alternating (negb b0) WINDOW.
Proof.
  intros Hk. unfold deque_append.
  rewrite alternating_snoc, length_alternating.
  destruct (k <? WINDOW) eqn:E.
  - apply Nat.ltb_lt in E.
    destruct (WINDOW <? S k) eqn:E'; [|reflexivity].
    apply Nat.ltb_lt in E'. lia.
  - apply Nat.ltb_ge in E. assert (k = WINDOW) as -> by lia.
    reflexivity.
Qed.

Lemma avg_alternating_window b :
  Qltb (avg (alternating b WINDOW)) MIN_NEW_AVG = false.
Proof. destruct b; vm_compute; reflexivity. Qed.

(** The loop state while it is fed alternating counts, [b] being the next. *)
Definition alternates (d : detector) (b : bool) : Prop :=
  stable_hits d = 0 /\
  exists b0 k, k <= WINDOW /\ recent d = alternating b0 k /\ b = next b0 k.

Lemma alternates_init b : alternates init b.
Proof.
  split; [reflexivity|]. exists b, 0. unfold WINDOW.
  split; [lia|]. split; reflexivity.
Qed.

Lemma observe_alternates d b :
  alternates d b ->
  snd (observe (bit b) d) = false /\
  alternates (fst (observe (bit b) d)) (negb b).
Proof.
  intros (Hsh & b0 & k & Hk & Hrc & ->). unfold observe.
  destruct (S (points_done d) =? MIN_POINTS_BEFORE_PLATEAU).
  { split; [reflexivity|]. split; [reflexivity|].
    exists (next b0 k), 1. unfold WINDOW.
    split; [lia|]. split; [reflexivity|]. by rewrite next_S. }
  rewrite Hrc, Hsh, deque_append_alternating by exact Hk.
  destruct (k <? WINDOW) eqn:E.
  - apply Nat.ltb_lt in E. rewrite length_alternating, <- next_S.
    assert (S k <= WINDOW) as Hm by lia. revert Hm.
    generalize (S k) as m. intros m Hm.
    assert (alternates_next : forall sh pd, sh = 0 ->
      alternates {| recent := alternating b0 m; stable_hits := sh;
                    points_done := pd |} (next b0 m)).
    { intros sh pd ->. split; [reflexivity|]. exists b0, m.
      split; [lia|]. split; reflexivity. }
    destruct (m =? WINDOW) eqn:E'.
    + apply Nat.eqb_eq in E'. subst m. rewrite avg_alternating_window.
      destruct (_ <? MIN_POINTS_BEFORE_PLATEAU);
        (split; [reflexivity | by apply alternates_next]).
    + split; [reflexivity | by apply alternates_next].
  - apply Nat.ltb_ge in E. assert (k = WINDOW) as -> by lia.
    rewrite length_alternating, Nat.eqb_refl, avg_alternating_window.
    assert (alternates_full : forall pd,
      alternates {| recent := alternating (negb b0) WINDOW; stable_hits := 0;
                    points_done := pd |} (negb (next b0 WINDOW))).
    { intros pd. split; [reflexivity|]. exists (negb b0), WINDOW.
      rewrite next_negb. split; [lia|]. split; reflexivity. }
    destruct (_ <? MIN_POINTS_BEFORE_PLATEAU);
      (split; [reflexivity | apply alternates_full]).
Qed.

Lemma run_alternates n : forall d b,
  alternates d b -> run d (alternating b n) = None.
Proof.
  induction n as [|n IH]; intros d b Hd; [reflexivity|].
  cbn [alternating run]. fold (bit b).
  destruct (observe_alternates d b Hd) as [Hstop Hd'].
  destruct (observe (bit b) d) as [d' stop]; cbn [fst snd] in *.
  subst stop. by apply IH.
Qed.

(** C4. With window 50, threshold 0.5 and stability count 5, the detector fed
    the counts 0, 1, 0, 1, ... (or 1, 0, 1, 0, ...) never breaks the loop,
    however many points are processed: every full window averages exactly
    0.5, which is not below the threshold. *)
Theorem plateau_alternating_never_stops :
  forall (b : bool) (n : nat), run init (alternating b n) = None.
Proof. intros b n. apply run_alternates, alternates_init. Qed.

End PlateauFacts.


(** ** The grid generator *)

Module GeoFacts.
Import Geo.
Local Open Scope Q_scope.

Lemma Qle_bool_false x y : Qle_bool x y = false -> y < x.
Proof.
  intros E. apply Qnot_le_lt. intros H. apply Qle_bool_iff in H. congruence.
Qed.

(** One step of a loop brings the number of steps left down. *)
Lemma floor_step lo hi s :
  0 < s -> lo + s <= hi ->
  (Z.to_nat (Qfloor ((hi - (lo + s)) / s)) <
   Z.to_nat (Qfloor ((hi - lo) / s)))%nat.
Proof.
  intros Hs Hle.
  set (x' := (hi - (lo + s)) / s). set (x := (hi - lo) / s).
  assert (0 <= x') as Hx'.
  { apply Qle_shift_div_l; [exact Hs|]. lra. }
  assert (x == x' + 1) as Hx.
  { unfold x, x'. field. lra. }
  assert (0 <= Qfloor x')%Z as H0.
  { change 0%Z with (Qfloor 0). by apply Qfloor_resp_le. }
  assert (Qfloor x' + 1 <= Qfloor x)%Z as H1.
  { rewrite <- (Qfloor_Z (Qfloor x' + 1)). apply Qfloor_resp_le.
    rewrite inject_Z_plus, Hx. pose proof (Qfloor_le x').
    change (inject_Z 1) with 1. lra. }
  lia.
Qed.

Lemma Sorted_mono {A} (R R' : A -> A -> Prop) l :
  (forall x y, R x y -> R' x y) -> Sorted R l -> Sorted R' l.
Proof.
  intros HR. induction 1 as [|a l _ IH Hd]; constructor; [exact IH|].
  destruct Hd; constructor. by apply HR.
Qed.

(** Two chains joined where the last of the first meets the head of the
    second. *)
Lemma Sorted_app_link {A} (R : A -> A -> Prop) l1 l2 :
  Sorted R l1 -> Sorted R l2 ->
  (forall x y, last l1 = Some x -> head l2 = Some y -> R x y) ->
  Sorted R (l1 ++ l2).
Proof.
  induction l1 as [|a l1 IH]; intros H1 H2 Hlink; [exact H2|].
  apply Sorted_inv in H1 as [H1 Hd]. cbn [app]. constructor.
  - apply IH; [exact H1|exact H2|]. intros x y Hx Hy.
    apply Hlink; [|exact Hy]. destruct l1; [discriminate|exact Hx].
  - destruct Hd as [|a' l1 Hr]; [|by constructor].
    destruct l2 as [|y l2]; constructor. by apply Hlink.
Qed.

(** The inner loop with enough fuel: its row. *)
Lemma lng_loop_spec lat lo hi s :
  0 < s ->
  forall fuel lng,
    lo <= lng ->
    (lng <= hi -> (Z.to_nat (Qfloor ((hi - lng) / s)) < fuel)%nat) ->
    exists row,
      lng_loop fuel lat lng hi s = Some row /\
      Forall (fun p => fst p = lat /\ lo <= snd p <= hi) row /\
      Sorted (fun p q => fst p = lat /\ snd p + s <= hi /\
                         q = (fst p, snd p + s)) row /\
      (forall y, head row = Some y -> y = (lat, lng)) /\
      (lng <= hi -> row <> []) /\
      (hi < lng -> row = []) /\
      (forall x, last row = Some x -> fst x = lat /\ hi < snd x + s).
Proof.
  intros Hs. induction fuel as [|fuel IH]; intros lng Hlo Hfuel;
    cbn [lng_loop]; destruct (Qle_bool lng hi) eqn:E.
  - apply Qle_bool_iff in E. specialize (Hfuel E). lia.
  - apply Qle_bool_false in E. exists [].
    repeat (split; [by (constructor || discriminate || lra || done)|]).
    discriminate.
  - apply Qle_bool_iff in E. specialize (Hfuel E).
    destruct (IH (lng + s)) as (row & -> & Hall & Hsorted & Hhd & Hne & Hnil
                                      & Hlast).
    { lra. }
    { intros Hle. pose proof (floor_step lng hi s Hs Hle). lia. }
    exists ((lat, lng) :: row).
    split; [reflexivity|]. split; [|split; [|split; [|split; [|split]]]].
    + constructor; [cbn; split; [reflexivity|lra]|].
      eapply Forall_impl; [exact Hall|]. cbn. intros p [? ?]. split; [done|lra].
    + constructor; [exact Hsorted|]. destruct row as [|q row]; constructor.
      cbn [fst snd]. rewrite (Hhd q eq_refl).
      split; [reflexivity|]. split; [|reflexivity].
      apply Qnot_lt_le. intros Hlt. by specialize (Hnil Hlt).
    + intros y [= <-]. reflexivity.
    + discriminate.
    + lra.
    + destruct row as [|q row].
      * intros x [= <-]. cbn [fst snd]. split; [reflexivity|].
        apply Qnot_le_lt. intros Hle. by apply Hne.
      * exact Hlast.
  - apply Qle_bool_false in E. exists [].
    repeat (split; [by (constructor || discriminate || lra || done)|]).
    discriminate.
Qed.

Section Grid.

Variable cos_deg : Q -> Q.
Variable b : bbox.
Variable step_m : Q.

(** The cosine is not negative at the latitudes of the box, as is the case
    between 90 degrees south and 90 degrees north. *)
Hypothesis cos_nonneg :
  forall lat, lat_min b <= lat <= lat_max b -> 0 <= cos_deg lat.
Hypothesis step_pos : 0 < step_m.

Lemma lat_step_pos : 0 < meters_to_lat step_m.
Proof. unfold meters_to_lat. apply Qlt_shift_div_l; lra. Qed.

(** The guard of the division: the divisor is at least [1e-9]. *)
Lemma lng_divisor_pos lat :
  lat_min b <= lat <= lat_max b -> 0 < 111320 * cos_deg lat + 1e-9.
Proof.
  intros H. assert (0 <= cos_deg lat) by (by apply cos_nonneg).
  assert (0 < 1e-9) as Heps by reflexivity.
  revert Heps. generalize 1e-9 as eps. intros eps Heps. lra.
Qed.

Lemma lng_step_pos lat :
  lat_min b <= lat <= lat_max b -> 0 < meters_to_lng cos_deg step_m lat.
Proof.
  intros H. unfold meters_to_lng.
  apply Qlt_shift_div_l; [by apply lng_divisor_pos|]. lra.
Qed.

(** The outer loop with enough fuel: from the row of latitude [lat] on. *)
Lemma lat_loop_spec :
  forall fuel lat,
    lat_min b <= lat ->
    (lat <= lat_max b ->
     (Z.to_nat (Qfloor ((lat_max b - lat) / meters_to_lat step_m))
      < fuel)%nat) ->
    exists pts,
      lat_loop cos_deg fuel b step_m lat = Some pts /\
      Forall (in_bbox b) pts /\
      Sorted (grid_next cos_deg b step_m) pts /\
      (forall y, head pts = Some y -> y = (lat, lng_min b)) /\
      (lat <= lat_max b -> lng_min b <= lng_max b -> pts <> []) /\
      (lng_max b < lng_min b -> pts = []).
Proof.
  pose proof lat_step_pos as Hstep.
  induction fuel as [|fuel IH]; intros lat Hlo Hfuel;
    cbn [lat_loop]; destruct (Qle_bool lat (lat_max b)) eqn:E.
  - apply Qle_bool_iff in E. specialize (Hfuel E). lia.
  - apply Qle_bool_false in E. exists [].
    repeat (split; [by (constructor || discriminate || lra || done)|]).
    done.
  - apply Qle_bool_iff in E. specialize (Hfuel E).
    assert (0 < meters_to_lng cos_deg step_m lat) as Hlng
      by (apply lng_step_pos; lra).
    destruct (lng_loop_spec lat (lng_min b) (lng_max b)
                (meters_to_lng cos_deg step_m lat) Hlng
                (span_fuel (lng_min b) (lng_max b)
                           (meters_to_lng cos_deg step_m lat))
                (lng_min b))
      as (row & -> & Rall & Rsorted & Rhd & Rne & Rnil & Rlast).
    { lra. }
    { intros _. unfold span_fuel. lia. }
    destruct (IH (lat + meters_to_lat step_m))
      as (rest & -> & Hall & Hsorted & Hhd & Hne & Hnil).
    { lra. }
    { intros Hle.
      pose proof (floor_step lat (lat_max b) (meters_to_lat step_m) Hstep Hle).
      lia. }
    exists (row ++ rest).
    split; [reflexivity|]. split; [|split; [|split; [|split]]].
    + apply Forall_app. split; [|exact Hall].
      eapply Forall_impl; [exact Rall|]. intros p [Hp ?].
      unfold in_bbox. rewrite Hp. split; [lra|done].
    + apply Sorted_app_link; [|exact Hsorted|].
      * eapply Sorted_mono; [|exact Rsorted].
        intros p q (Hp & Hle & ->). left. rewrite Hp. split; [exact Hle|].
        by rewrite <- Hp.
      * intros x y Hx Hy. destruct (Rlast x Hx) as [Hfx Hlt].
        right. rewrite Hfx. split; [exact Hlt|]. by apply Hhd.
    + intros y Hy. destruct row as [|p row].
      * destruct (Qlt_le_dec (lng_max b) (lng_min b)) as [Hlt|Hle].
        -- rewrite (Hnil Hlt) in Hy. discriminate.
        -- by destruct (Rne Hle).
      * apply Rhd. exact Hy.
    + intros _ Hle Happ. apply app_eq_nil in Happ as [-> _]. by apply Rne.
    + intros Hlt. by rewrite (Rnil Hlt), (Hnil Hlt).
  - apply Qle_bool_false in E. exists [].
    repeat (split; [by (constructor || discriminate || lra || done)|]).
    done.
Qed.

Lemma lat_loop'_eq : forall fuel lat,
  lat_loop' cos_deg fuel b step_m (meters_to_lat step_m) lat =
  lat_loop cos_deg fuel b step_m lat.
Proof.
  induction fuel as [|fuel IH]; intros lat; cbn [lat_loop' lat_loop];
    [reflexivity|].
  by rewrite IH.
Qed.

End Grid.


Lemma cos_parabola_nonneg lat : -90 <= lat <= 90 -> 0 <= cos_parabola lat.
Proof.
  intros [H1 H2]. unfold cos_parabola.
  assert (lat / 90 == lat * (1 # 90)) as -> by (field; lra).
  nra.
Qed.

(** The box (0, 0)-(0.01, 0.01) with a step of 500 m. *)
Definition small_box : bbox :=
  {| lat_min := 0; lat_max := 0.01; lng_min := 0; lng_max := 0.01 |}.


Example grid_points_small_box :
  option_map (@length _) (grid_points cos_parabola small_box 500) = Some 9%nat.
Proof. vm_compute. reflexivity. Qed.

End GeoFacts.

(** ** The store *)

Module StoreFacts.
Import Py Store.

(** All the statements of a batch, applied in order. *)
Definition apply_all (rows : list row) (t : table) : table :=
  fold_left (fun t r => upsert r t) rows t.

(** The statement at position [i] of a batch is refused. *)
Definition refused (rejects : nat -> row -> bool) (violates : row -> bool)
    (n : nat) (rows : list row) : Prop :=
  exists i r, rows !! i = Some r /\ (rejects (n + i) r || violates r) = true.

Lemma run_statements_spec rejects violates rows : forall t n,
  match run_statements rejects violates rows t n with
  | (Ok _, t', n') =>
      t' = apply_all rows t /\ n' = n + length rows /\
      ~ refused rejects violates n rows
  | (Raise _, _, _) => refused rejects violates n rows
  end.
Proof.
  induction rows as [|r rows IH]; intros t n; cbn [run_statements].
  - split; [reflexivity|]. split; [cbn; lia|].
    intros (i & r & Hi & _). by rewrite lookup_nil in Hi.
  - destruct (rejects n r || violates r) eqn:E.
    + exists 0, r. rewrite Nat.add_0_r. by split.
    + specialize (IH (upsert r t) (S n)).
      destruct (run_statements rejects violates rows (upsert r t) (S n))
        as [[[[]|e] t'] n'].
      * destruct IH as (-> & -> & Hno). split; [reflexivity|].
        split; [cbn; lia|]. intros (i & r' & Hi & Hrej).
        destruct i as [|i]; cbn in Hi.
        { injection Hi as <-. rewrite Nat.add_0_r in Hrej. congruence. }
        apply Hno. exists i, r'. split; [exact Hi|].
        by replace (S n + i) with (n + S i) by lia.
      * destruct IH as (i & r' & Hi & Hrej). exists (S i), r'.
        split; [exact Hi|]. by replace (n + S i) with (S n + i) by lia.
Qed.

(** *** Upserting a record again *)

Lemma conflicts_do_update k new old :
  conflicts k (do_update new old) = conflicts k old.
Proof. reflexivity. Qed.

Lemma conflicts_descriptive new1 new2 r :
  descriptive new1 = descriptive new2 -> conflicts new2 r = conflicts new1 r.
Proof.
  intros H. unfold conflicts.
  assert (city new1 = city new2) as -> by exact (f_equal city H).
  assert (place_id new1 = place_id new2) as -> by exact (f_equal place_id H).
  reflexivity.
Qed.

Lemma existsb_conflicts_descriptive new1 new2 (t : table) :
  descriptive new1 = descriptive new2 ->
  existsb (conflicts new2) t = existsb (conflicts new1) t.
Proof.
  intros H. induction t as [|r t IH]; [reflexivity|].
  cbn. by rewrite IH, (conflicts_descriptive new1 new2 r H).
Qed.

Lemma conflicts_refl new : place_id new <> None -> conflicts new new = true.
Proof.
  intros H. unfold conflicts. destruct (place_id new); [|done].
  by rewrite !bool_decide_eq_true_2.
Qed.

(** After [upsert new t] some row conflicts with [new], and every row that
    does holds the values and the timestamp of [new]. *)
Lemma upsert_holds new t :
  place_id new <> None ->
  existsb (conflicts new) (upsert new t) = true /\
  Forall (fun r => conflicts new r = true -> do_update new r = r)
         (upsert new t).
Proof.
  intros Hid. unfold upsert. destruct (existsb (conflicts new) t) eqn:E.
  - split.
    + apply existsb_exists in E as (r & Hin & Hr). apply existsb_exists.
      exists (do_update new r). split; [|by rewrite conflicts_do_update].
      apply in_map_iff. exists r. by rewrite Hr.
    + apply Forall_forall. intros r' Hin.
      apply list_elem_of_fmap in Hin as (r & -> & _).
      destruct (conflicts new r) eqn:Er; [reflexivity|]. congruence.
  - split.
    + rewrite existsb_app. cbn. rewrite conflicts_refl by exact Hid.
      apply orb_true_iff. right. reflexivity.
    + apply Forall_app. split.
      * apply Forall_forall. intros r Hin Hr.
        assert (existsb (conflicts new) t = true); [|congruence].
        apply existsb_exists. exists r. split; [|exact Hr].
        by apply list_elem_of_In.
      * apply Forall_cons. split; [|constructor].
        intros _. by destruct new.
Qed.

(** Two tables with the same rows up to [fetched_at], which has not gone
    back. *)
Definition refreshed (s1 s2 : table) : Prop :=
  length s2 = length s1 /\
  map descriptive s2 = map descriptive s1 /\
  Forall2 (fun r1 r2 => fetched_at r1 <= fetched_at r2) s1 s2.

Lemma upsert_again new1 new2 t :
  place_id new1 <> None ->
  descriptive new1 = descriptive new2 ->
  fetched_at new1 <= fetched_at new2 ->
  refreshed (upsert new1 t) (upsert new2 (upsert new1 t)) /\
  Forall (fun r => conflicts new2 r = true -> fetched_at r = fetched_at new2)
         (upsert new2 (upsert new1 t)).
Proof.
  intros Hid Hd Hle.
  destruct (upsert_holds new1 t Hid) as [Hex Hall].
  generalize dependent (upsert new1 t). intros s1 Hex Hall.
  unfold upsert.
  rewrite (existsb_conflicts_descriptive new1 new2 s1 Hd).
  rewrite Hex. clear Hex.
  induction Hall as [|r s1 Hr Hall IH].
  - split; [|constructor]. repeat split. constructor.
  - destruct IH as [(IH1 & IH2 & IH3) IH4]. cbn [map].
    rewrite (conflicts_descriptive new1 new2 r Hd).
    destruct (conflicts new1 r) eqn:E.
    + specialize (Hr eq_refl).
      assert (descriptive (do_update new2 r) = descriptive r) as Hdr.
      { rewrite <- Hr at 2. unfold descriptive, do_update; cbn.
        pose proof (f_equal name Hd). pose proof (f_equal address Hd).
        pose proof (f_equal lat Hd). pose proof (f_equal lng Hd).
        pose proof (f_equal rating Hd).
        pose proof (f_equal user_ratings_total Hd).
        pose proof (f_equal price_level Hd).
        pose proof (f_equal business_status Hd).
        pose proof (f_equal types Hd). pose proof (f_equal raw_json Hd).
        cbn in *. congruence. }
      split; [split; [|split]|].
      * cbn. by rewrite IH1.
      * cbn [map]. by rewrite Hdr, IH2.
      * constructor; [|exact IH3]. cbn. rewrite <- Hr. cbn. exact Hle.
      * constructor; [|exact IH4]. reflexivity.
    + split; [split; [|split]|].
      * cbn. by rewrite IH1.
      * cbn [map]. by rewrite IH2.
      * constructor; [lia|exact IH3].
      * constructor; [|exact IH4].
        rewrite (conflicts_descriptive new1 new2 r Hd). congruence.
Qed.

Lemma executemany_one rejects violates r c res c' :
  executemany rejects violates [r] c = (res, c') ->
  match res with
  | Ok _ => current (commit c') = upsert r (current c)
  | Raise _ => True
  end.
Proof.
  unfold executemany. cbn [run_statements].
  destruct (rejects (total_changes c) r || violates r);
    intros [= <- <-]; [exact I | reflexivity].
Qed.

(** C7. Upserting the same record a second time, with the same field values,
    leaves the table as the first upsert left it: the same number of rows,
    the same keys and the same value in every column but [fetched_at], which
    is refreshed to the time of the second upsert in the record's row and
    goes back in no row. It holds of [insert_places] (plateau script) and of
    [upsert_restaurants] (text-search script), for a record that has a
    place id. *)
Theorem upsert_twice_same_state :
  forall (rejects : nat -> row -> bool) (t1 t2 : nat) (c : conn)
         (cty : string) (p : place),
    p_place_id p <> None -> t1 <= t2 ->
    (forall n1 c1 n2 c2,
       insert_places rejects t1 c cty [p] = (Ok n1, c1) ->
       insert_places rejects t2 c1 cty [p] = (Ok n2, c2) ->
       refreshed (committed c1) (committed c2) /\
       Forall (fun r => conflicts (row_of_place t2 cty p) r = true ->
                        fetched_at r = t2) (committed c2) /\
       existsb (conflicts (row_of_place t2 cty p)) (committed c2) = true) /\
    (forall u1 c1 u2 c2,
       upsert_restaurants rejects t1 c cty [p] = (Ok u1, c1) ->
       upsert_restaurants rejects t2 c1 cty [p] = (Ok u2, c2) ->
       refreshed (committed c1) (committed c2) /\
       Forall (fun r => conflicts (row_of_place_text t2 cty p) r = true ->
                        fetched_at r = t2) (committed c2) /\
       existsb (conflicts (row_of_place_text t2 cty p)) (committed c2) = true).
Proof.
  intros rejects t1 t2 c cty p Hid Hle.
  assert (twice : forall build : nat -> string -> place -> row,
    (forall t, place_id (build t cty p) = p_place_id p) ->
    (forall t, fetched_at (build t cty p) = t) ->
    (forall t t', descriptive (build t cty p) = descriptive (build t' cty p)) ->
    forall s1 s2 s,
      s1 = upsert (build t1 cty p) s -> s2 = upsert (build t2 cty p) s1 ->
      refreshed s1 s2 /\
      Forall (fun r => conflicts (build t2 cty p) r = true ->
                       fetched_at r = t2) s2 /\
      existsb (conflicts (build t2 cty p)) s2 = true).
  { intros build Hpid Hat Hdesc s1 s2 s -> ->.
    destruct (upsert_again (build t1 cty p) (build t2 cty p) s) as [Hr Hf].
    - by rewrite Hpid.
    - apply Hdesc.
    - by rewrite !Hat.
    - split; [exact Hr|]. split.
      + rewrite Hat in Hf. exact Hf.
      + apply upsert_holds. by rewrite Hpid. }
  split.
  - intros n1 c1 n2 c2 H1 H2. unfold insert_places in H1, H2.
    cbn [map] in H1, H2.
    destruct (executemany rejects no_constraint [row_of_place t1 cty p] c)
      as [[[]|e1] d1] eqn:E1; [|discriminate].
    injection H1 as <- <-.
    destruct (executemany rejects no_constraint [row_of_place t2 cty p]
                (commit d1)) as [[[]|e2] d2] eqn:E2; [|discriminate].
    injection H2 as <- <-.
    apply executemany_one in E1, E2.
    apply (twice row_of_place) with (s := current c); try done.
  - intros u1 c1 u2 c2 H1 H2. unfold upsert_restaurants in H1, H2.
    cbn [map] in H1, H2.
    destruct (executemany rejects not_null_place_id
                [row_of_place_text t1 cty p] c)
      as [[[]|e1] d1] eqn:E1; [|discriminate].
    injection H1 as <- <-.
    destruct (executemany rejects not_null_place_id
                [row_of_place_text t2 cty p] (commit d1))
      as [[[]|e2] d2] eqn:E2; [|discriminate].
    injection H2 as <- <-.
    apply executemany_one in E1, E2.
    apply (twice row_of_place_text) with (s := current c); try done.
Qed.

(** Sample data. *)
Definition empty_conn : conn :=
  {| committed := []; pending := None; total_changes := 0 |}.

Definition accepts_all : nat -> row -> bool := fun _ _ => false.

Definition mk_place (id : option string) (nm : string) : place :=
  {| p_place_id := id; p_name := Some nm; p_vicinity := Some "1 Main St";
     p_formatted_address := None; p_lat := Some (3766 # 100)%Q;
     p_lng := Some (-12250 # 100)%Q; p_rating := Some (45 # 10)%Q;
     p_user_ratings_total := Some 120%Z; p_price_level := Some 2%Z;
     p_business_status := Some "OPERATIONAL";
     p_types := Some ["restaurant"; "food"] |}.

Definition cafe : place := mk_place (Some "ChIJcafe") "Cafe".
Definition diner : place := mk_place (Some "ChIJdiner") "Diner".

Lemma upsert_twice_same_state_witness :
  refreshed [row_of_place 10 "San Francisco" cafe]
            [row_of_place 20 "San Francisco" cafe].
Proof.
  pose proof (upsert_twice_same_state accepts_all 10 20 empty_conn
                "San Francisco" cafe ltac:(discriminate) ltac:(lia))
    as [H _].
  exact (proj1 (H 1 (commit (snd (executemany accepts_all no_constraint
                       [row_of_place 10 "San Francisco" cafe] empty_conn)))
                 1 _ eq_refl eq_refl)).
Defined.

(** *** Batches *)



End StoreFacts.

(** ** Deduplication in the crawl loop *)

Module DedupFacts.
Import Py Store Effects Adapter Crawl.

(** The place ids of a batch that pass [if pid], in order. *)
Definition ids (batch : list place) : list string := omap pid_of batch.

Definition has_id (p : place) : bool := truthy (p_place_id p).

Lemma pid_of_has_id p : has_id p = true <-> is_Some (pid_of p).
Proof.
  unfold has_id, pid_of. destruct (truthy (p_place_id p)) eqn:E.
  - split; [|done]. intros _. destruct (p_place_id p); [by eexists|done].
  - split; [done|]. by intros [? [=]].
Qed.

Lemma pid_of_Some p x :
  pid_of p = Some x -> p_place_id p = Some x /\ x <> EmptyString.
Proof.
  unfold pid_of. destruct (p_place_id p) as [[|a s]|] eqn:E; cbn; try done.
  by intros [= <-].
Qed.

Lemma ids_cons p l :
  ids (p :: l) = match pid_of p with Some x => x :: ids l | None => ids l end.
Proof. reflexivity. Qed.

Lemma ids_app l1 l2 : ids (l1 ++ l2) = ids l1 ++ ids l2.
Proof. apply omap_app. Qed.

(** What the loop over a batch adds to [seen] and to [new_places]. *)
Lemma collect_spec results : forall seen new_places,
  exists added,
    collect results seen new_places =
      (seen ∪ list_to_set (ids results), new_places ++ added) /\
    added `sublist_of` results /\
    Forall (fun p => has_id p = true) added /\
    NoDup (ids added) /\
    list_to_set (ids added)
      = (list_to_set (ids results) : gset string) ∖ seen.
Proof.
  induction results as [|p rest IH]; intros seen new_places; cbn [collect].
  - exists []. rewrite app_nil_r. cbn.
    split; [f_equal; set_solver|].
    split; [constructor|]. split; [constructor|].
    split; [constructor|set_solver].
  - rewrite ids_cons. destruct (pid_of p) as [pid|] eqn:Ep.
    + case_bool_decide as Hin.
      * destruct (IH seen new_places) as (added & -> & Hs & Hf & Hn & He).
        exists added.
        split; [f_equal; cbn [list_to_set]; set_solver|].
        split; [by apply sublist_cons|].
        split; [done|]. split; [done|].
        rewrite He. cbn [list_to_set]. set_solver.
      * destruct (IH ({[pid]} ∪ seen) (new_places ++ [p]))
          as (added & -> & Hs & Hf & Hn & He).
        exists (p :: added).
        split; [f_equal; [cbn [list_to_set]; set_solver
                         |by rewrite <- app_assoc]|].
        split; [by apply sublist_skip|].
        split; [constructor; [|done]; apply pid_of_has_id; by rewrite Ep|].
        rewrite ids_cons, Ep.
        split.
        -- constructor; [|done]. intros Hx.
           assert (pid ∈ (list_to_set (ids added) : gset string))
             as Hx' by set_solver.
           rewrite He in Hx'. set_solver.
        -- cbn [list_to_set]. rewrite He. clear -Hin.
           apply set_eq. intros x.
           destruct (decide (x = pid)) as [->|]; set_solver.
    + destruct (IH seen new_places) as (added & -> & Hs & Hf & Hn & He).
      exists added. split; [done|]. split; [by apply sublist_cons|done].
Qed.

Lemma length_ids added :
  Forall (fun p => has_id p = true) added -> length (ids added) = length added.
Proof.
  induction 1 as [|p l Hp _ IH]; [reflexivity|].
  rewrite ids_cons. apply pid_of_has_id in Hp as [x ->].
  cbn [length]. by rewrite IH.
Qed.

(** [seen] after the batches [earlier], from the set [stored]. *)
Definition seen_after (stored : gset string) (earlier : list (list place))
  : gset string :=
  fold_left (fun s b => fst (collect b s [])) earlier stored.

(** The ids met in the batches [earlier]. *)
Definition ids_of_all (earlier : list (list place)) : gset string :=
  list_to_set (ids (concat earlier)).

Lemma seen_after_spec earlier : forall stored,
  seen_after stored earlier = stored ∪ ids_of_all earlier.
Proof.
  unfold seen_after, ids_of_all.
  induction earlier as [|b earlier IH]; intros stored; cbn.
  - set_solver.
  - destruct (collect_spec b stored []) as (added & -> & _). cbn [fst].
    rewrite IH, ids_app. set_solver.
Qed.

Lemma elem_of_load_existing_ids c cty x :
  x ∈ load_existing_ids c cty <->
  exists r, r ∈ current c /\ city r = cty /\ place_id r = Some x.
Proof.
  unfold load_existing_ids. rewrite elem_of_list_to_set, list_elem_of_omap.
  split.
  - intros (r & Hr & Hx). exists r. case_bool_decide; [done|discriminate].
  - intros (r & Hr & Hc & Hx). exists r. split; [done|].
    by rewrite bool_decide_eq_true_2.
Qed.


(** *** Results without a place id *)

Lemma pid_of_None p : has_id p = false -> pid_of p = None.
Proof. unfold has_id, pid_of. by intros ->. Qed.

Lemma collect_filter results : forall seen new_places,
  collect results seen new_places =
  collect (List.filter has_id results) seen new_places.
Proof.
  induction results as [|p rest IH]; intros seen new_places; [reflexivity|].
  cbn [List.filter]. destruct (has_id p) eqn:E.
  - cbn [collect]. destruct (pid_of p); [|apply IH].
    case_bool_decide; apply IH.
  - cbn [collect]. rewrite (pid_of_None p E). apply IH.
Qed.

Lemma collect_1000_filter results : forall seen new_places,
  collect_1000 results seen new_places =
  collect_1000 (List.filter has_id results) seen new_places.
Proof.
  induction results as [|p rest IH]; intros seen new_places; [reflexivity|].
  cbn [List.filter]. destruct (has_id p) eqn:E.
  - cbn [collect_1000]. destruct (pid_of p); [|apply IH].
    case_bool_decide; [apply IH|].
    destruct (TARGET_PER_CITY <=? _); [reflexivity|apply IH].
  - cbn [collect_1000]. rewrite (pid_of_None p E). apply IH.
Qed.

(** An id is in [seen] after a batch only if it was before or is the
    non-empty place id of a result of the batch. *)
Definition added_ids_named (results : list place) (seen seen' : gset string)
  : Prop :=
  forall x, x ∈ seen' ->
    x ∈ seen \/
    (x <> EmptyString /\ exists p, p ∈ results /\ p_place_id p = Some x).

Lemma collect_1000_spec results : forall seen new_places,
  exists added,
    snd (collect_1000 results seen new_places) = new_places ++ added /\
    Forall (fun p => has_id p = true) added /\
    added_ids_named results seen (fst (collect_1000 results seen new_places)).
Proof.
  induction results as [|p rest IH]; intros seen new_places;
    cbn [collect_1000].
  - exists []. rewrite app_nil_r. split; [done|]. split; [constructor|].
    intros x Hx. by left.
  - assert (weaken : forall s s', added_ids_named rest s s' ->
                                  added_ids_named (p :: rest) s s').
    { intros s s' H x Hx. destruct (H x Hx) as [?|(? & q & ? & ?)];
        [by left|right]. split; [done|]. exists q. split; [|done].
      by apply list_elem_of_further. }
    destruct (pid_of p) as [pid|] eqn:Ep.
    + case_bool_decide as Hin.
      * destruct (IH seen new_places) as (added & H1 & H2 & H3).
        exists added. split; [done|]. split; [done|]. by apply weaken.
      * assert (Hp : has_id p = true) by (apply pid_of_has_id; by rewrite Ep).
        apply pid_of_Some in Ep as [Ep Hne].
        assert (named : forall s', added_ids_named rest ({[pid]} ∪ seen) s' ->
                                   added_ids_named (p :: rest) seen s').
        { intros s' H x Hx. destruct (H x Hx) as [Hx'|(? & q & ? & ?)].
          - apply elem_of_union in Hx' as [Hx'|Hx']; [|by left].
            apply elem_of_singleton in Hx' as ->. right. split; [done|].
            exists p. split; [apply list_elem_of_here|done].
          - right. split; [done|]. exists q. split; [|done].
            by apply list_elem_of_further. }
        destruct (TARGET_PER_CITY <=? size ({[pid]} ∪ seen)).
        -- exists [p]. split; [done|]. split; [by constructor|].
           apply named. intros x Hx. by left.
        -- destruct (IH ({[pid]} ∪ seen) (new_places ++ [p]))
             as (added & H1 & H2 & H3).
           exists (p :: added). split; [by rewrite H1, <- app_assoc|].
           split; [by constructor|]. by apply named.
    + destruct (IH seen new_places) as (added & H1 & H2 & H3).
      exists added. split; [done|]. split; [done|]. by apply weaken.
Qed.

(** C10. A result whose place id is missing or empty is dropped by the loop
    over a batch, in both grid scripts: the loop runs as on the batch without
    such results, so they add nothing to [seen], are not among the records
    written to the store and do not count in the number of new records fed
    to the plateau detector. Every record kept has a non-empty place id and
    every id added to [seen] is one. *)
Theorem results_without_id_dropped :
  forall (results : list place) (seen : gset string),
    let kept := List.filter has_id results in
    collect results seen [] = collect kept seen [] /\
    collect_1000 results seen [] = collect_1000 kept seen [] /\
    Forall (fun p => has_id p = true) (snd (collect results seen [])) /\
    Forall (fun p => has_id p = true) (snd (collect_1000 results seen [])) /\
    added_ids_named results seen (fst (collect results seen [])) /\
    added_ids_named results seen (fst (collect_1000 results seen [])).
Proof.
  intros results seen kept. subst kept.
  split; [apply collect_filter|]. split; [apply collect_1000_filter|].
  destruct (collect_spec results seen []) as (added & E & _ & Hf & _ & _).
  destruct (collect_1000_spec results seen []) as (added' & E' & Hf' & Hn').
  rewrite E, E'. cbn [fst snd app].
  split; [done|]. split; [done|]. split; [|done].
  intros x Hx. apply elem_of_union in Hx as [Hx|Hx]; [by left|right].
  apply elem_of_list_to_set, list_elem_of_omap in Hx as (p & Hp & Hx).
  apply pid_of_Some in Hx as [Hx Hne]. split; [done|]. by exists p.
Qed.

End DedupFacts.

(** ** The crawl loops *)

Module CrawlFacts.
Import Py Store Effects Adapter Crawl StoreFacts.
Local Open Scope crawl_scope.

Lemma bind_Ok_inv {A B} (m : M A) (k : A -> M B) st b st' :
  bind m k st = (Ok b, st') ->
  exists a st1, m st = (Ok a, st1) /\ k a st1 = (Ok b, st').
Proof.
  unfold bind. destruct (m st) as [[a|e] st1]; [|discriminate].
  intros H. by exists a, st1.
Qed.

(** *** Computations that leave [visited] alone *)

Definition keeps_visited {A} (m : M A) : Prop :=
  forall st, visited (snd (m st)) = visited st.

Lemma keeps_ret {A} (a : A) : keeps_visited (ret a).
Proof. intros st. reflexivity. Qed.

Lemma keeps_raise {A} e : keeps_visited (@raise A e).
Proof. intros st. reflexivity. Qed.

Lemma keeps_bind {A B} (m : M A) (k : A -> M B) :
  keeps_visited m -> (forall a, keeps_visited (k a)) ->
  keeps_visited (bind m k).
Proof.
  intros Hm Hk st. unfold bind. specialize (Hm st).
  destruct (m st) as [[a|e] st1]; cbn [snd] in *; [|exact Hm].
  by rewrite Hk.
Qed.

Lemma keeps_try_runtime {A} (m : M A) :
  keeps_visited m -> keeps_visited (try_runtime m).
Proof.
  intros Hm st. unfold try_runtime. specialize (Hm st).
  destruct (m st) as [[a|[]] st1]; exact Hm.
Qed.

Lemma keeps_sleep s : keeps_visited (sleep s).
Proof. intros st. reflexivity. Qed.

Lemma keeps_print e : keeps_visited (print e).
Proof. intros st. reflexivity. Qed.

Lemma keeps_uniform w : keeps_visited (uniform w).
Proof. intros st. reflexivity. Qed.

Lemma keeps_http_get w params : keeps_visited (http_get w params).
Proof. intros st. reflexivity. Qed.

Lemma keeps_now w : keeps_visited (now w).
Proof. intros st. reflexivity. Qed.

Lemma keeps_get_db : keeps_visited get_db.
Proof. intros st. reflexivity. Qed.

Lemma keeps_on_db {A} (f : conn -> result A * conn) : keeps_visited (on_db f).
Proof. intros st. unfold on_db. by destruct (f (db st)). Qed.

Create HintDb keeps.
#[local] Hint Resolve keeps_ret keeps_raise keeps_try_runtime keeps_sleep
  keeps_print keeps_uniform keeps_http_get keeps_now keeps_get_db
  keeps_on_db : keeps.

(** Splits a computation at its binds and case analyses. *)
Ltac keeps_step :=
  match goal with
  | |- keeps_visited (bind _ _) => apply keeps_bind; [|intros ?]
  | |- keeps_visited (if ?c then _ else _) => destruct c
  | |- keeps_visited (match ?x with _ => _ end) => destruct x
  | |- keeps_visited _ => solve [auto with keeps]
  end.

Lemma keeps_safe_get_from w params tries :
  forall i, keeps_visited (safe_get_from w tries i params).
Proof.
  induction tries as [|tries IH]; intros i; cbn [safe_get_from];
    repeat keeps_step; apply IH.
Qed.

Lemma keeps_requests_get w params : keeps_visited (requests_get w params).
Proof. unfold requests_get. repeat keeps_step. Qed.

#[local] Hint Resolve keeps_safe_get_from keeps_requests_get : keeps.

Lemma keeps_fetch_pages w lat lng pages :
  forall params tok acc,
    keeps_visited (fetch_pages w pages lat lng params tok acc).
Proof.
  induction pages as [|pages IH]; intros params tok acc;
    cbn [fetch_pages]; unfold safe_get; repeat keeps_step; apply IH.
Qed.

Lemma keeps_fetch_pages_1000 w pages :
  forall params tok acc,
    keeps_visited (fetch_pages_1000 w pages params tok acc).
Proof.
  induction pages as [|pages IH]; intros params tok acc;
    cbn [fetch_pages_1000]; repeat keeps_step; apply IH.
Qed.

Lemma keeps_write_new w cty new_places :
  keeps_visited (write_new w cty new_places).
Proof. unfold write_new. repeat keeps_step. Qed.

Lemma keeps_write_new_1000 w cty new_places :
  keeps_visited (write_new_1000 w cty new_places).
Proof. unfold write_new_1000. repeat keeps_step. Qed.

#[local] Hint Resolve keeps_fetch_pages keeps_fetch_pages_1000
  keeps_write_new keeps_write_new_1000 : keeps.

Lemma keeps_eq {A} (m : M A) st r st' :
  keeps_visited m -> m st = (r, st') -> visited st' = visited st.
Proof. intros Hm E. specialize (Hm st). by rewrite E in Hm. Qed.

(** *** How the grid loops end *)

Lemma city_loop_1000_ends w cty radius pts : forall seen st seen' st',
  city_loop_1000 w cty radius pts seen st = (Ok seen', st') ->
  exists vis,
    vis `prefix_of` pts /\ visited st' = visited st ++ vis /\
    (vis = pts \/ TARGET_PER_CITY <= size seen').
Proof.
  induction pts as [|[lat lng] pts IH]; intros seen st seen' st' H;
    cbn [city_loop_1000] in H.
  { injection H as <- <-. exists []. rewrite app_nil_r.
    split; [done|]. split; [done|]. by left. }
  destruct (TARGET_PER_CITY <=? size seen) eqn:E.
  { injection H as <- <-. exists []. rewrite app_nil_r.
    split; [apply prefix_nil|]. split; [done|].
    right. by apply Nat.leb_le. }
  apply bind_Ok_inv in H as ([] & st1 & Hv & H).
  injection Hv as <-.
  apply bind_Ok_inv in H as (r & st2 & Hf & H).
  apply keeps_eq in Hf; [|apply keeps_try_runtime, keeps_fetch_pages_1000].
  cbn [visited] in Hf.
  assert (forall s sta, visited sta = visited st ++ [(lat, lng)] ->
            city_loop_1000 w cty radius pts s sta = (Ok seen', st') ->
            exists vis, vis `prefix_of` (lat, lng) :: pts /\
              visited st' = visited st ++ vis /\
              (vis = (lat, lng) :: pts \/ TARGET_PER_CITY <= size seen'))
    as Hrec.
  { intros s sta Hsta Hloop. apply IH in Hloop as (vis & Hp & Hvis & Hend).
    exists ((lat, lng) :: vis). split; [by apply prefix_cons|].
    split; [by rewrite Hvis, Hsta, <- app_assoc|].
    destruct Hend as [->|Hend]; [by left|by right]. }
  destruct r as [results|].
  - destruct (collect_1000 results seen []) as [seen2 new_places].
    apply bind_Ok_inv in H as (? & st3 & Hw & H).
    apply keeps_eq in Hw; [|apply keeps_write_new_1000].
    apply bind_Ok_inv in H as (? & st4 & Hp & H).
    apply keeps_eq in Hp; [|repeat keeps_step].
    apply bind_Ok_inv in H as (? & st5 & Hs & H).
    apply keeps_eq in Hs; [|apply keeps_sleep].
    apply (Hrec seen2 st5); [congruence|exact H].
  - apply bind_Ok_inv in H as (? & st3 & Hp & H).
    apply keeps_eq in Hp; [|apply keeps_print].
    apply bind_Ok_inv in H as (? & st4 & Hs & H).
    apply keeps_eq in Hs; [|apply keeps_sleep].
    apply (Hrec seen st4); [congruence|exact H].
Qed.

Lemma city_loop_1000_target_reached w cty radius pts seen st :
  TARGET_PER_CITY <= size seen ->
  city_loop_1000 w cty radius pts seen st = (Ok seen, st).
Proof.
  intros H. apply Nat.leb_le in H.
  destruct pts as [|[lat lng] pts]; cbn [city_loop_1000]; [reflexivity|].
  by rewrite H.
Qed.

(** The loop of the plateau script ends when the points run out or when the
    detector breaks it. *)
Lemma city_loop_ends w cty radius pts : forall seen d st st',
  city_loop w cty radius pts seen d st = (Ok tt, st') ->
  visited st' = visited st ++ pts \/
  exists vis o,
    vis `prefix_of` pts /\ visited st' = visited st ++ vis /\
    out st' = o ++ [PlateauReached cty].
Proof.
  induction pts as [|[lat lng] pts IH]; intros seen d st st' H;
    cbn [city_loop] in H.
  { injection H as <-. left. by rewrite app_nil_r. }
  apply bind_Ok_inv in H as ([] & st1 & Hv & H).
  injection Hv as <-.
  apply bind_Ok_inv in H as (results & st2 & Hf & H).
  apply keeps_eq in Hf; [|apply keeps_fetch_pages].
  cbn [visited] in Hf.
  destruct (collect results seen []) as [seen2 new_places].
  apply bind_Ok_inv in H as (? & st3 & Hw & H).
  apply keeps_eq in Hw; [|apply keeps_write_new].
  destruct (Plateau.observe (length new_places) d) as [d' stop].
  apply bind_Ok_inv in H as (? & st4 & Hp & H).
  apply keeps_eq in Hp; [|apply keeps_print].
  destruct stop.
  - injection H as <-. right.
    exists [(lat, lng)], (out st4). split; [apply prefix_cons, prefix_nil|].
    split; [cbn [visited]; congruence|reflexivity].
  - apply bind_Ok_inv in H as (? & st5 & Hs & H).
    apply keeps_eq in Hs; [|apply keeps_sleep].
    assert (visited st5 = visited st ++ [(lat, lng)]) as Hst5 by congruence.
    apply IH in H as [H|(vis & o & Hpre & Hvis & Hout)].
    + left. by rewrite H, Hst5, <- app_assoc.
    + right. exists ((lat, lng) :: vis), o. split; [by apply prefix_cons|].
      split; [by rewrite Hvis, Hst5, <- app_assoc|exact Hout].
Qed.

(** *** The target of the 1000-per-city script *)

(** C9, as the code has it. In the 1000-per-city script the target count is
    a hard stop: the loop over the grid is left, before a point is fetched,
    as soon as [seen_place_ids] holds [TARGET_PER_CITY] ids, so a city whose
    loop ends normally has had all its points visited or has reached the
    target; the target also decides the warning printed after the loop. The
    loop of the plateau script has no target: it ends when the grid is
    exhausted or the detector signals a plateau. *)
Theorem target_is_hard_stop :
  forall (w : world) (cty : string) (radius : nat) (pts : list (Q * Q)),
    (forall st st',
       crawl_city_1000 w (cty, radius, pts) st = (Ok tt, st') ->
       exists seen' st1,
         city_loop_1000 w cty radius pts (load_existing_ids (db st) cty) st
           = (Ok seen', st1) /\
         (TARGET_PER_CITY <= size (load_existing_ids (db st) cty) ->
          st1 = st) /\
         (exists vis,
            vis `prefix_of` pts /\ visited st' = visited st ++ vis /\
            (vis = pts \/ TARGET_PER_CITY <= size seen')) /\
         out st' =
           out st1 ++
           FinalRows cty (count_city (db st1) cty) ::
           (if count_city (db st1) cty <? TARGET_PER_CITY
            then [TargetWarning cty (count_city (db st1) cty)] else [])) /\
    (forall seen d st st',
       city_loop w cty radius pts seen d st = (Ok tt, st') ->
       visited st' = visited st ++ pts \/
       exists vis o,
         vis `prefix_of` pts /\ visited st' = visited st ++ vis /\
         out st' = o ++ [PlateauReached cty]).
Proof.
  intros w cty radius pts. split; [|apply city_loop_ends].
  intros st st' H. unfold crawl_city_1000 in H.
  apply bind_Ok_inv in H as (c & st0 & Hc & H). injection Hc as <- <-.
  apply bind_Ok_inv in H as (seen' & st1 & Hloop & H).
  exists seen', st1. split; [exact Hloop|].
  apply bind_Ok_inv in H as (c & st2 & Hc & H). injection Hc as <- <-.
  apply bind_Ok_inv in H as ([] & st3 & Hp & H). injection Hp as <-.
  split; [|split].
  - intros Hfull.
    rewrite city_loop_1000_target_reached in Hloop by exact Hfull.
    by injection Hloop as _ <-.
  - destruct (city_loop_1000_ends _ _ _ _ _ _ _ _ Hloop)
      as (vis & Hpre & Hvis & Hend).
    exists vis. split; [exact Hpre|]. split; [|exact Hend].
    rewrite <- Hvis. destruct (_ <? TARGET_PER_CITY); by injection H as <-.
  - destruct (_ <? TARGET_PER_CITY); injection H as <-; cbn [out];
      [by rewrite <- app_assoc|reflexivity].
Qed.

(** A store that already holds 1000 places of San Francisco. *)
Definition full_conn : conn :=
  {| committed :=
       map (fun i : nat =>
              row_of_place 0 "San Francisco" (mk_place (Some (pretty i)) "x"))
           (seq 0 1000);
     pending := None;
     total_changes := 0 |}.

Definition start (c : conn) : state :=
  {| db := c; calls := 0; draws := 0; slept := []; out := [];
     visited := [] |}.

Definition one_page (results : list place) : response :=
  {| status := "OK"; results := results; next_page_token := None |}.

(** A provider that answers every request with one page of two places. *)
Definition steady_world : world :=
  {| api_key := Some "key";
     net := fun _ _ => Answer (one_page [cafe; diner]);
     jitter := fun _ => (1 # 2)%Q;
     clock := fun n => n;
     rejects := accepts_all |}.

Definition two_points : list city_cfg :=
  [("San Francisco", 1200, [(0, 0); (0, 1 # 100)]%Q)].

(** With the target reached the crawl of the city visits no grid point,
    though two are left and the provider has new places to give. *)
Lemma target_reached_halts_crawl :
  let run := main_1000 steady_world two_points (start full_conn) in
  fst run = Ok tt /\ visited (snd run) = [] /\ calls (snd run) = 0 /\
  out (snd run) = [FinalRows "San Francisco" 1000].
Proof. vm_compute. repeat split. Qed.

(** *** Runs that end normally *)

(** A computation that returns, and one that returns or raises
    [RuntimeError] only. *)
Definition total {A} (m : M A) : Prop :=
  forall st, exists a st', m st = (Ok a, st').

Definition benign {A} (m : M A) : Prop :=
  forall st, exists st',
    (exists a, m st = (Ok a, st')) \/ m st = (Raise RuntimeError, st').

Lemma total_ret {A} (a : A) : total (ret a).
Proof. intros st. by exists a, st. Qed.

Lemma total_bind {A B} (m : M A) (k : A -> M B) :
  total m -> (forall a, total (k a)) -> total (bind m k).
Proof.
  intros Hm Hk st. destruct (Hm st) as (a & st1 & E).
  destruct (Hk a st1) as (b & st2 & E'). exists b, st2.
  unfold bind. by rewrite E.
Qed.

Lemma total_sleep s : total (sleep s).
Proof. intros st. by eexists _, _. Qed.

Lemma total_print e : total (print e).
Proof. intros st. by eexists _, _. Qed.

Lemma total_visit p : total (visit p).
Proof. intros st. by eexists _, _. Qed.

Lemma total_now w : total (now w).
Proof. intros st. by eexists _, _. Qed.

Lemma total_get_db : total get_db.
Proof. intros st. by eexists _, _. Qed.

Lemma total_benign {A} (m : M A) : total m -> benign m.
Proof.
  intros Hm st. destruct (Hm st) as (a & st' & E). exists st'. left.
  by exists a.
Qed.

Lemma benign_raise {A} : benign (@raise A RuntimeError).
Proof. intros st. exists st. by right. Qed.

Lemma benign_bind {A B} (m : M A) (k : A -> M B) :
  benign m -> (forall a, benign (k a)) -> benign (bind m k).
Proof.
  intros Hm Hk st. unfold bind. destruct (Hm st) as (st1 & [[a E]|E]);
    rewrite E; [apply Hk|]. exists st1. by right.
Qed.

Lemma total_try_runtime {A} (m : M A) : benign m -> total (try_runtime m).
Proof.
  intros Hm st. unfold try_runtime.
  destruct (Hm st) as (st1 & [[a E]|E]); rewrite E; by eexists _, _.
Qed.

Create HintDb total.
#[local] Hint Resolve total_ret total_sleep total_print total_visit total_now
  total_get_db benign_raise : total.

Ltac total_step :=
  match goal with
  | |- total (bind _ _) => apply total_bind; [|intros ?]
  | |- benign (bind _ _) => apply benign_bind; [|intros ?]
  | |- total (try_runtime _) => apply total_try_runtime
  | |- total (if ?c then _ else _) => destruct c
  | |- benign (if ?c then _ else _) => destruct c
  | |- total _ => solve [auto with total]
  | |- benign _ => solve [auto with total]
  | |- benign _ => apply total_benign
  end.

Section Reliable.

Variable w : world.

(** The network answers every request and the storage engine refuses no
    statement. *)
Hypothesis answers : forall n params, exists r, net w n params = Answer r.
Hypothesis accepts : forall n r, rejects w n r = false.

Lemma total_safe_get params : total (safe_get w params).
Proof.
  intros st. unfold safe_get. cbn [safe_get_from]. unfold bind at 1.
  cbn [http_get]. destruct (answers (calls st) params) as [r ->].
  by eexists _, _.
Qed.

Lemma total_requests_get params : total (requests_get w params).
Proof.
  intros st. unfold requests_get. unfold bind at 1.
  cbn [http_get]. destruct (answers (calls st) params) as [r ->].
  by eexists _, _.
Qed.

#[local] Hint Resolve total_safe_get total_requests_get : total.

Lemma total_fetch_pages lat lng pages :
  forall params tok acc, total (fetch_pages w pages lat lng params tok acc).
Proof.
  induction pages as [|pages IH]; intros params tok acc;
    cbn [fetch_pages]; repeat total_step; try apply IH.
Qed.

Lemma benign_fetch_pages_1000 pages :
  forall params tok acc, benign (fetch_pages_1000 w pages params tok acc).
Proof.
  induction pages as [|pages IH]; intros params tok acc;
    cbn [fetch_pages_1000]; repeat total_step; auto with total; try apply IH.
Qed.

Lemma executemany_accepted violates rows c :
  Forall (fun r => violates r = false) rows ->
  exists c', executemany (rejects w) violates rows c = (Ok tt, c').
Proof.
  intros Hrows. unfold executemany.
  pose proof (run_statements_spec (rejects w) violates rows (current c)
                (total_changes c)) as Hrun.
  destruct (run_statements _ _ _ _ _) as [[[[]|e] t'] n']; [by eexists|].
  destruct Hrun as (i & r & Hi & Hrej). rewrite accepts in Hrej.
  rewrite Forall_forall in Hrows. rewrite Hrows in Hrej; [done|].
  by eapply list_elem_of_lookup_2.
Qed.

Lemma total_write_new cty new_places : total (write_new w cty new_places).
Proof.
  intros st. unfold write_new. destruct new_places as [|p l];
    [by eexists _, _|].
  unfold bind, now, on_db, insert_places.
  destruct (executemany_accepted no_constraint
              (map (row_of_place (clock w (calls st)) cty) (p :: l)) (db st))
    as [c' ->]; [by apply Forall_forall|].
  by eexists _, _.
Qed.

Lemma total_write_new_1000 cty new_places :
  Forall (fun p => DedupFacts.has_id p = true) new_places ->
  total (write_new_1000 w cty new_places).
Proof.
  intros Hid st. unfold write_new_1000. destruct new_places as [|p l];
    [by eexists _, _|].
  unfold bind, now, on_db, upsert_places.
  destruct (executemany_accepted not_null_place_id
              (map (row_of_place (clock w (calls st)) cty) (p :: l)) (db st))
    as [c' ->]; [|by eexists _, _].
  apply Forall_map. eapply Forall_impl; [exact Hid|].
  intros q Hq. unfold not_null_place_id. cbn.
  apply DedupFacts.pid_of_has_id in Hq as [x Hx].
  apply DedupFacts.pid_of_Some in Hx as [-> _]. reflexivity.
Qed.

#[local] Hint Resolve total_fetch_pages total_write_new : total.

Lemma total_city_loop cty radius pts :
  forall seen d, total (city_loop w cty radius pts seen d).
Proof.
  induction pts as [|[lat lng] pts IH]; intros seen d; cbn [city_loop];
    [apply total_ret|].
  apply total_bind; [apply total_visit|intros _].
  apply total_bind; [apply total_fetch_pages|intros results].
  destruct (collect results seen []) as [seen2 new_places].
  apply total_bind; [apply total_write_new|intros _].
  destruct (Plateau.observe (length new_places) d) as [d' stop].
  repeat total_step; try apply IH.
Qed.

Lemma total_city_loop_1000 cty radius pts :
  forall seen, total (city_loop_1000 w cty radius pts seen).
Proof.
  induction pts as [|[lat lng] pts IH]; intros seen; cbn [city_loop_1000];
    [apply total_ret|].
  destruct (TARGET_PER_CITY <=? size seen); [apply total_ret|].
  apply total_bind; [apply total_visit|intros _].
  apply total_bind;
    [apply total_try_runtime, benign_fetch_pages_1000|intros [results|]].
  - destruct (DedupFacts.collect_1000_spec results seen [])
      as (added & Hnew & Hid & _).
    destruct (collect_1000 results seen []) as [seen2 new_places].
    cbn [snd app] in Hnew. subst new_places.
    apply total_bind; [by apply total_write_new_1000|intros _].
    repeat total_step; try apply IH.
  - repeat total_step; try apply IH.
Qed.

Lemma total_for_cities body cities :
  (forall cfg, total (body cfg)) -> total (for_cities body cities).
Proof.
  intros Hbody. induction cities as [|cfg cities IH]; cbn [for_cities];
    [apply total_ret|].
  apply total_bind; [apply Hbody|intros _; exact IH].
Qed.

Lemma total_crawl_city cfg : total (crawl_city w cfg).
Proof.
  destruct cfg as [[cty radius] pts]. unfold crawl_city.
  repeat total_step; try apply total_city_loop.
Qed.

Lemma total_crawl_city_1000 cfg : total (crawl_city_1000 w cfg).
Proof.
  destruct cfg as [[cty radius] pts]. unfold crawl_city_1000.
  repeat total_step; try apply total_city_loop_1000.
Qed.

End Reliable.

(** *** A fatal answer of the provider *)

(** A status that is neither a success nor the transient [UNKNOWN_ERROR]:
    [REQUEST_DENIED], [OVER_QUERY_LIMIT], [INVALID_REQUEST], ... *)
Definition fatal_status (s : string) : Prop :=
  s <> "OK" /\ s <> "ZERO_RESULTS" /\ s <> "UNKNOWN_ERROR".

Lemma fetch_nearby_fatal w lat lng radius st r :
  net w (calls st) (Nearby lat lng radius KEYWORD) = Answer r ->
  fatal_status (status r) ->
  fetch_nearby w lat lng radius KEYWORD st =
  (Ok [], exec (http_get w (Nearby lat lng radius KEYWORD) ;;
                print (ProviderError (status r) lat lng)) st).
Proof.
  intros Hnet (H1 & H2 & H3). apply String.eqb_neq in H1, H2, H3.
  unfold fetch_nearby, fetch_pages, safe_get, safe_get_from, exec.
  unfold bind, http_get, ret, print. cbn [truthy page_params].
  rewrite Hnet, andb_false_r, H1, H2, H3. reflexivity.
Qed.

Lemma fetch_nearby_1000_fatal w lat lng radius st r :
  net w (calls st) (Nearby lat lng radius KEYWORD) = Answer r ->
  fatal_status (status r) ->
  fetch_nearby_1000 w lat lng radius KEYWORD 3 st =
  (Raise RuntimeError, exec (http_get w (Nearby lat lng radius KEYWORD)) st).
Proof.
  intros Hnet (H1 & H2 & H3). apply String.eqb_neq in H1, H2, H3.
  unfold fetch_nearby_1000, fetch_pages_1000, requests_get, exec.
  unfold bind, http_get, ret, raise. cbn [truthy page_params].
  rewrite Hnet, andb_false_r, H1, H2. reflexivity.
Qed.


(** The first request is denied, the later ones are answered. *)
Definition denied : response :=
  {| status := "REQUEST_DENIED"; results := []; next_page_token := None |}.

Definition denied_world : world :=
  {| api_key := Some "key";
     net := fun n _ =>
              match n with
              | O => Answer denied
              | S _ => Answer (one_page [cafe; diner])
              end;
     jitter := fun _ => (1 # 2)%Q;
     clock := fun n => n;
     rejects := accepts_all |}.



(** *** Network failures *)

Definition failed (o : net_outcome) : bool :=
  match o with Answer _ => false | _ => true end.

(** The state after [n] failed attempts of [safe_get], the first of them
    being iteration [i] of its loop. *)
Definition retried (w : world) (n i : nat) (st : state) : state :=
  {| db := db st; calls := calls st + n; draws := draws st + n;
     slept := slept st ++
              map (fun k => backoff (i + k) + jitter w (draws st + k))%Q
                  (seq 0 n);
     out := out st; visited := visited st |}.

Lemma retried_S w n i st :
  retried w n (S i)
    {| db := db st; calls := S (calls st); draws := S (draws st);
       slept := slept st ++ [(backoff i + jitter w (draws st))%Q];
       out := out st; visited := visited st |}
  = retried w (S n) i st.
Proof.
  unfold retried. cbn [db calls draws slept out visited].
  f_equal; [lia|lia|].
  rewrite <- app_assoc. f_equal. cbn [seq map app].
  rewrite !Nat.add_0_r. f_equal.
  rewrite <- seq_shift, map_map. apply map_ext. intros k.
  by rewrite !Nat.add_succ_r.
Qed.

Lemma retried_0 w i st : retried w 0 i st = st.
Proof.
  destruct st. unfold retried. cbn. by rewrite !Nat.add_0_r, app_nil_r.
Qed.

Lemma safe_get_from_exhausted w params tries : forall i st,
  (forall k, k < tries -> failed (net w (calls st + k) params) = true) ->
  safe_get_from w tries i params st =
  (Raise RuntimeError, retried w tries i st).
Proof.
  induction tries as [|tries IH]; intros i st Hfail; cbn [safe_get_from].
  { by rewrite retried_0. }
  pose proof (Hfail 0 ltac:(lia)) as H0. rewrite Nat.add_0_r in H0.
  unfold bind at 1. cbn [http_get].
  destruct (net w (calls st) params) eqn:E; [discriminate| |];
    (unfold bind at 1; cbn [uniform]; unfold bind at 1; cbn [sleep];
     cbn [db calls draws slept out visited];
     rewrite IH, retried_S; [reflexivity|];
     intros k Hk; cbn [calls];
     replace (S (calls st) + k) with (calls st + S k) by lia;
     apply Hfail; lia).
Qed.

Lemma safe_get_from_answer w params r n : forall tries i st,
  n < tries ->
  (forall k, k < n -> failed (net w (calls st + k) params) = true) ->
  net w (calls st + n) params = Answer r ->
  safe_get_from w tries i params st =
  (Ok r, exec (http_get w params) (retried w n i st)).
Proof.
  induction n as [|n IH]; intros tries i st Hlt Hfail Hans;
    (destruct tries as [|tries]; [lia|]); cbn [safe_get_from].
  { rewrite Nat.add_0_r in Hans. unfold bind at 1. cbn [http_get].
    rewrite Hans, retried_0. reflexivity. }
  pose proof (Hfail 0 ltac:(lia)) as H0. rewrite Nat.add_0_r in H0.
  unfold bind at 1. cbn [http_get].
  destruct (net w (calls st) params) eqn:E; [discriminate| |];
    (unfold bind at 1; cbn [uniform]; unfold bind at 1; cbn [sleep];
     cbn [db calls draws slept out visited];
     rewrite (IH tries), retried_S; [reflexivity|lia| |];
     [intros k Hk|]; cbn [calls];
     [replace (S (calls st) + k) with (calls st + S k) by lia;
      apply Hfail; lia
     |replace (S (calls st) + n) with (calls st + S n) by lia; exact Hans]).
Qed.

(** C2, as the code has it. [safe_get] tries a request six times. After
    the failure of attempt [i] (0 to 5) it sleeps [min(2 ** i, 30)] seconds
    plus a jitter: 1, 2, 4, 8, 16 and 30 seconds plus jitter. A request
    answered within the six attempts is returned. When the six attempts of a
    grid point's request fail, [safe_get] raises [RuntimeError]; neither
    [fetch_nearby] nor [main] catches it, so the run stops there, with the
    store and the output as they were: the remaining points and cities are
    not crawled. The 1000-per-city script does not retry: the first network
    failure of a point is an exception its loop does not catch. *)
Theorem network_failure_aborts_run :
  forall (w : world) (cty : string) (radius : nat) (lat lng : Q)
         (pts : list (Q * Q)) (rest : list city_cfg) (st : state),
    truthy (api_key w) = true ->
    (forall k, k < 6 ->
       failed (net w (calls st + k) (Nearby lat lng radius KEYWORD)) = true) ->
    safe_get w (Nearby lat lng radius KEYWORD) st =
      (Raise RuntimeError, retried w 6 0 st) /\
    slept (retried w 6 0 st) =
      slept st ++ [1 + jitter w (draws st + 0); 2 + jitter w (draws st + 1);
                   4 + jitter w (draws st + 2); 8 + jitter w (draws st + 3);
                   16 + jitter w (draws st + 4);
                   30 + jitter w (draws st + 5)]%Q /\
    (forall i, (backoff i <= 30)%Q) /\
    (forall seen d,
       city_loop w cty radius ((lat, lng) :: pts) seen d st =
       (Raise RuntimeError, retried w 6 0 (exec (visit (lat, lng)) st))) /\
    main w ((cty, radius, (lat, lng) :: pts) :: rest) st =
      (Raise RuntimeError, retried w 6 0 (exec (visit (lat, lng)) st)) /\
    db (retried w 6 0 (exec (visit (lat, lng)) st)) = db st /\
    out (retried w 6 0 (exec (visit (lat, lng)) st)) = out st /\
    visited (retried w 6 0 (exec (visit (lat, lng)) st)) =
      visited st ++ [(lat, lng)] /\
    (forall seen,
       size seen < TARGET_PER_CITY ->
       city_loop_1000 w cty radius ((lat, lng) :: pts) seen st =
       (Raise RequestException,
        exec (visit (lat, lng) ;;
              http_get w (Nearby lat lng radius KEYWORD)) st)) /\
    (forall n r params st0,
       n < 6 ->
       (forall k, k < n -> failed (net w (calls st0 + k) params) = true) ->
       net w (calls st0 + n) params = Answer r ->
       safe_get w params st0 =
       (Ok r, exec (http_get w params) (retried w n 0 st0))).
Proof.
  intros w cty radius lat lng pts rest st Hkey Hfail.
  assert (Hloop : forall seen d,
    city_loop w cty radius ((lat, lng) :: pts) seen d st =
    (Raise RuntimeError, retried w 6 0 (exec (visit (lat, lng)) st))).
  { intros seen d. cbn [city_loop]. unfold bind at 1. cbn [visit].
    unfold bind at 1. unfold fetch_nearby. cbn [fetch_pages].
    unfold bind at 1. cbn [truthy ret]. unfold bind at 1.
    cbn [page_params]. unfold safe_get.
    rewrite safe_get_from_exhausted by exact Hfail. reflexivity. }
  split; [by apply safe_get_from_exhausted|].
  split; [reflexivity|].
  split.
  { intros i. unfold backoff. change 30%Q with (inject_Z 30).
    rewrite <- Zle_Qle. lia. }
  split; [exact Hloop|].
  split; [|split; [reflexivity|split; [reflexivity|split; [reflexivity|]]]].
  - unfold main. rewrite Hkey. cbn [for_cities crawl_city].
    unfold bind at 1. unfold bind at 1. cbn [get_db].
    unfold bind at 1. by rewrite Hloop.
  - split.
    + intros seen Hlt. apply Nat.leb_gt in Hlt.
      cbn [city_loop_1000]. rewrite Hlt.
      pose proof (Hfail 0 ltac:(lia)) as H0. rewrite Nat.add_0_r in H0.
      unfold bind at 1. cbn [visit]. unfold bind at 1.
      unfold try_runtime, fetch_nearby_1000. cbn [fetch_pages_1000].
      unfold bind at 1. cbn [truthy ret]. unfold bind at 1.
      cbn [page_params]. unfold requests_get, exec.
      unfold bind at 1. unfold bind at 3. cbn [visit snd].
      unfold bind at 2. cbn [http_get calls snd].
      unfold bind at 1. cbn [http_get calls].
      destruct (net w (calls st) (Nearby lat lng radius KEYWORD));
        [discriminate|reflexivity|reflexivity].
    + intros n r params st0 Hn Hf Ha. by apply safe_get_from_answer.
Qed.

(** A network that never answers. *)
Definition dead_world : world :=
  {| api_key := Some "key";
     net := fun _ _ => ReadTimeout;
     jitter := fun _ => (1 # 2)%Q;
     clock := fun n => n;
     rejects := accepts_all |}.

Lemma network_failure_aborts_run_witness :
  main dead_world two_points (start empty_conn) =
  (Raise RuntimeError,
   retried dead_world 6 0 (exec (visit (0, 0)%Q) (start empty_conn))).
Proof.
  exact (proj1 (proj2 (proj2 (proj2 (proj2
    (network_failure_aborts_run dead_world "San Francisco" 1200 0%Q 0%Q
       [(0, 1 # 100)%Q] [] (start empty_conn) eq_refl
       (fun k _ => eq_refl))))))).
Defined.

(** A network that fails six times and answers from then on. *)
Definition flaky_world : world :=
  {| api_key := Some "key";
     net := fun n _ =>
              if n <? 6 then ConnectionError
              else Answer (one_page [cafe; diner]);
     jitter := fun _ => (1 # 2)%Q;
     clock := fun n => n;
     rejects := accepts_all |}.

(** The run in which the six attempts of the first grid point fail stops
    there with an exception, in the plateau script: the second point is
    never fetched and nothing is stored, though the network would have
    answered. The 1000-per-city script stops at the first failure. *)
Lemma network_failure_stops_crawl :
  let run := main flaky_world two_points (start empty_conn) in
  fst run = Raise RuntimeError /\
  visited (snd run) = [(0, 0)%Q] /\
  calls (snd run) = 6 /\
  net flaky_world 6 (Nearby 0 (1 # 100) 1200 KEYWORD)
    = Answer (one_page [cafe; diner]) /\
  slept (snd run) = [1 + (1 # 2); 2 + (1 # 2); 4 + (1 # 2); 8 + (1 # 2);
                     16 + (1 # 2); 30 + (1 # 2)]%Q /\
  committed (db (snd run)) = [] /\
  out (snd run) = [] /\
  main_1000 flaky_world two_points (start empty_conn) =
    (Raise RequestException,
     exec (visit (0, 0)%Q ;; http_get flaky_world (Nearby 0 0 1200 KEYWORD))
          (start empty_conn)).
Proof. cbv zeta. repeat split. Qed.

End CrawlFacts.

(** * Further properties *)

(** ** The table under upserts *)

Module TableFacts.
Import Py Store StoreFacts.

(** The primary key of a row. *)
Definition row_key (r : row) : string * option string :=
  (city r, place_id r).

(** No two rows of the table conflict: the key (city, place_id) is unique
    among the rows that have a place id. *)
Definition unique_keys (t : table) : Prop :=
  forall i j r r',
    t !! i = Some r -> t !! j = Some r' -> conflicts r r' = true -> i = j.

Lemma conflicts_iff new old :
  conflicts new old = true <->
  city old = city new /\ exists x, place_id new = Some x /\ place_id old = Some x.
Proof.
  unfold conflicts. rewrite andb_true_iff, bool_decide_eq_true.
  destruct (place_id new) as [a|], (place_id old) as [b|];
    try rewrite bool_decide_eq_true; split;
    try (intros [? ?]; done).
  - intros [? ->]. split; [done|]. by exists b.
  - intros [? (x & [= ->] & [= ->])]. done.
  - intros [? (x & ? & ?)]. done.
  - intros [? (x & ? & ?)]. done.
  - intros [? (x & ? & ?)]. done.
Qed.

Lemma conflicts_sym a b : conflicts a b = conflicts b a.
Proof.
  apply eq_true_iff_eq. rewrite !conflicts_iff. split;
    intros [-> (x & ? & ?)]; (split; [done|]); by exists x.
Qed.

Lemma conflicts_row_key a b b' :
  row_key b = row_key b' -> conflicts a b = conflicts a b'.
Proof. unfold conflicts. by intros [= -> ->]. Qed.

Lemma conflicts_row_key_l a a' b :
  row_key a = row_key a' -> conflicts a b = conflicts a' b.
Proof. unfold conflicts. by intros [= -> ->]. Qed.

(** An upsert changes no key: it rewrites rows in place or adds one row. *)
Lemma upsert_keys new t :
  map row_key (upsert new t) =
  if existsb (conflicts new) t then map row_key t
  else map row_key t ++ [row_key new].
Proof.
  unfold upsert. destruct (existsb (conflicts new) t).
  - rewrite map_map. apply map_ext. intros old.
    by destruct (conflicts new old).
  - by rewrite map_app.
Qed.

Lemma existsb_conflicts_false new (t : table) :
  existsb (conflicts new) t = false ->
  forall r, r ∈ t -> conflicts new r = false.
Proof.
  intros E r Hr. destruct (conflicts new r) eqn:Er; [|done].
  assert (existsb (conflicts new) t = true); [|congruence].
  apply existsb_exists. exists r. split; [|done]. by apply list_elem_of_In.
Qed.

Lemma lookup_map_row_key (t : table) i :
  map row_key t !! i = row_key <$> (t !! i).
Proof. apply (list_lookup_fmap row_key t i). Qed.

Lemma lookup_same_keys (t t' : table) i r :
  map row_key t' = map row_key t -> t' !! i = Some r ->
  exists q, t !! i = Some q /\ row_key q = row_key r.
Proof.
  intros Hk Hi.
  assert (map row_key t !! i = Some (row_key r)) as H.
  { rewrite <- Hk, lookup_map_row_key. by rewrite Hi. }
  rewrite lookup_map_row_key in H. destruct (t !! i) as [q|]; [|done].
  exists q. split; [done|]. cbn in H. congruence.
Qed.

Lemma unique_keys_by_key t t' :
  map row_key t' = map row_key t -> unique_keys t -> unique_keys t'.
Proof.
  intros Hk Hu i j r r' Hi Hj Hc.
  destruct (lookup_same_keys t t' i r Hk Hi) as (q & Hq & Eq).
  destruct (lookup_same_keys t t' j r' Hk Hj) as (q' & Hq' & Eq').
  apply (Hu i j q q' Hq Hq').
  by rewrite (conflicts_row_key _ _ _ Eq'), (conflicts_row_key_l _ _ _ Eq).
Qed.

Lemma upsert_unique_keys new t : unique_keys t -> unique_keys (upsert new t).
Proof.
  intros Hu. pose proof (upsert_keys new t) as Hk.
  destruct (existsb (conflicts new) t) eqn:E.
  - by apply (unique_keys_by_key t).
  - unfold upsert. rewrite E. clear Hk.
    pose proof (existsb_conflicts_false new t E) as Hnone.
    intros i j r r' Hi Hj Hc. unfold table in *.
    destruct (decide (i < length t)) as [Hil|Hil],
             (decide (j < length t)) as [Hjl|Hjl].
    + rewrite lookup_app_l in Hi, Hj by done. by apply (Hu i j r r').
    + rewrite lookup_app_l in Hi by done.
      rewrite lookup_app_r in Hj by lia.
      apply list_lookup_singleton_Some in Hj as [_ <-].
      rewrite conflicts_sym, Hnone in Hc; [done|].
      by eapply list_elem_of_lookup_2.
    + rewrite lookup_app_l in Hj by done.
      rewrite lookup_app_r in Hi by lia.
      apply list_lookup_singleton_Some in Hi as [_ <-].
      rewrite Hnone in Hc; [done|]. by eapply list_elem_of_lookup_2.
    + rewrite lookup_app_r in Hi, Hj by lia.
      apply list_lookup_singleton_Some in Hi as [Hi _].
      apply list_lookup_singleton_Some in Hj as [Hj _]. lia.
Qed.

Lemma apply_all_unique_keys rows : forall t,
  unique_keys t -> unique_keys (apply_all rows t).
Proof.
  induction rows as [|r rows IH]; intros t Hu; [exact Hu|].
  apply IH. by apply upsert_unique_keys.
Qed.

(** The committed table after any of the three batch writers is the one
    before, or the one with the whole batch applied. *)
Lemma executemany_committed rejects violates rows c res c' :
  executemany rejects violates rows c = (res, c') ->
  committed c' = committed c /\
  match res with
  | Ok _ => current c' = apply_all rows (current c)
  | Raise _ => True
  end.
Proof.
  unfold executemany.
  pose proof (run_statements_spec rejects violates rows (current c)
                (total_changes c)) as Hrun.
  destruct (run_statements _ _ _ _ _) as [[[[]|e] t'] n'];
    intros [= <- <-]; (split; [reflexivity|]); [|exact I].
  by destruct Hrun as (-> & _).
Qed.

Lemma insert_places_committed rejects now c cty places res c' :
  pending c = None ->
  insert_places rejects now c cty places = (res, c') ->
  pending c' = None /\
  (committed c' = committed c \/
   committed c' = apply_all (map (row_of_place now cty) places) (committed c)).
Proof.
  intros Hp. unfold insert_places. destruct places as [|p ps].
  { intros [= <- <-]. split; [done|]. by left. }
  destruct (executemany _ _ _ _) as [[[]|e] c1] eqn:E;
    apply executemany_committed in E as [Ec Ea]; intros [= <- <-];
    (split; [reflexivity|]).
  - right. cbn. rewrite Ea. unfold current. by rewrite Hp.
  - left. exact Ec.
Qed.

Lemma upsert_places_committed rejects now c cty places res c' :
  pending c = None ->
  upsert_places rejects now c cty places = (res, c') ->
  committed c' = committed c \/
  committed c' = apply_all (map (row_of_place now cty) places) (committed c).
Proof.
  intros Hp. unfold upsert_places.
  destruct (executemany _ _ _ _) as [[[]|e] c1] eqn:E;
    apply executemany_committed in E as [Ec Ea]; intros [= <- <-].
  - right. cbn. rewrite Ea. unfold current. by rewrite Hp.
  - left. exact Ec.
Qed.

Lemma upsert_restaurants_committed rejects now c cty places res c' :
  pending c = None ->
  upsert_restaurants rejects now c cty places = (res, c') ->
  committed c' = committed c \/
  committed c' =
    apply_all (map (row_of_place_text now cty) places) (committed c).
Proof.
  intros Hp. unfold upsert_restaurants.
  destruct (executemany _ _ _ _) as [[[]|e] c1] eqn:E;
    apply executemany_committed in E as [Ec Ea]; intros [= <- <-].
  - right. cbn. rewrite Ea. unfold current. by rewrite Hp.
  - left. exact Ec.
Qed.

(** X1. The primary key stays unique: if no two committed rows share a key
    (city, place_id), none do after [insert_places], [upsert_places] or
    [upsert_restaurants], whether the batch was written or refused. *)
Theorem writers_keep_keys_unique :
  forall (rejects : nat -> row -> bool) (now : nat) (c : conn)
         (cty : string) (places : list place),
    pending c = None ->
    unique_keys (committed c) ->
    unique_keys (committed (snd (insert_places rejects now c cty places))) /\
    unique_keys (committed (snd (upsert_places rejects now c cty places))) /\
    unique_keys
      (committed (snd (upsert_restaurants rejects now c cty places))).
Proof.
  intros rejects now c cty places Hp Hu. split; [|split].
  - destruct (insert_places rejects now c cty places) as [res c'] eqn:E.
    cbn [snd]. apply insert_places_committed in E as [_ [->| ->]]; try done.
    by apply apply_all_unique_keys.
  - destruct (upsert_places rejects now c cty places) as [res c'] eqn:E.
    cbn [snd]. apply upsert_places_committed in E as [->| ->]; try done.
    by apply apply_all_unique_keys.
  - destruct (upsert_restaurants rejects now c cty places) as [res c'] eqn:E.
    cbn [snd]. apply upsert_restaurants_committed in E as [->| ->]; try done.
    by apply apply_all_unique_keys.
Qed.

Lemma unique_keys_nil : unique_keys [].
Proof. intros i j r r' Hi. by destruct i. Qed.

Lemma writers_keep_keys_unique_witness :
  unique_keys
    (committed (snd (insert_places accepts_all 10 empty_conn "San Francisco"
                                   [cafe; diner; cafe]))).
Proof.
  exact (proj1 (writers_keep_keys_unique accepts_all 10 empty_conn
                  "San Francisco" [cafe; diner; cafe] eq_refl
                  unique_keys_nil)).
Defined.

(** *** Rows of other cities, and rows never lost *)

Lemma upsert_other_city new t i r :
  city r <> city new ->
  (upsert new t !! i = Some r <-> t !! i = Some r).
Proof.
  intros Hc. unfold upsert, table in *.
  assert (conflicts new r = false) as Hnc.
  { destruct (conflicts new r) eqn:E; [|done].
    apply conflicts_iff in E as [E _]. done. }
  destruct (existsb (conflicts new) t).
  - change (map ?f t) with (f <$> t). rewrite list_lookup_fmap.
    destruct (t !! i) as [q|]; cbn; [|done].
    destruct (conflicts new q) eqn:Eq.
    + apply conflicts_iff in Eq as [Eq _]. split.
      * intros [= <-]. cbn in Hc. congruence.
      * intros [= ->]. congruence.
    + done.
  - destruct (decide (i < length t)) as [Hi|Hi].
    + by rewrite lookup_app_l.
    + rewrite lookup_app_r by lia. rewrite (lookup_ge_None_2 t i) by lia.
      split; [|done]. intros H.
      apply list_lookup_singleton_Some in H as [_ <-]. done.
Qed.

Lemma apply_all_other_city cty rows : forall t i r,
  Forall (fun new => city new = cty) rows ->
  city r <> cty ->
  (apply_all rows t !! i = Some r <-> t !! i = Some r).
Proof.
  induction rows as [|new rows IH]; intros t i r Hrows Hc; [done|].
  apply Forall_cons in Hrows as [Hnew Hrows]. cbn [apply_all fold_left].
  fold (apply_all rows (upsert new t)). rewrite IH by done.
  apply upsert_other_city. congruence.
Qed.

Lemma upsert_keys_prefix new t :
  map row_key t `prefix_of` map row_key (upsert new t).
Proof.
  rewrite upsert_keys. destruct (existsb _ _); [done|].
  by apply prefix_app_r.
Qed.

Lemma apply_all_keys_prefix rows : forall t,
  map row_key t `prefix_of` map row_key (apply_all rows t).
Proof.
  induction rows as [|new rows IH]; intros t; [done|].
  etrans; [apply (upsert_keys_prefix new)|apply IH].
Qed.

Lemma Forall_city_row_of_place now cty places :
  Forall (fun new => city new = cty) (map (row_of_place now cty) places).
Proof. apply Forall_map, Forall_forall. done. Qed.

(** X2. A write for one city never deletes, moves or rekeys a row, and
    leaves the rows of every other city exactly as they were: after
    [insert_places] (written or refused) the keys of the old rows are a
    prefix of the new keys, and a position holds a row of another city
    after the call exactly when it held that row before. *)
Theorem insert_places_keeps_other_rows :
  forall (rejects : nat -> row -> bool) (now : nat) (c : conn)
         (cty : string) (places : list place),
    pending c = None ->
    let c' := snd (insert_places rejects now c cty places) in
    map row_key (committed c) `prefix_of` map row_key (committed c') /\
    (forall i r, city r <> cty ->
       (committed c' !! i = Some r <-> committed c !! i = Some r)).
Proof.
  intros rejects now c cty places Hp c'. subst c'.
  destruct (insert_places rejects now c cty places) as [res c'] eqn:E.
  cbn [snd]. apply insert_places_committed in E as [_ [->| ->]]; try done.
  split; [apply apply_all_keys_prefix|].
  intros i r Hc. apply (apply_all_other_city cty); [|done].
  apply Forall_city_row_of_place.
Qed.

Lemma insert_places_keeps_other_rows_witness :
  let c := snd (insert_places accepts_all 5 empty_conn "Chicago" [diner]) in
  let c' := snd (insert_places accepts_all 10 c "San Francisco"
                               [cafe; diner]) in
  map row_key (committed c) `prefix_of` map row_key (committed c') /\
  (forall i r, city r <> "San Francisco" ->
     (committed c' !! i = Some r <-> committed c !! i = Some r)).
Proof.
  exact (insert_places_keeps_other_rows accepts_all 10
           (snd (insert_places accepts_all 5 empty_conn "Chicago" [diner]))
           "San Francisco" [cafe; diner] eq_refl).
Defined.

(** *** Reading back what was written *)

Lemma elem_of_load_existing_ids_key c cty x :
  x ∈ load_existing_ids c cty <-> (cty, Some x) ∈ map row_key (current c).
Proof.
  rewrite DedupFacts.elem_of_load_existing_ids.
  change (map row_key (current c)) with (row_key <$> current c).
  rewrite list_elem_of_fmap. split.
  - intros (r & Hr & <- & Hx). exists r. split; [|done].
    unfold row_key. by rewrite Hx.
  - intros (r & [= -> Hx] & Hr). by exists r.
Qed.

Lemma upsert_key_set new t k :
  k ∈ map row_key (upsert new t) <-> k ∈ map row_key t \/ k = row_key new.
Proof.
  rewrite upsert_keys. destruct (existsb (conflicts new) t) eqn:E.
  - split; [by left|]. intros [H| ->]; [done|].
    apply existsb_exists in E as (r & Hr & Hc).
    apply conflicts_iff in Hc as (Hcity & x & Hn & Ho).
    change (map row_key t) with (row_key <$> t).
    apply list_elem_of_fmap. exists r. split; [|by apply list_elem_of_In].
    unfold row_key. by rewrite Hcity, Hn, Ho.
  - rewrite elem_of_app, list_elem_of_singleton. done.
Qed.

Lemma apply_all_key_set rows : forall t k,
  k ∈ map row_key (apply_all rows t) <->
  k ∈ map row_key t \/ k ∈ map row_key rows.
Proof.
  induction rows as [|new rows IH]; intros t k.
  - cbn. rewrite elem_of_nil. tauto.
  - cbn [apply_all fold_left]. fold (apply_all rows (upsert new t)).
    rewrite IH, upsert_key_set. cbn [map]. rewrite elem_of_cons. tauto.
Qed.

(** X3. What [insert_places] wrote is what [load_existing_ids] reads back:
    after a batch is written for a city, the ids loaded for that city are
    those loaded before together with the place ids of the batch, and the
    ids loaded for any other city are unchanged. *)
Theorem load_after_insert_places :
  forall (rejects : nat -> row -> bool) (now : nat) (c : conn)
         (cty : string) (places : list place) (n : nat) (c' : conn),
    pending c = None ->
    insert_places rejects now c cty places = (Ok n, c') ->
    load_existing_ids c' cty =
      load_existing_ids c cty ∪ list_to_set (omap p_place_id places) /\
    (forall other, other <> cty ->
       load_existing_ids c' other = load_existing_ids c other).
Proof.
  intros rejects now c cty places n c' Hp E.
  assert (current c' =
          apply_all (map (row_of_place now cty) places) (current c)) as Hcur.
  { unfold insert_places in E. destruct places as [|p ps].
    { by injection E as _ <-. }
    destruct (executemany _ _ _ _) as [[[]|e] c1] eqn:E1; [|done].
    apply executemany_committed in E1 as [_ Ea]. by injection E as _ <-. }
  assert (forall k, k ∈ map row_key (map (row_of_place now cty) places) <->
            fst k = cty /\ snd k ∈ map p_place_id places) as Hkeys.
  { intros [k1 k2]. rewrite map_map.
    change (map ?f places) with (f <$> places).
    rewrite !list_elem_of_fmap. cbn. split.
    - intros (p & [= -> ->] & Hin). split; [done|]. by exists p.
    - intros [-> (p & -> & Hin)]. by exists p. }
  split.
  - apply set_eq. intros x.
    rewrite elem_of_union, !elem_of_load_existing_ids_key, Hcur.
    rewrite apply_all_key_set, Hkeys, elem_of_list_to_set. cbn.
    rewrite list_elem_of_omap.
    change (map p_place_id places) with (p_place_id <$> places).
    rewrite list_elem_of_fmap. split.
    + intros [?|[_ (p & ? & ?)]]; [by left|right]. by exists p.
    + intros [?|(p & ? & ?)]; [by left|right]. split; [done|]. by exists p.
  - intros other Hne. apply set_eq. intros x.
    rewrite !elem_of_load_existing_ids_key, Hcur.
    rewrite apply_all_key_set, Hkeys. cbn. split; [|by left].
    intros [?|[? _]]; done.
Qed.

Lemma load_after_insert_places_witness :
  load_existing_ids
    (snd (insert_places accepts_all 10 empty_conn "San Francisco"
                        [cafe; diner])) "San Francisco" =
  load_existing_ids empty_conn "San Francisco" ∪
  list_to_set (omap p_place_id [cafe; diner]).
Proof.
  exact (proj1 (load_after_insert_places accepts_all 10 empty_conn
                  "San Francisco" [cafe; diner] 2 _ eq_refl eq_refl)).
Defined.

(** *** Counting rows *)

Lemma unique_keys_cons r t :
  unique_keys (r :: t) ->
  unique_keys t /\ forall r', r' ∈ t -> conflicts r r' = false.
Proof.
  intros Hu. split.
  - intros i j q q' Hi Hj Hc.
    by injection (Hu (S i) (S j) q q' Hi Hj Hc).
  - intros r' Hin. apply list_elem_of_lookup in Hin as [j Hj].
    destruct (conflicts r r') eqn:E; [|done].
    by specialize (Hu 0 (S j) r r' eq_refl Hj E).
Qed.

(** The place id [load_existing_ids] takes from a row. *)
Definition id_in (cty : string) (r : row) : option string :=
  if bool_decide (city r = cty) then place_id r else None.

Lemma omap_id_in_cons cty r (t : list row) :
  omap (id_in cty) (r :: t) =
  match id_in cty r with
  | Some y => y :: omap (id_in cty) t
  | None => omap (id_in cty) t
  end.
Proof. reflexivity. Qed.

Lemma count_city_size (t : list row) cty :
  unique_keys t ->
  (forall r, r ∈ t -> city r = cty -> place_id r <> None) ->
  NoDup (omap (id_in cty) t) /\
  length (omap (id_in cty) t) = length (filter (fun r => city r = cty) t).
Proof.
  induction t as [|r t IH]; intros Hu Hid; [split; [constructor|done]|].
  apply unique_keys_cons in Hu as [Hu Hr].
  destruct IH as [IH1 IH2]; [done| |].
  { intros q Hq. apply Hid. by right. }
  rewrite filter_cons, omap_id_in_cons.
  destruct (decide (city r = cty)) as [Hc|Hc].
  - destruct (place_id r) as [x|] eqn:Ex.
    2:{ exfalso. apply (Hid r); [by left|done|done]. }
    assert (id_in cty r = Some x) as ->.
    { unfold id_in. by rewrite bool_decide_eq_true_2. }
    split; [|cbn [length]; by rewrite IH2].
    constructor; [|done]. intros Hin.
    apply list_elem_of_omap in Hin as (q & Hq & Hx).
    unfold id_in in Hx. case_bool_decide as Hcq; [|done].
    assert (conflicts r q = true) as Hcf.
    { apply conflicts_iff. split; [congruence|]. by exists x. }
    by rewrite Hr in Hcf.
  - assert (id_in cty r = None) as ->; [|done].
    unfold id_in. by rewrite bool_decide_eq_false_2.
Qed.

(** X4. In a store whose keys are unique and whose rows for a city all have
    a place id, [count_city] and [load_existing_ids] agree: the number of
    rows of the city is the number of ids loaded for it. *)
Theorem count_city_is_number_of_ids :
  forall (c : conn) (cty : string),
    unique_keys (current c) ->
    (forall r, r ∈ current c -> city r = cty -> place_id r <> None) ->
    count_city c cty = size (load_existing_ids c cty).
Proof.
  intros c cty Hu Hid. unfold count_city, load_existing_ids.
  destruct (count_city_size (current c) cty Hu Hid) as [Hnd Hlen].
  fold (id_in cty). rewrite size_list_to_set by done. by rewrite Hlen.
Qed.

Lemma count_city_is_number_of_ids_witness :
  let c := snd (insert_places accepts_all 10 empty_conn "San Francisco"
                              [cafe; diner; cafe]) in
  count_city c "San Francisco" = size (load_existing_ids c "San Francisco").
Proof.
  apply count_city_is_number_of_ids.
  - apply (apply_all_unique_keys
             (map (row_of_place 10 "San Francisco") [cafe; diner; cafe]) []).
    apply unique_keys_nil.
  - intros r Hr _. vm_compute in Hr.
    apply elem_of_cons in Hr as [->|Hr]; [done|].
    apply elem_of_cons in Hr as [->|Hr]; [done|].
    by apply elem_of_nil in Hr.
Defined.

(** *** Records without a place id *)

Lemma refused_not_null rejects n cty now (build : nat -> string -> place -> row)
    places p :
  (forall q, place_id (build now cty q) = p_place_id q) ->
  p ∈ places -> p_place_id p = None ->
  refused rejects not_null_place_id n (map (build now cty) places).
Proof.
  intros Hb Hin Hnone. apply list_elem_of_lookup in Hin as [i Hi].
  exists i, (build now cty p). split.
  - change (map ?f places) with (f <$> places).
    by rewrite list_lookup_fmap, Hi.
  - apply orb_true_iff. right. unfold not_null_place_id.
    by rewrite Hb, Hnone.
Qed.

(** X5. The tables of the 1000-per-city and text-search scripts declare
    [place_id TEXT NOT NULL]: a batch that holds a record without place id
    is refused as a whole by [upsert_places] and [upsert_restaurants],
    whatever the other records are, and nothing of it is committed. *)
Theorem batch_without_place_id_refused :
  forall (rejects : nat -> row -> bool) (now : nat) (c : conn)
         (cty : string) (places : list place) (p : place),
    p ∈ places -> p_place_id p = None ->
    (fst (upsert_places rejects now c cty places) = Raise DatabaseError /\
     committed (snd (upsert_places rejects now c cty places)) = committed c)
    /\
    (fst (upsert_restaurants rejects now c cty places) = Raise DatabaseError /\
     committed (snd (upsert_restaurants rejects now c cty places))
       = committed c).
Proof.
  intros rejects now c cty places p Hin Hnone. split.
  - unfold upsert_places, executemany.
    pose proof (run_statements_spec rejects not_null_place_id
                  (map (row_of_place now cty) places) (current c)
                  (total_changes c)) as Hrun.
    destruct (run_statements _ _ _ _ _) as [[[[]|[]] t'] n'] eqn:E;
      try (by split).
    + destruct Hrun as (_ & _ & Hno). exfalso. apply Hno.
      by apply (refused_not_null _ _ _ _ row_of_place _ p).
    + exfalso. clear Hrun. revert E.
      generalize (current c), (total_changes c).
      induction (map (row_of_place now cty) places) as [|r rows IH];
        intros t n; cbn [run_statements]; [done|].
      destruct (_ || _); [done|apply IH].
    + exfalso. clear Hrun. revert E.
      generalize (current c), (total_changes c).
      induction (map (row_of_place now cty) places) as [|r rows IH];
        intros t n; cbn [run_statements]; [done|].
      destruct (_ || _); [done|apply IH].
  - unfold upsert_restaurants, executemany.
    pose proof (run_statements_spec rejects not_null_place_id
                  (map (row_of_place_text now cty) places) (current c)
                  (total_changes c)) as Hrun.
    destruct (run_statements _ _ _ _ _) as [[[[]|[]] t'] n'] eqn:E;
      try (by split).
    + destruct Hrun as (_ & _ & Hno). exfalso. apply Hno.
      by apply (refused_not_null _ _ _ _ row_of_place_text _ p).
    + exfalso. clear Hrun. revert E.
      generalize (current c), (total_changes c).
      induction (map (row_of_place_text now cty) places) as [|r rows IH];
        intros t n; cbn [run_statements]; [done|].
      destruct (_ || _); [done|apply IH].
    + exfalso. clear Hrun. revert E.
      generalize (current c), (total_changes c).
      induction (map (row_of_place_text now cty) places) as [|r rows IH];
        intros t n; cbn [run_statements]; [done|].
      destruct (_ || _); [done|apply IH].
Qed.

Definition nameless : place := mk_place None "Stall".

Lemma batch_without_place_id_refused_witness :
  fst (upsert_restaurants accepts_all 10 empty_conn "Chicago"
                          [cafe; nameless; diner]) = Raise DatabaseError /\
  committed (snd (upsert_restaurants accepts_all 10 empty_conn "Chicago"
                                     [cafe; nameless; diner])) = [].
Proof.
  exact (proj2 (batch_without_place_id_refused accepts_all 10 empty_conn
                  "Chicago" [cafe; nameless; diner] nameless
                  ltac:(set_solver) eq_refl)).
Defined.

Lemma existsb_conflicts_null new (t : table) :
  place_id new = None -> existsb (conflicts new) t = false.
Proof.
  intros Hn. induction t as [|r t IH]; [done|]. cbn. rewrite IH.
  unfold conflicts. rewrite Hn. by rewrite andb_false_r.
Qed.



(** *** The same place twice in a batch *)

(** The table holds a row for the key of [new], and every such row is
    [new] itself. *)
Definition holds (new : row) (t : table) : Prop :=
  existsb (conflicts new) t = true /\
  Forall (fun r => conflicts new r = true -> r = new) t.

Lemma do_update_self new r :
  conflicts new r = true -> do_update new r = r -> r = new.
Proof.
  intros Hc Hd. apply conflicts_iff in Hc as (Hcity & x & Hn & Ho).
  rewrite <- Hd. unfold do_update. destruct new; cbn in *.
  by rewrite Hcity, Ho, Hn.
Qed.

Lemma upsert_makes_hold new t :
  place_id new <> None -> holds new (upsert new t).
Proof.
  intros Hid. destruct (upsert_holds new t Hid) as [Hex Hall].
  split; [exact Hex|]. eapply Forall_impl; [exact Hall|].
  intros r Hr Hc. apply do_update_self; [done|by apply Hr].
Qed.

Lemma conflicts_trans a b r :
  conflicts a r = true -> conflicts b r = true -> conflicts a b = true.
Proof.
  rewrite !conflicts_iff. intros (Ha & x & Hax & Hrx) (Hb & y & Hby & Hry).
  split; [congruence|]. exists x. split; [done|congruence].
Qed.

Lemma upsert_keeps_hold new other t :
  conflicts new other = false -> holds new t -> holds new (upsert other t).
Proof.
  intros Hno [Hex Hall]. unfold upsert.
  destruct (existsb (conflicts other) t) eqn:E.
  - assert (forall old, conflicts new old = true ->
              conflicts other old = false) as Hkeep.
    { intros old Hc. destruct (conflicts other old) eqn:Eo; [|done].
      by rewrite (conflicts_trans new other old) in Hno. }
    split.
    + apply existsb_exists in Hex as (r & Hin & Hr). apply existsb_exists.
      exists r. split; [|done]. apply in_map_iff. exists r.
      by rewrite (Hkeep r Hr).
    + apply Forall_forall. intros r' Hin.
      apply list_elem_of_fmap in Hin as (r & -> & Hin).
      destruct (conflicts other r) eqn:Eo.
      * rewrite conflicts_do_update. intros Hc.
        by rewrite (Hkeep r Hc) in Eo.
      * rewrite Forall_forall in Hall. by apply Hall.
  - split.
    + rewrite existsb_app, Hex. done.
    + apply Forall_app. split; [done|]. apply Forall_cons.
      split; [|constructor]. congruence.
Qed.

Lemma apply_all_keeps_hold new rows : forall t,
  Forall (fun other => conflicts new other = false) rows ->
  holds new t -> holds new (apply_all rows t).
Proof.
  induction rows as [|r rows IH]; intros t Hrows Ht; [done|].
  apply Forall_cons in Hrows as [Hr Hrows]. apply IH; [done|].
  by apply upsert_keeps_hold.
Qed.

Lemma apply_all_app rows1 rows2 t :
  apply_all (rows1 ++ rows2) t = apply_all rows2 (apply_all rows1 t).
Proof. apply fold_left_app. Qed.

Lemma insert_places_ok rejects now c cty places n c' :
  pending c = None ->
  insert_places rejects now c cty places = (Ok n, c') ->
  committed c' = apply_all (map (row_of_place now cty) places) (committed c).
Proof.
  intros Hp E. unfold insert_places in E. destruct places as [|p ps].
  { by injection E as _ <-. }
  destruct (executemany _ _ _ _) as [[[]|e] c1] eqn:E1; [|done].
  apply executemany_committed in E1 as [_ Ea]. injection E as _ <-.
  cbn. rewrite Ea. unfold current. by rewrite Hp.
Qed.

(** X7. When a batch holds several records for one place, the last one
    wins: after [insert_places] has written the batch, the store has a row
    for the place and it is the row built from the last record of the
    batch that has this place id. *)
Theorem insert_places_last_record_wins :
  forall (rejects : nat -> row -> bool) (now : nat) (c : conn)
         (cty : string) (ps1 ps2 : list place) (p : place) (x : string)
         (n : nat) (c' : conn),
    pending c = None ->
    p_place_id p = Some x ->
    Forall (fun q => p_place_id q <> Some x) ps2 ->
    insert_places rejects now c cty (ps1 ++ p :: ps2) = (Ok n, c') ->
    row_of_place now cty p ∈ committed c' /\
    (forall r, r ∈ committed c' -> city r = cty -> place_id r = Some x ->
               r = row_of_place now cty p).
Proof.
  intros rejects now c cty ps1 ps2 p x n c' Hp Hx Hps2 E.
  apply insert_places_ok in E; [|done]. rewrite E.
  rewrite map_app, apply_all_app. cbn [map apply_all fold_left].
  fold (apply_all (map (row_of_place now cty) ps2)).
  set (rp := row_of_place now cty p).
  assert (holds rp (apply_all (map (row_of_place now cty) ps2)
                      (upsert rp (apply_all (map (row_of_place now cty) ps1)
                                            (committed c)))))
    as [Hex Hall].
  { apply apply_all_keeps_hold.
    - apply Forall_map. eapply Forall_impl; [exact Hps2|].
      intros q Hq. destruct (conflicts rp _) eqn:Ec; [|done].
      apply conflicts_iff in Ec as (_ & y & Hy & Hqy). cbn in Hy, Hqy.
      congruence.
    - apply upsert_makes_hold. subst rp. cbn. by rewrite Hx. }
  rewrite Forall_forall in Hall. split.
  - apply existsb_exists in Hex as (r & Hin & Hr).
    apply list_elem_of_In in Hin. pose proof (Hall r Hin Hr) as Hrp.
    by rewrite Hrp in Hin.
  - intros r Hin Hc Hid. apply Hall; [done|].
    apply conflicts_iff. split; [done|]. exists x. by split.
Qed.

Lemma insert_places_last_record_wins_witness :
  let renamed := mk_place (Some "ChIJcafe") "Cafe Nuovo" in
  let c' := snd (insert_places accepts_all 10 empty_conn "San Francisco"
                               [cafe; diner; renamed]) in
  row_of_place 10 "San Francisco" renamed ∈ committed c' /\
  (forall r, r ∈ committed c' -> city r = "San Francisco" ->
             place_id r = Some "ChIJcafe" ->
             r = row_of_place 10 "San Francisco" renamed).
Proof.
  exact (insert_places_last_record_wins accepts_all 10 empty_conn
           "San Francisco" [cafe; diner] []
           (mk_place (Some "ChIJcafe") "Cafe Nuovo") "ChIJcafe" 3 _
           eq_refl eq_refl (Forall_nil_2 _) eq_refl).
Defined.

End TableFacts.

(** ** More on the batch loops *)

Module BatchFacts.
Import Py Store Effects Adapter Crawl StoreFacts DedupFacts.

Lemma collect_known batch : forall seen new_places,
  list_to_set (ids batch) ⊆ seen ->
  collect batch seen new_places = (seen, new_places).
Proof.
  induction batch as [|p rest IH]; intros seen new_places Hsub; [done|].
  cbn [collect]. rewrite ids_cons in Hsub.
  destruct (pid_of p) as [pid|].
  - cbn [list_to_set] in Hsub.
    rewrite bool_decide_eq_true_2 by set_solver. apply IH. set_solver.
  - by apply IH.
Qed.

(** X8. A batch that brings no unseen place id changes nothing: [seen]
    stays as it is and no record is new. In particular the batch just
    processed, fetched again, yields no new record. *)
Theorem collect_seen_batch_yields_nothing :
  forall (batch : list place) (seen : gset string),
    (list_to_set (ids batch) ⊆ seen -> collect batch seen [] = (seen, [])) /\
    collect batch (fst (collect batch seen [])) [] =
      (fst (collect batch seen []), []).
Proof.
  intros batch seen. split; [apply collect_known|].
  apply collect_known.
  destruct (collect_spec batch seen []) as (added & -> & _). cbn [fst].
  set_solver.
Qed.

(** *** The target inside the batch loop *)

Lemma collect_1000_cap results : forall seen new_places,
  size seen < TARGET_PER_CITY ->
  exists added,
    snd (collect_1000 results seen new_places) = new_places ++ added /\
    seen ⊆ fst (collect_1000 results seen new_places) /\
    size (fst (collect_1000 results seen new_places)) =
      size seen + length added /\
    size (fst (collect_1000 results seen new_places)) <= TARGET_PER_CITY.
Proof.
  induction results as [|p rest IH]; intros seen new_places Hlt;
    cbn [collect_1000].
  { exists []. rewrite app_nil_r. cbn. repeat split; [done|lia|lia]. }
  destruct (pid_of p) as [pid|]; [|by apply IH].
  case_bool_decide as Hin; [by apply IH|].
  assert (size ({[pid]} ∪ seen) = S (size seen)) as Hsize.
  { rewrite size_union by set_solver. by rewrite size_singleton. }
  destruct (TARGET_PER_CITY <=? size ({[pid]} ∪ seen)) eqn:E.
  - exists [p]. cbn [fst snd length]. split; [done|].
    split; [set_solver|]. lia.
  - apply Nat.leb_gt in E.
    destruct (IH ({[pid]} ∪ seen) (new_places ++ [p]) E)
      as (added & H1 & H2 & H3 & H4).
    exists (p :: added). split; [by rewrite H1, <- app_assoc|].
    split; [set_solver|]. cbn [length]. lia.
Qed.

(** X9. The batch loop of the 1000-per-city script never takes
    [seen_place_ids] past the target: entered below [TARGET_PER_CITY] it
    ends with at most [TARGET_PER_CITY] ids, having kept one new record for
    each id it added and lost no id. *)
Theorem collect_1000_stops_at_target :
  forall (results : list place) (seen : gset string),
    size seen < TARGET_PER_CITY ->
    let seen' := fst (collect_1000 results seen []) in
    let new_places := snd (collect_1000 results seen []) in
    size seen' <= TARGET_PER_CITY /\
    size seen' = size seen + length new_places /\
    seen ⊆ seen'.
Proof.
  intros results seen Hlt seen' new_places. subst seen' new_places.
  destruct (collect_1000_cap results seen [] Hlt) as (added & -> & H2 & H3 & H4).
  cbn [app]. done.
Qed.

Lemma collect_1000_stops_at_target_witness :
  let seen : gset string := {[ "ChIJcafe" ]} in
  size (fst (collect_1000 [cafe; diner] seen [])) <= TARGET_PER_CITY /\
  size (fst (collect_1000 [cafe; diner] seen [])) =
    size seen + length (snd (collect_1000 [cafe; diner] seen [])) /\
  seen ⊆ fst (collect_1000 [cafe; diner] seen []).
Proof.
  apply (collect_1000_stops_at_target [cafe; diner]
           {[ "ChIJcafe" ]}).
  rewrite size_singleton. unfold TARGET_PER_CITY. lia.
Defined.

Lemma collect_1000_below_target results : forall seen new_places,
  size (seen ∪ list_to_set (ids results)) < TARGET_PER_CITY ->
  collect_1000 results seen new_places = collect results seen new_places.
Proof.
  induction results as [|p rest IH]; intros seen new_places Hlt; [done|].
  cbn [collect_1000 collect]. rewrite ids_cons in Hlt.
  destruct (pid_of p) as [pid|]; [|by apply IH].
  cbn [list_to_set] in Hlt.
  assert (seen ∪ list_to_set (ids rest) ⊆
          seen ∪ ({[pid]} ∪ list_to_set (ids rest))) as Hsub by set_solver.
  apply subseteq_size in Hsub.
  case_bool_decide as Hin; [apply IH; lia|].
  assert ({[pid]} ∪ seen ⊆ seen ∪ ({[pid]} ∪ list_to_set (ids rest)))
    as Hsub' by set_solver.
  apply subseteq_size in Hsub'.
  destruct (TARGET_PER_CITY <=? size ({[pid]} ∪ seen)) eqn:E;
    [apply Nat.leb_le in E; lia|].
  apply IH.
  replace ({[pid]} ∪ seen ∪ list_to_set (ids rest))
    with (seen ∪ ({[pid]} ∪ list_to_set (ids rest))) by set_solver.
  done.
Qed.

(** X10. As long as the target is out of reach the two scripts deduplicate
    alike: if [seen_place_ids] with all the ids of the batch stays below
    [TARGET_PER_CITY], the batch loop of the 1000-per-city script computes
    the same [seen] and the same new records as that of the plateau
    script. *)
Theorem collect_1000_agrees_below_target :
  forall (results : list place) (seen : gset string),
    size (seen ∪ list_to_set (ids results)) < TARGET_PER_CITY ->
    collect_1000 results seen [] = collect results seen [].
Proof. intros results seen Hlt. by apply collect_1000_below_target. Qed.

Lemma collect_1000_agrees_below_target_witness :
  collect_1000 [cafe; diner; cafe] ∅ [] =
  collect [cafe; diner; cafe] ∅ [].
Proof.
  apply collect_1000_agrees_below_target.
  apply Nat.ltb_lt. vm_compute. reflexivity.
Defined.

End BatchFacts.

(** ** The adapter: pages, sizes and requests *)

Module AdapterFacts.
Import Py Store Effects Adapter Crawl StoreFacts CrawlFacts.
Local Open Scope crawl_scope.

(** *** What a computation returns *)

(** Every value the computation returns satisfies [P]. *)
Definition returns {A} (P : A -> Prop) (m : M A) : Prop :=
  forall st a st', m st = (Ok a, st') -> P a.

Lemma returns_ret {A} (P : A -> Prop) a : P a -> returns P (ret a).
Proof. intros Ha st b st' [= <- _]. exact Ha. Qed.

Lemma returns_raise {A} (P : A -> Prop) e : returns P (raise e).
Proof. intros st b st' [=]. Qed.

Lemma returns_bind {A B} (Q : A -> Prop) (P : B -> Prop) m k :
  returns Q m -> (forall a, Q a -> returns P (k a)) -> returns P (bind m k).
Proof.
  intros Hm Hk st b st' E. apply bind_Ok_inv in E as (a & st1 & Em & Ek).
  eapply Hk; [|exact Ek]. by eapply Hm.
Qed.

Lemma returns_any {A} (m : M A) : returns (fun _ => True) m.
Proof. by intros st a st' _. Qed.

Section Pages.

Variable w : world.
Variable page_size : nat.

(** No answer of the provider holds more than [page_size] results. *)
Hypothesis pages_bounded :
  forall n params r, net w n params = Answer r ->
                     length (results r) <= page_size.

Definition small (r : response) : Prop := length (results r) <= page_size.

Lemma returns_safe_get_from params tries :
  forall i, returns small (safe_get_from w tries i params).
Proof.
  induction tries as [|tries IH]; intros i; cbn [safe_get_from].
  { apply returns_raise. }
  intros st r st' E. unfold bind at 1 in E. cbn [http_get] in E.
  destruct (net w (calls st) params) as [r0| |] eqn:En.
  - injection E as <- _. by eapply pages_bounded.
  - apply bind_Ok_inv in E as (j & st1 & _ & E).
    apply bind_Ok_inv in E as (? & st2 & _ & E). by eapply IH.
  - apply bind_Ok_inv in E as (j & st1 & _ & E).
    apply bind_Ok_inv in E as (? & st2 & _ & E). by eapply IH.
Qed.

Lemma returns_requests_get params : returns small (requests_get w params).
Proof.
  intros st r st' E. unfold requests_get, bind in E. cbn [http_get] in E.
  destruct (net w (calls st) params) as [r0| |] eqn:En; [|done|done].
  injection E as <- _. by eapply pages_bounded.
Qed.

Lemma returns_fetch_pages lat lng pages : forall params tok acc,
  returns (fun rs => length rs <= length acc + pages * page_size)
          (fetch_pages w pages lat lng params tok acc).
Proof.
  induction pages as [|pages IH]; intros params tok acc; cbn [fetch_pages].
  { apply returns_ret. lia. }
  assert (forall data,
    small data ->
    returns (fun rs => length rs <= length acc + S pages * page_size)
      (if truthy (next_page_token data)
       then fetch_pages w pages lat lng (page_params params tok)
              (next_page_token data) (acc ++ results data)
       else ret (acc ++ results data))) as Hok.
  { intros data Hd. destruct (truthy (next_page_token data)).
    - intros st rs st' E. apply IH in E. rewrite length_app in E.
      unfold small in Hd. lia.
    - apply returns_ret. rewrite length_app. unfold small in Hd. lia. }
  apply (returns_bind (fun _ => True)); [apply returns_any|intros _ _].
  apply (returns_bind small); [apply returns_safe_get_from|intros d0 Hd0].
  apply (returns_bind small).
  { destruct (_ && _); [|by apply returns_ret].
    apply (returns_bind (fun _ => True)); [apply returns_any|intros _ _].
    apply returns_safe_get_from. }
  intros data Hd.
  destruct (String.eqb (status data) "OK"); [by apply Hok|].
  destruct (String.eqb (status data) "ZERO_RESULTS");
    [apply returns_ret; lia|].
  destruct (String.eqb (status data) "UNKNOWN_ERROR").
  - apply (returns_bind (fun _ => True)); [apply returns_any|intros _ _].
    apply (returns_bind small); [apply returns_safe_get_from|intros d2 Hd2].
    destruct (String.eqb (status d2) "OK"); [by apply Hok|].
    destruct (String.eqb (status d2) "ZERO_RESULTS");
      [apply returns_ret; lia|].
    apply (returns_bind (fun _ => True)); [apply returns_any|intros _ _].
    apply returns_ret. cbn. lia.
  - apply (returns_bind (fun _ => True)); [apply returns_any|intros _ _].
    apply returns_ret. cbn. lia.
Qed.

Lemma returns_fetch_pages_1000 pages : forall params tok acc,
  returns (fun rs => length rs <= length acc + pages * page_size)
          (fetch_pages_1000 w pages params tok acc).
Proof.
  induction pages as [|pages IH]; intros params tok acc;
    cbn [fetch_pages_1000].
  { apply returns_ret. lia. }
  apply (returns_bind (fun _ => True)); [apply returns_any|intros _ _].
  apply (returns_bind small); [apply returns_requests_get|intros d0 Hd0].
  apply (returns_bind small).
  { destruct (_ && _); [|by apply returns_ret].
    apply (returns_bind (fun _ => True)); [apply returns_any|intros _ _].
    apply returns_requests_get. }
  intros data Hd. destruct (negb _); [apply returns_raise|].
  destruct (truthy (next_page_token data)).
  - intros st rs st' E. apply IH in E. rewrite length_app in E.
    unfold small in Hd. lia.
  - apply returns_ret. rewrite length_app. unfold small in Hd. lia.
Qed.

End Pages.

(** X11. A location query returns at most three pages: if no answer of the
    provider holds more than [page_size] results, [fetch_nearby] of the
    plateau script returns at most [3 * page_size] records and
    [fetch_nearby] of the 1000-per-city script at most
    [max_pages * page_size] (60 for pages of 20), however many continuation
    tokens the provider keeps sending. *)
Theorem fetch_nearby_at_most_three_pages :
  forall (w : world) (page_size : nat) (lat lng : Q) (radius : nat)
         (keyword : string) (max_pages : nat) (st : state),
    (forall n params r, net w n params = Answer r ->
                        length (results r) <= page_size) ->
    (forall rs st', fetch_nearby w lat lng radius keyword st = (Ok rs, st') ->
                    length rs <= 3 * page_size) /\
    (forall rs st',
       fetch_nearby_1000 w lat lng radius keyword max_pages st = (Ok rs, st') ->
       length rs <= max_pages * page_size).
Proof.
  intros w page_size lat lng radius keyword max_pages st Hsize. split.
  - intros rs st' E. by apply (returns_fetch_pages w page_size Hsize) in E.
  - intros rs st' E.
    by apply (returns_fetch_pages_1000 w page_size Hsize) in E.
Qed.

(** A provider that always answers a full page and a further token. *)
Definition endless_world : world :=
  {| api_key := Some "key";
     net := fun _ _ =>
              Answer {| status := "OK"; results := [cafe; diner];
                        next_page_token := Some "more" |};
     jitter := fun _ => (1 # 2)%Q;
     clock := fun n => n;
     rejects := accepts_all |}.

Lemma fetch_nearby_at_most_three_pages_witness :
  exists rs st',
    fetch_nearby endless_world 0 0 1200 KEYWORD (start empty_conn)
      = (Ok rs, st') /\
    fetch_nearby_1000 endless_world 0 0 1200 KEYWORD 3 (start empty_conn)
      = (Ok rs, st') /\
    length rs = 6 /\ length rs <= 3 * 2.
Proof.
  destruct (fetch_nearby endless_world 0 0 1200 KEYWORD (start empty_conn))
    as [res st'] eqn:E.
  assert (res = Ok [cafe; diner; cafe; diner; cafe; diner]) as ->.
  { apply (f_equal fst) in E. vm_compute in E. by rewrite <- E. }
  exists [cafe; diner; cafe; diner; cafe; diner], st'.
  split; [reflexivity|]. split.
  { rewrite <- E. vm_compute. reflexivity. }
  split; [reflexivity|].
  apply (proj1 (fetch_nearby_at_most_three_pages endless_world 2 0%Q 0%Q 1200
                  KEYWORD 3 (start empty_conn)
                  ltac:(intros n params r [= <-]; cbn; lia))
           _ st' E).
Defined.

(** *** How many requests a computation makes *)

(** Whatever its outcome, the computation makes at most [n] requests. *)
Definition requests_within {A} (n : nat) (m : M A) : Prop :=
  forall st, calls st <= calls (snd (m st)) <= calls st + n.

Lemma rw_weaken {A} a b (m : M A) :
  a <= b -> requests_within a m -> requests_within b m.
Proof. intros Hab Hm st. specialize (Hm st). lia. Qed.

Lemma rw_ret {A} (a : A) : requests_within 0 (ret a).
Proof. intros st. cbn. lia. Qed.

Lemma rw_raise {A} e : requests_within 0 (@raise A e).
Proof. intros st. cbn. lia. Qed.

Lemma rw_sleep s : requests_within 0 (sleep s).
Proof. intros st. cbn. lia. Qed.

Lemma rw_print e : requests_within 0 (print e).
Proof. intros st. cbn. lia. Qed.

Lemma rw_uniform w : requests_within 0 (uniform w).
Proof. intros st. cbn. lia. Qed.

Lemma rw_http_get w params : requests_within 1 (http_get w params).
Proof. intros st. cbn. lia. Qed.

Lemma rw_bind {A B} a b (m : M A) (k : A -> M B) :
  requests_within a m -> (forall x, requests_within b (k x)) ->
  requests_within (a + b) (bind m k).
Proof.
  intros Hm Hk st. unfold bind. specialize (Hm st).
  destruct (m st) as [[x|e] st1]; cbn [snd] in *; [|lia].
  specialize (Hk x st1). lia.
Qed.

Ltac rw_seq a b :=
  apply (rw_weaken (a + b)); [lia|apply rw_bind; [|intros ?]].

Create HintDb requests.
#[local] Hint Resolve rw_ret rw_raise rw_sleep rw_print rw_uniform
  rw_http_get : requests.

Lemma rw_safe_get_from w params tries :
  forall i, requests_within tries (safe_get_from w tries i params).
Proof.
  induction tries as [|tries IH]; intros i; cbn [safe_get_from].
  { apply rw_raise. }
  rw_seq 1 tries; [apply rw_http_get|].
  destruct x as [r| |].
  - apply (rw_weaken 0); [lia|apply rw_ret].
  - rw_seq 0 tries; [apply rw_uniform|].
    rw_seq 0 tries; [apply rw_sleep|]. apply IH.
  - rw_seq 0 tries; [apply rw_uniform|].
    rw_seq 0 tries; [apply rw_sleep|]. apply IH.
Qed.

Lemma rw_safe_get w params : requests_within 6 (safe_get w params).
Proof. apply rw_safe_get_from. Qed.

Lemma rw_requests_get w params : requests_within 1 (requests_get w params).
Proof.
  unfold requests_get. rw_seq 1 0; [apply rw_http_get|].
  destruct x; auto with requests.
Qed.

(** A continuation page costs at most three [safe_get]s, the first page at
    most two. *)
Lemma rw_fetch_pages w lat lng pages : forall params tok acc,
  requests_within (pages * 18 - (if truthy tok then 0 else 6))
                  (fetch_pages w pages lat lng params tok acc).
Proof.
  induction pages as [|pages IH]; intros params tok acc; cbn [fetch_pages].
  { apply (rw_weaken 0); [lia|apply rw_ret]. }
  set (first := if truthy tok then 0 else 6).
  assert (first <= 6) as Hfirst by (subst first; destruct (truthy tok); lia).
  assert (forall data,
    requests_within (pages * 18)
      (if truthy (next_page_token data)
       then fetch_pages w pages lat lng (page_params params tok)
              (next_page_token data) (acc ++ results data)
       else ret (acc ++ results data))) as Hok.
  { intros data. destruct (truthy (next_page_token data)) eqn:Ht.
    - eapply rw_weaken; [|apply IH]. rewrite Ht. lia.
    - apply (rw_weaken 0); [lia|apply rw_ret]. }
  rw_seq 0 (S pages * 18 - first).
  { destruct (truthy tok); auto with requests. }
  rw_seq 6 (6 - first + (6 + pages * 18)); [apply rw_safe_get|].
  rw_seq (6 - first) (6 + pages * 18).
  { subst first. destruct (truthy tok).
    - rewrite andb_true_r. destruct (String.eqb _ _).
      + rw_seq 0 6; [apply rw_sleep|apply rw_safe_get].
      + apply (rw_weaken 0); [lia|apply rw_ret].
    - rewrite andb_false_r. apply rw_ret. }
  destruct (String.eqb (status x1) "OK").
  { eapply rw_weaken; [|apply Hok]. lia. }
  destruct (String.eqb (status x1) "ZERO_RESULTS").
  { apply (rw_weaken 0); [lia|apply rw_ret]. }
  destruct (String.eqb (status x1) "UNKNOWN_ERROR").
  - rw_seq 0 (6 + pages * 18); [apply rw_sleep|].
    rw_seq 6 (pages * 18); [apply rw_safe_get|].
    destruct (String.eqb (status x3) "OK"); [apply Hok|].
    destruct (String.eqb (status x3) "ZERO_RESULTS").
    { apply (rw_weaken 0); [lia|apply rw_ret]. }
    rw_seq 0 0; [apply rw_print|apply rw_ret].
  - rw_seq 0 0; [apply rw_print|apply rw_ret].
Qed.

Lemma rw_fetch_pages_1000 w pages : forall params tok acc,
  requests_within (pages * 2 - (if truthy tok then 0 else 1))
                  (fetch_pages_1000 w pages params tok acc).
Proof.
  induction pages as [|pages IH]; intros params tok acc;
    cbn [fetch_pages_1000].
  { apply (rw_weaken 0); [lia|apply rw_ret]. }
  set (first := if truthy tok then 0 else 1).
  assert (first <= 1) as Hfirst by (subst first; destruct (truthy tok); lia).
  rw_seq 0 (S pages * 2 - first).
  { destruct (truthy tok); auto with requests. }
  rw_seq 1 (1 - first + pages * 2); [apply rw_requests_get|].
  rw_seq (1 - first) (pages * 2).
  { subst first. destruct (truthy tok).
    - rewrite andb_true_r. destruct (String.eqb _ _).
      + rw_seq 0 1; [apply rw_sleep|apply rw_requests_get].
      + apply (rw_weaken 0); [lia|apply rw_ret].
    - rewrite andb_false_r. apply rw_ret. }
  destruct (negb _).
  { apply (rw_weaken 0); [lia|apply rw_raise]. }
  destruct (truthy (next_page_token x1)) eqn:Ht.
  - eapply rw_weaken; [|apply IH]. rewrite Ht. lia.
  - apply (rw_weaken 0); [lia|apply rw_ret].
Qed.

(** X12. The cost of a grid point in requests is bounded, whatever the
    network and the provider do: [fetch_nearby] of the plateau script
    makes at most 48 requests (two rounds of six attempts for the first
    page, three for each of the two continuation pages), and
    [fetch_nearby] of the 1000-per-city script at most
    [2 * max_pages - 1]. *)
Theorem fetch_nearby_requests_bounded :
  forall (w : world) (lat lng : Q) (radius : nat) (keyword : string)
         (max_pages : nat) (st : state),
    calls st <= calls (exec (fetch_nearby w lat lng radius keyword) st)
             <= calls st + 48 /\
    calls st
      <= calls (exec (fetch_nearby_1000 w lat lng radius keyword max_pages) st)
      <= calls st + (2 * max_pages - 1).
Proof.
  intros w lat lng radius keyword max_pages st. split.
  - apply (rw_fetch_pages w lat lng 3 (Nearby lat lng radius keyword)
             None [] st).
  - pose proof (rw_fetch_pages_1000 w max_pages
                  (Nearby lat lng radius keyword) None [] st) as H.
    unfold exec, fetch_nearby_1000. cbn [truthy] in H. lia.
Qed.

(** *** A continuation page that fails *)

(** One round of the page loop of the plateau script once [data] is the
    answer it looks at. *)
Definition after_answer (w : world) (n : nat) (lat lng : Q) (params : request)
    (acc : list place) (data : response) : M (list place) :=
  if String.eqb (status data) "OK" then
    if truthy (next_page_token data)
    then fetch_pages w n lat lng params (next_page_token data)
           (acc ++ results data)
    else ret (acc ++ results data)
  else if String.eqb (status data) "ZERO_RESULTS" then ret acc
  else if String.eqb (status data) "UNKNOWN_ERROR" then
    sleep 2 ;;
    data <- safe_get w params ;
    if String.eqb (status data) "OK" then
      if truthy (next_page_token data)
      then fetch_pages w n lat lng params (next_page_token data)
             (acc ++ results data)
      else ret (acc ++ results data)
    else if String.eqb (status data) "ZERO_RESULTS" then ret acc
    else print (ProviderError (status data) lat lng) ;; ret []
  else print (ProviderError (status data) lat lng) ;; ret [].

Definition after_answer_1000 (w : world) (n : nat) (params : request)
    (acc : list place) (data : response) : M (list place) :=
  if negb (String.eqb (status data) "OK"
           || String.eqb (status data) "ZERO_RESULTS")
  then raise RuntimeError
  else
    if truthy (next_page_token data)
    then fetch_pages_1000 w n params (next_page_token data)
           (acc ++ results data)
    else ret (acc ++ results data).

Lemma safe_get_answer w params r st :
  net w (calls st) params = Answer r ->
  safe_get w params st = (Ok r, exec (http_get w params) st).
Proof.
  intros Hn. unfold safe_get. cbn [safe_get_from]. unfold bind at 1.
  cbn [http_get]. by rewrite Hn.
Qed.

Lemma requests_get_answer w params r st :
  net w (calls st) params = Answer r ->
  requests_get w params st = (Ok r, exec (http_get w params) st).
Proof.
  intros Hn. unfold requests_get, bind. cbn [http_get]. by rewrite Hn.
Qed.

(** The first page, answered at once. *)
Lemma first_page w n lat lng params acc st r :
  net w (calls st) params = Answer r ->
  fetch_pages w (S n) lat lng params None acc st =
  after_answer w n lat lng params acc r (exec (http_get w params) st).
Proof.
  intros Hn. cbn [fetch_pages truthy page_params].
  unfold bind at 1. cbn [ret]. unfold bind at 1.
  rewrite (safe_get_answer _ _ _ _ Hn). unfold bind at 1.
  rewrite andb_false_r. cbn [ret]. reflexivity.
Qed.

Lemma first_page_1000 w n params acc st r :
  net w (calls st) params = Answer r ->
  fetch_pages_1000 w (S n) params None acc st =
  after_answer_1000 w n params acc r (exec (http_get w params) st).
Proof.
  intros Hn. cbn [fetch_pages_1000 truthy page_params].
  unfold bind at 1. cbn [ret]. unfold bind at 1.
  rewrite (requests_get_answer _ _ _ _ Hn). unfold bind at 1.
  rewrite andb_false_r. cbn [ret]. reflexivity.
Qed.

(** A continuation page, answered at once with a status other than
    [INVALID_REQUEST]. *)
Lemma next_page w n lat lng params a tok acc st r :
  net w (calls st) (NextPage (String a tok)) = Answer r ->
  status r <> "INVALID_REQUEST" ->
  fetch_pages w (S n) lat lng params (Some (String a tok)) acc st =
  after_answer w n lat lng (NextPage (String a tok)) acc r
    (exec (sleep 2 ;; http_get w (NextPage (String a tok))) st).
Proof.
  intros Hn Hs. apply String.eqb_neq in Hs.
  cbn [fetch_pages truthy page_params].
  unfold bind at 1. cbn [sleep]. unfold bind at 1.
  rewrite safe_get_answer with (r := r) by exact Hn. unfold bind at 1.
  rewrite Hs. cbn [andb ret]. reflexivity.
Qed.

Lemma next_page_1000 w n params a tok acc st r :
  net w (calls st) (NextPage (String a tok)) = Answer r ->
  status r <> "INVALID_REQUEST" ->
  fetch_pages_1000 w (S n) params (Some (String a tok)) acc st =
  after_answer_1000 w n (NextPage (String a tok)) acc r
    (exec (sleep 2 ;; http_get w (NextPage (String a tok))) st).
Proof.
  intros Hn Hs. apply String.eqb_neq in Hs.
  cbn [fetch_pages_1000 truthy page_params].
  unfold bind at 1. cbn [sleep]. unfold bind at 1.
  rewrite requests_get_answer with (r := r) by exact Hn. unfold bind at 1.
  rewrite Hs. cbn [andb ret]. reflexivity.
Qed.

(** A continuation page answered [INVALID_REQUEST]: the token is tried once
    more after two seconds, and the second answer is final. *)
Lemma next_page_retried w n lat lng params a tok acc st r r' :
  net w (calls st) (NextPage (String a tok)) = Answer r ->
  status r = "INVALID_REQUEST" ->
  net w (S (calls st)) (NextPage (String a tok)) = Answer r' ->
  fetch_pages w (S n) lat lng params (Some (String a tok)) acc st =
  after_answer w n lat lng (NextPage (String a tok)) acc r'
    (exec (sleep 2 ;; http_get w (NextPage (String a tok)) ;;
           sleep 2 ;; http_get w (NextPage (String a tok))) st).
Proof.
  intros Hn Hs Hn'.
  cbn [fetch_pages truthy page_params].
  unfold bind at 1. cbn [sleep]. unfold bind at 1.
  rewrite safe_get_answer with (r := r) by exact Hn. unfold bind at 1.
  rewrite Hs, String.eqb_refl. cbn [andb]. unfold bind at 1. cbn [sleep].
  rewrite safe_get_answer with (r := r') by exact Hn'. reflexivity.
Qed.

Lemma next_page_retried_1000 w n params a tok acc st r r' :
  net w (calls st) (NextPage (String a tok)) = Answer r ->
  status r = "INVALID_REQUEST" ->
  net w (S (calls st)) (NextPage (String a tok)) = Answer r' ->
  fetch_pages_1000 w (S n) params (Some (String a tok)) acc st =
  after_answer_1000 w n (NextPage (String a tok)) acc r'
    (exec (sleep 2 ;; http_get w (NextPage (String a tok)) ;;
           sleep 2 ;; http_get w (NextPage (String a tok))) st).
Proof.
  intros Hn Hs Hn'.
  cbn [fetch_pages_1000 truthy page_params].
  unfold bind at 1. cbn [sleep]. unfold bind at 1.
  rewrite requests_get_answer with (r := r) by exact Hn. unfold bind at 1.
  rewrite Hs, String.eqb_refl. cbn [andb]. unfold bind at 1. cbn [sleep].
  rewrite requests_get_answer with (r := r') by exact Hn'. reflexivity.
Qed.

Lemma after_answer_ok w n lat lng params acc r st :
  status r = "OK" ->
  after_answer w n lat lng params acc r st =
  (if truthy (next_page_token r)
   then fetch_pages w n lat lng params (next_page_token r) (acc ++ results r)
   else ret (acc ++ results r)) st.
Proof. intros Hs. unfold after_answer. by rewrite Hs. Qed.

Lemma after_answer_zero w n lat lng params acc r st :
  status r = "ZERO_RESULTS" ->
  after_answer w n lat lng params acc r st = (Ok acc, st).
Proof. intros Hs. unfold after_answer. by rewrite Hs. Qed.

Lemma after_answer_fatal w n lat lng params acc r st :
  fatal_status (status r) ->
  after_answer w n lat lng params acc r st =
  (Ok [], exec (print (ProviderError (status r) lat lng)) st).
Proof.
  intros (H1 & H2 & H3). apply String.eqb_neq in H1, H2, H3.
  unfold after_answer. by rewrite H1, H2, H3.
Qed.

Lemma after_answer_1000_ok w n params acc r st :
  status r = "OK" \/ status r = "ZERO_RESULTS" ->
  after_answer_1000 w n params acc r st =
  (if truthy (next_page_token r)
   then fetch_pages_1000 w n params (next_page_token r) (acc ++ results r)
   else ret (acc ++ results r)) st.
Proof.
  intros Hs. unfold after_answer_1000. by destruct Hs as [-> | ->].
Qed.

Lemma after_answer_1000_fatal w n params acc r st :
  status r <> "OK" -> status r <> "ZERO_RESULTS" ->
  after_answer_1000 w n params acc r st = (Raise RuntimeError, st).
Proof.
  intros H1 H2. apply String.eqb_neq in H1, H2.
  unfold after_answer_1000. by rewrite H1, H2.
Qed.

(** X13. Pages already fetched are lost when a later page is refused. Let
    the first page of a location query be answered [OK] with a
    continuation token and the request for the second page with a fatal
    status (other than [INVALID_REQUEST], which is tried again). Then
    [fetch_nearby] of the plateau script prints the status and returns the
    empty list, not the results of the first page, and [fetch_nearby] of
    the 1000-per-city script raises [RuntimeError]. *)
Theorem later_page_refused_drops_earlier_pages :
  forall (w : world) (lat lng : Q) (radius : nat) (keyword : string)
         (st : state) (r1 r2 : response) (a : Ascii.ascii) (tok : string),
    net w (calls st) (Nearby lat lng radius keyword) = Answer r1 ->
    status r1 = "OK" ->
    next_page_token r1 = Some (String a tok) ->
    net w (S (calls st)) (NextPage (String a tok)) = Answer r2 ->
    fatal_status (status r2) ->
    status r2 <> "INVALID_REQUEST" ->
    fst (fetch_nearby w lat lng radius keyword st) = Ok [] /\
    out (exec (fetch_nearby w lat lng radius keyword) st)
      = out st ++ [ProviderError (status r2) lat lng] /\
    fst (fetch_nearby_1000 w lat lng radius keyword 3 st)
      = Raise RuntimeError.
Proof.
  intros w lat lng radius keyword st r1 r2 a tok Hn1 Hs1 Ht1 Hn2 Hf Hinv.
  assert (fetch_nearby w lat lng radius keyword st =
          (Ok [], exec (http_get w (Nearby lat lng radius keyword) ;;
                        sleep 2 ;; http_get w (NextPage (String a tok)) ;;
                        print (ProviderError (status r2) lat lng)) st))
    as E.
  { unfold fetch_nearby. rewrite (first_page _ _ _ _ _ _ _ _ Hn1).
    rewrite after_answer_ok by done. rewrite Ht1. cbn [truthy].
    rewrite next_page with (r := r2) by done.
    by rewrite after_answer_fatal. }
  split; [by rewrite E|]. split; [unfold exec at 1; by rewrite E|].
  unfold fetch_nearby_1000. rewrite (first_page_1000 _ _ _ _ _ _ Hn1).
  rewrite after_answer_1000_ok by auto. rewrite Ht1. cbn [truthy].
  rewrite next_page_1000 with (r := r2) by done.
  destruct Hf as (H1 & H2 & _). by rewrite after_answer_1000_fatal.
Qed.

(** A provider that answers the first page and refuses the second. *)
Definition second_page_denied : world :=
  {| api_key := Some "key";
     net := fun n _ =>
              match n with
              | 0 => Answer {| status := "OK"; results := [cafe; diner];
                               next_page_token := Some "more" |}
              | _ => Answer {| status := "OVER_QUERY_LIMIT"; results := [];
                               next_page_token := None |}
              end;
     jitter := fun _ => (1 # 2)%Q;
     clock := fun n => n;
     rejects := accepts_all |}.

Lemma later_page_refused_drops_earlier_pages_witness :
  fst (fetch_nearby second_page_denied 0 0 1200 KEYWORD (start empty_conn))
    = Ok [] /\
  out (exec (fetch_nearby second_page_denied 0 0 1200 KEYWORD)
            (start empty_conn))
    = out (start empty_conn) ++ [ProviderError "OVER_QUERY_LIMIT" 0 0] /\
  fst (fetch_nearby_1000 second_page_denied 0 0 1200 KEYWORD 3
         (start empty_conn))
    = Raise RuntimeError.
Proof.
  eapply (later_page_refused_drops_earlier_pages second_page_denied 0%Q 0%Q
            1200 KEYWORD (start empty_conn)
            {| status := "OK"; results := [cafe; diner];
               next_page_token := Some "more" |}
            {| status := "OVER_QUERY_LIMIT"; results := [];
               next_page_token := None |}).
  - reflexivity.
  - reflexivity.
  - reflexivity.
  - reflexivity.
  - by repeat split.
  - discriminate.
Defined.

(** X14. A continuation token that is not yet valid is tried exactly once
    more. Let the first page be answered [OK] with a token and the request
    for the second page [INVALID_REQUEST]. Both scripts sleep two seconds
    and send the same request again. If that answer is [OK] and the last
    page, they return the results of both pages, having made three
    requests and slept twice two seconds; if it is [INVALID_REQUEST]
    again, the plateau script returns the empty list and the
    1000-per-city script raises [RuntimeError]. *)
Theorem invalid_token_retried_once :
  forall (w : world) (lat lng : Q) (radius : nat) (keyword : string)
         (st : state) (r1 r2 r3 : response) (a : Ascii.ascii) (tok : string),
    net w (calls st) (Nearby lat lng radius keyword) = Answer r1 ->
    status r1 = "OK" ->
    next_page_token r1 = Some (String a tok) ->
    net w (S (calls st)) (NextPage (String a tok)) = Answer r2 ->
    status r2 = "INVALID_REQUEST" ->
    net w (S (S (calls st))) (NextPage (String a tok)) = Answer r3 ->
    let after :=
      exec (http_get w (Nearby lat lng radius keyword) ;;
            sleep 2 ;; http_get w (NextPage (String a tok)) ;;
            sleep 2 ;; http_get w (NextPage (String a tok))) st in
    (status r3 = "OK" -> truthy (next_page_token r3) = false ->
     fetch_nearby w lat lng radius keyword st
       = (Ok (results r1 ++ results r3), after) /\
     fetch_nearby_1000 w lat lng radius keyword 3 st
       = (Ok (results r1 ++ results r3), after)) /\
    (status r3 = "INVALID_REQUEST" ->
     fst (fetch_nearby w lat lng radius keyword st) = Ok [] /\
     fetch_nearby_1000 w lat lng radius keyword 3 st
       = (Raise RuntimeError, after)).
Proof.
  intros w lat lng radius keyword st r1 r2 r3 a tok Hn1 Hs1 Ht1 Hn2 Hs2 Hn3
    after.
  assert (fetch_nearby w lat lng radius keyword st =
          after_answer w 1 lat lng (NextPage (String a tok)) ([] ++ results r1)
            r3 after) as E.
  { unfold fetch_nearby. rewrite (first_page _ _ _ _ _ _ _ _ Hn1).
    rewrite after_answer_ok by done. rewrite Ht1. cbn [truthy].
    by rewrite next_page_retried with (r := r2) (r' := r3). }
  assert (fetch_nearby_1000 w lat lng radius keyword 3 st =
          after_answer_1000 w 1 (NextPage (String a tok)) ([] ++ results r1)
            r3 after) as E'.
  { unfold fetch_nearby_1000. rewrite (first_page_1000 _ _ _ _ _ _ Hn1).
    rewrite after_answer_1000_ok by auto. rewrite Ht1. cbn [truthy].
    by rewrite next_page_retried_1000 with (r := r2) (r' := r3). }
  rewrite E, E'. cbn [app]. split.
  - intros Hs3 Ht3.
    rewrite after_answer_ok, after_answer_1000_ok by auto.
    by rewrite Ht3.
  - intros Hs3. rewrite after_answer_fatal, after_answer_1000_fatal;
      rewrite ?Hs3; by repeat split.
Qed.

(** A provider whose token is valid at the second attempt. *)
Definition slow_token : world :=
  {| api_key := Some "key";
     net := fun n _ =>
              match n with
              | 0 => Answer {| status := "OK"; results := [cafe];
                               next_page_token := Some "more" |}
              | 1 => Answer {| status := "INVALID_REQUEST"; results := [];
                               next_page_token := None |}
              | _ => Answer {| status := "OK"; results := [diner];
                               next_page_token := None |}
              end;
     jitter := fun _ => (1 # 2)%Q;
     clock := fun n => n;
     rejects := accepts_all |}.

Lemma invalid_token_retried_once_witness :
  fetch_nearby slow_token 0 0 1200 KEYWORD (start empty_conn)
    = (Ok [cafe; diner],
       {| db := empty_conn; calls := 3; draws := 0; slept := [2; 2]%Q;
          out := []; visited := [] |}).
Proof.
  eapply (invalid_token_retried_once slow_token 0%Q 0%Q
            1200 KEYWORD (start empty_conn)
            {| status := "OK"; results := [cafe];
               next_page_token := Some "more" |}
            {| status := "INVALID_REQUEST"; results := [];
               next_page_token := None |}
            {| status := "OK"; results := [diner];
               next_page_token := None |}); reflexivity.
Defined.

End AdapterFacts.

(** ** The plateau detector: when it stops and when it cannot *)

Module DetectorFacts.
Import Plateau PlateauFacts.

(** [avg_new < MIN_NEW_AVG] says that the window sums to less than half its
    length. *)
Lemma Qltb_avg (l : list nat) :
  0 < length l ->
  Qltb (avg l) MIN_NEW_AVG = (2 * sum l <? length l).
Proof.
  intros Hlen. unfold Qltb, avg, MIN_NEW_AVG.
  set (a := Z.of_nat (sum l)). set (b := Z.of_nat (length l)).
  assert (0 < b)%Z as Hb by lia.
  assert (0 < inject_Z b)%Q as HbQ.
  { change 0%Q with (inject_Z 0). by rewrite <- Zlt_Qlt. }
  assert (inject_Z a / inject_Z b * inject_Z b == inject_Z a)%Q as Hq.
  { field. intros H0. rewrite H0 in HbQ. by apply Qlt_irrefl in HbQ. }
  assert (Qle_bool 0.5 (inject_Z a / inject_Z b) = true <-> (b <= 2 * a)%Z)
    as Hiff.
  { rewrite Qle_bool_iff. split.
    - intros Hle.
      assert (0.5 * inject_Z b <= inject_Z a)%Q as H1.
      { rewrite <- Hq. apply Qmult_le_compat_r; [exact Hle|].
        by apply Qlt_le_weak. }
      rewrite Zle_Qle, inject_Z_mult.
      change (inject_Z 2) with 2%Q. lra.
    - intros Hle. apply Qle_shift_div_l; [exact HbQ|].
      rewrite Zle_Qle, inject_Z_mult in Hle.
      change (inject_Z 2) with 2%Q in Hle. lra. }
  destruct (2 * sum l <? length l) eqn:E.
  - apply Nat.ltb_lt in E. apply negb_true_iff, not_true_is_false.
    rewrite Hiff. subst a b. lia.
  - apply Nat.ltb_ge in E. apply negb_false_iff, Hiff. subst a b. lia.
Qed.

(** One iteration past the warm-up with a full window. *)
Lemma observe_full x d :
  MIN_POINTS_BEFORE_PLATEAU < S (points_done d) ->
  length (recent (fst (observe x d))) = WINDOW ->
  stable_hits (fst (observe x d)) =
    (if 2 * sum (recent (fst (observe x d))) <? WINDOW
     then S (stable_hits d) else 0) /\
  snd (observe x d) = (STABLE_WINDOWS <=? stable_hits (fst (observe x d))).
Proof.
  intros Hpd. rewrite observe_recent. unfold observe.
  destruct (S (points_done d) =? MIN_POINTS_BEFORE_PLATEAU) eqn:E;
    [apply Nat.eqb_eq in E; lia|].
  intros Hlen. rewrite Hlen, Nat.eqb_refl.
  destruct (S (points_done d) <? MIN_POINTS_BEFORE_PLATEAU) eqn:E80;
    [apply Nat.ltb_lt in E80; lia|].
  rewrite Qltb_avg by (rewrite Hlen; unfold WINDOW; lia). rewrite Hlen.
  destruct (_ <? WINDOW); cbn [fst snd stable_hits]; by split.
Qed.

(** An iteration that cannot earn a hit leaves a counter at zero there. *)
Lemma observe_no_hit x d :
  stable_hits d = 0 ->
  (MIN_POINTS_BEFORE_PLATEAU <= S (points_done d) ->
   length (recent (fst (observe x d))) = WINDOW ->
   WINDOW <= 2 * sum (recent (fst (observe x d)))) ->
  stable_hits (fst (observe x d)) = 0 /\ snd (observe x d) = false.
Proof.
  intros Hsh. rewrite observe_recent. unfold observe. rewrite Hsh.
  set (rc := deque_append WINDOW x _).
  destruct (length rc =? WINDOW) eqn:E.
  - apply Nat.eqb_eq in E. intros Hsum.
    destruct (S (points_done d) <? MIN_POINTS_BEFORE_PLATEAU) eqn:E80;
      [by split|].
    apply Nat.ltb_ge in E80. specialize (Hsum E80 E).
    rewrite Qltb_avg by (rewrite E; unfold WINDOW; lia). rewrite E.
    destruct (2 * sum rc <? WINDOW) eqn:E2;
      [apply Nat.ltb_lt in E2; lia|]. by split.
  - intros _. cbn [fst snd stable_hits].
    by destruct (S (points_done d) =? MIN_POINTS_BEFORE_PLATEAU).
Qed.

(** *** [run] by way of [feed] *)

Lemma feed_cons d x xs : feed d (x :: xs) = feed (fst (observe x d)) xs.
Proof. reflexivity. Qed.

(** The loop breaks at the first iteration that says so. *)
Lemma run_stops pre : forall d x suf,
  snd (observe x (feed d pre)) = true ->
  exists n, run d (pre ++ x :: suf) = Some n /\
            n <= S (points_done d + length pre).
Proof.
  induction pre as [|a pre IH]; intros d x suf Hstop; cbn [app run].
  - cbn [feed fold_left] in Hstop.
    pose proof (observe_points_done x d) as Hpd.
    destruct (observe x d) as [d' stop]; cbn [fst snd] in *. subst stop.
    exists (points_done d'). split; [reflexivity|]. cbn [length]. lia.
  - rewrite feed_cons in Hstop.
    pose proof (observe_points_done a d) as Hpd.
    destruct (observe a d) as [d' stop]; cbn [fst snd] in *.
    destruct stop.
    + exists (points_done d'). split; [reflexivity|]. cbn [length]. lia.
    + destruct (IH d' x suf Hstop) as (n & Hn & Hle).
      exists n. split; [exact Hn|]. cbn [length]. lia.
Qed.

(** The loop runs through when no iteration breaks. *)
Lemma run_through ys : forall d,
  (forall k x, ys !! k = Some x ->
               snd (observe x (feed d (take k ys))) = false) ->
  run d ys = None.
Proof.
  induction ys as [|y ys IH]; intros d Hall; [reflexivity|]. cbn [run].
  pose proof (Hall 0 y eq_refl) as H0. cbn [take feed fold_left] in H0.
  destruct (observe y d) as [d' stop] eqn:E; cbn [snd] in H0. subst stop.
  apply IH. intros k x Hk. specialize (Hall (S k) x Hk).
  cbn [take] in Hall. by rewrite feed_cons, E in Hall.
Qed.

(** *** A dry spell *)

Lemma sum_repeat_0 n : sum (repeat 0 n) = 0.
Proof. induction n as [|n IH]; [reflexivity|]. exact IH. Qed.

(** Past the warm-up, once [j >= 50] points in a row brought nothing the
    window holds fifty zeros. *)
Lemma dry_window xs j :
  79 <= length xs -> WINDOW <= j ->
  recent (feed init (xs ++ repeat 0 j)) = repeat 0 WINDOW.
Proof.
  unfold WINDOW. intros Hlen Hj.
  pose proof (feed_window (xs ++ repeat 0 j) (length xs + j)) as HW.
  rewrite length_app, repeat_length in HW.
  rewrite take_ge in HW by (rewrite length_app, repeat_length; lia).
  rewrite HW by (unfold MIN_POINTS_BEFORE_PLATEAU; lia).
  unfold WINDOW.
  replace (79 `max` (length xs + j - 50)) with (length xs + (j - 50)) by lia.
  rewrite drop_app_add. clear HW.
  assert (forall m n, drop m (repeat 0 (m + n)) = repeat 0 n) as Hd.
  { induction m as [|m IHm]; intros n; [reflexivity|]. apply IHm. }
  replace j with ((j - 50) + 50) at 2 by lia. apply Hd.
Qed.

Lemma repeat_snoc_0 j : repeat 0 (S j) = repeat 0 j ++ [0].
Proof. induction j as [|j IH]; [reflexivity|]. cbn. by rewrite <- IH. Qed.

Lemma dry_hits xs i :
  79 <= length xs -> i <= 5 ->
  i <= stable_hits (feed init (xs ++ repeat 0 (49 + i))).
Proof.
  intros Hlen. induction i as [|i IH]; intros Hi; [lia|].
  replace (49 + S i) with (S (49 + i)) by lia.
  rewrite repeat_snoc_0, app_assoc, feed_snoc.
  pose proof (dry_window xs (S (49 + i)) Hlen ltac:(unfold WINDOW; lia)) as HW.
  rewrite repeat_snoc_0, app_assoc, feed_snoc in HW.
  destruct (observe_full 0 (feed init (xs ++ repeat 0 (49 + i)))) as [Hsh _].
  { rewrite feed_points_done, length_app, repeat_length.
    change (points_done init) with 0. unfold MIN_POINTS_BEFORE_PLATEAU. lia. }
  { by rewrite HW, repeat_length. }
  rewrite Hsh, HW, sum_repeat_0. change (2 * 0 <? WINDOW) with true.
  cbv iota.
  specialize (IH ltac:(lia)). lia.
Qed.

(** X15. The detector ends a crawl that has dried up. Once the warm-up is
    over (at least 79 points done), 54 points in a row without a new
    record make the loop break, at the last of them at the latest,
    whatever the counts before and after were: a window of fifty zeros
    takes 50 points to fill and four more to be seen five times. *)
Theorem plateau_dry_spell_stops :
  forall (xs rest : list nat),
    79 <= length xs ->
    exists n, run init (xs ++ repeat 0 54 ++ rest) = Some n /\
              133 <= n <= length xs + 54.
Proof.
  intros xs rest Hlen.
  pose proof (dry_hits xs 4 Hlen ltac:(lia)) as H4.
  pose proof (dry_window xs 54 Hlen ltac:(unfold WINDOW; lia)) as HW.
  change 54 with (S 53) in HW.
  rewrite repeat_snoc_0, app_assoc, feed_snoc in HW.
  destruct (observe_full 0 (feed init (xs ++ repeat 0 53))) as [Hsh Hstop].
  { rewrite feed_points_done, length_app, repeat_length.
    change (points_done init) with 0. unfold MIN_POINTS_BEFORE_PLATEAU. lia. }
  { by rewrite HW, repeat_length. }
  rewrite HW, sum_repeat_0 in Hsh.
  change (2 * 0 <? WINDOW) with true in Hsh. cbv iota in Hsh.
  change (49 + 4) with 53 in H4.
  rewrite Hsh in Hstop.
  assert (snd (observe 0 (feed init (xs ++ repeat 0 53))) = true) as Hbreak.
  { rewrite Hstop. apply Nat.leb_le. unfold STABLE_WINDOWS. lia. }
  destruct (run_stops (xs ++ repeat 0 53) init 0 (repeat 0 0 ++ rest) Hbreak)
    as (n & Hn & Hle).
  assert (xs ++ repeat 0 54 ++ rest =
          (xs ++ repeat 0 53) ++ 0 :: repeat 0 0 ++ rest) as ->.
  { change 54 with (S 53). rewrite repeat_snoc_0.
    by rewrite <- !app_assoc. }
  exists n. split; [exact Hn|].
  rewrite length_app, repeat_length in Hle.
  change (points_done init) with 0 in Hle.
  apply run_warming_up in Hn;
    [|cbn; unfold MIN_POINTS_BEFORE_PLATEAU; lia].
  lia.
Qed.

Lemma plateau_dry_spell_stops_witness :
  exists n, run init (repeat 3 79 ++ repeat 0 54 ++ [7; 7]) = Some n /\
            133 <= n <= length (repeat 3 79) + 54.
Proof.
  apply (plateau_dry_spell_stops (repeat 3 79) [7; 7]).
  vm_compute. lia.
Defined.

(** *** Windows that keep yielding *)

Lemma sum_ge_length l : Forall (fun x => 1 <= x) l -> length l <= sum l.
Proof.
  induction 1 as [|x l Hx _ IH]; [reflexivity|].
  cbn [length sum foldr]. fold (sum l). lia.
Qed.

Lemma productive_no_hit (xs : list nat) :
  (forall k, 129 <= k <= length xs ->
             25 <= sum (take WINDOW (drop (k - WINDOW) xs))) ->
  forall k, k <= length xs ->
    stable_hits (feed init (take k xs)) = 0 /\
    (forall x, xs !! k = Some x ->
               snd (observe x (feed init (take k xs))) = false).
Proof.
  intros Hprod.
  assert (forall k x, xs !! k = Some x ->
            stable_hits (feed init (take k xs)) = 0 ->
            stable_hits (fst (observe x (feed init (take k xs)))) = 0 /\
            snd (observe x (feed init (take k xs))) = false) as Hstep.
  { intros k x Hx Hsh. apply observe_no_hit; [exact Hsh|].
    pose proof (lookup_lt_Some _ _ _ Hx) as Hk.
    rewrite feed_points_done, length_take. change (points_done init) with 0.
    unfold MIN_POINTS_BEFORE_PLATEAU. intros H80.
    rewrite <- feed_snoc, <- (take_S_r xs k x Hx).
    rewrite feed_window by (unfold MIN_POINTS_BEFORE_PLATEAU; lia).
    unfold WINDOW. rewrite length_drop, length_take. intros Hfull.
    specialize (Hprod (S k) ltac:(lia)). unfold WINDOW in Hprod.
    rewrite take_drop_commute in Hprod.
    replace (S k - 50 + 50) with (S k) in Hprod by lia.
    replace (79 `max` (S k - 50)) with (S k - 50) by lia. lia. }
  induction k as [|k IH]; intros Hk.
  - split; [reflexivity|]. intros x Hx. by apply Hstep.
  - destruct (lookup_lt_is_Some_2 xs k ltac:(lia)) as [a Ha].
    destruct (IH ltac:(lia)) as [Hsh _].
    destruct (Hstep k a Ha Hsh) as [Hsh' _].
    assert (stable_hits (feed init (take (S k) xs)) = 0) as Hz.
    { by rewrite (take_S_r xs k a Ha), feed_snoc. }
    split; [exact Hz|]. intros x Hx. by apply Hstep.
Qed.

(** X16. The detector cannot stop a crawl that keeps yielding. If every
    window of fifty consecutive points (from point 129 on, where windows
    are full) brought at least 25 new records in all, the loop never
    breaks; in particular it never breaks while every point brings at
    least one new record. *)
Theorem plateau_never_while_productive :
  forall (xs : list nat),
    ((forall k, 129 <= k <= length xs ->
                25 <= sum (take WINDOW (drop (k - WINDOW) xs))) ->
     run init xs = None) /\
    (Forall (fun x => 1 <= x) xs -> run init xs = None).
Proof.
  intros xs.
  assert ((forall k, 129 <= k <= length xs ->
                     25 <= sum (take WINDOW (drop (k - WINDOW) xs))) ->
          run init xs = None) as Hgen.
  { intros Hprod. apply run_through. intros k x Hx.
    pose proof (lookup_lt_Some _ _ _ Hx) as Hk.
    by apply (productive_no_hit xs Hprod k ltac:(lia)). }
  split; [exact Hgen|].
  intros Hall. apply Hgen. intros k Hk.
  pose proof (sum_ge_length (take WINDOW (drop (k - WINDOW) xs))
                (Forall_take _ _ _ (Forall_drop _ _ _ Hall))) as Hs.
  rewrite length_take, length_drop in Hs. unfold WINDOW in *. lia.
Qed.

End DetectorFacts.

(** ** The grid: order, empty boxes, steps that are not positive *)

Module GridFacts.
Import Geo GeoFacts.
Local Open Scope Q_scope.

(** [p] comes before [q]: further south, or on the same latitude further
    west. *)
Definition before (p q : point) : Prop :=
  fst p < fst q \/ (fst p == fst q /\ snd p < snd q).

Lemma before_trans p q r : before p q -> before q r -> before p r.
Proof. unfold before. intros [?|[? ?]] [?|[? ?]]; lra. Qed.

Lemma before_irrefl p : ~ before p p.
Proof. unfold before. intros [?|[? ?]]; lra. Qed.

Lemma Sorted_Forall_impl {A} (P : A -> Prop) (R R' : A -> A -> Prop) l :
  (forall x y, P x -> R x y -> R' x y) ->
  Forall P l -> Sorted R l -> Sorted R' l.
Proof.
  intros Himpl Hall Hs. induction Hs as [|a l Hs IH Hhd]; [constructor|].
  apply Forall_cons in Hall as [Ha Hall]. constructor; [by apply IH|].
  destruct Hhd; constructor. by apply Himpl.
Qed.

Lemma StronglySorted_lookup {A} (R : A -> A -> Prop) l :
  StronglySorted R l ->
  forall i j x y, (i < j)%nat -> l !! i = Some x -> l !! j = Some y -> R x y.
Proof.
  induction 1 as [|a l Hs IH Hall]; intros i j x y Hij Hi Hj;
    [by destruct i|].
  destruct j as [|j]; [lia|]. cbn in Hj. destruct i as [|i].
  - injection Hi as <-. rewrite Forall_forall in Hall. apply Hall.
    by eapply list_elem_of_lookup_2.
  - cbn in Hi. apply (IH i j); [lia|done|done].
Qed.

Section Order.

Variable cos_deg : Q -> Q.
Variable b : bbox.
Variable step_m : Q.
Hypothesis cos_nonneg :
  forall lat, lat_min b <= lat <= lat_max b -> 0 <= cos_deg lat.
Hypothesis step_pos : 0 < step_m.

Lemma grid_next_before p q :
  in_bbox b p -> grid_next cos_deg b step_m p q -> before p q.
Proof.
  intros [Hlat _] Hnext.
  pose proof (lng_step_pos cos_deg b step_m cos_nonneg step_pos (fst p) Hlat)
    as Hlng.
  pose proof (lat_step_pos step_m step_pos) as Hstep.
  unfold before. destruct Hnext as [[_ ->]|[_ ->]]; cbn [fst snd]; lra.
Qed.

Lemma grid_increasing pts :
  Forall (in_bbox b) pts -> Sorted (grid_next cos_deg b step_m) pts ->
  forall i j p q, (i < j)%nat -> pts !! i = Some p -> pts !! j = Some q ->
                  before p q.
Proof.
  intros Hall Hs. apply StronglySorted_lookup.
  apply Sorted_StronglySorted; [intros x y z; apply before_trans|].
  by apply (Sorted_Forall_impl (in_bbox b) (grid_next cos_deg b step_m));
    [apply grid_next_before| |].
Qed.

End Order.



(** *** Boxes with nothing or one point in them *)

Lemma lat_loop_inverted cos_deg fuel b step_m lat :
  lat_max b < lat -> lat_loop cos_deg fuel b step_m lat = Some [].
Proof.
  intros Hlt.
  assert (Qle_bool lat (lat_max b) = false) as E.
  { apply not_true_is_false. rewrite Qle_bool_iff. lra. }
  destruct fuel; cbn [lat_loop]; by rewrite E.
Qed.


(** *** A step that is not positive *)

Lemma lng_loop_never_ends lat hi s :
  s <= 0 -> forall fuel lng, lng <= hi -> lng_loop fuel lat lng hi s = None.
Proof.
  intros Hs. induction fuel as [|fuel IH]; intros lng Hle; cbn [lng_loop];
    (assert (Qle_bool lng hi = true) as -> by (by apply Qle_bool_iff));
    [reflexivity|].
  rewrite IH by lra. reflexivity.
Qed.

(** X19. With a step of 0 metres or less the generator never ends on a box
    that is not empty: the longitude does not advance, so the first row is
    never left. Whatever the number of iterations granted, the inner loop
    and the outer loop do not reach their end, and [grid_points] and
    [generate_grid_points] have no result. ([step_m] is
    [int(radius * 1.2)], which is 0 for a radius below one metre.) *)
Theorem grid_points_step_not_positive :
  forall (cos_deg : Q -> Q) (b : bbox) (step_m : Q),
    (forall lat, lat_min b <= lat <= lat_max b -> 0 <= cos_deg lat) ->
    step_m <= 0 ->
    lat_min b <= lat_max b ->
    lng_min b <= lng_max b ->
    (forall fuel lat lng,
       lat_min b <= lat <= lat_max b -> lng <= lng_max b ->
       lng_loop fuel lat lng (lng_max b) (meters_to_lng cos_deg step_m lat)
         = None) /\
    (forall fuel, lat_loop cos_deg fuel b step_m (lat_min b) = None) /\
    (forall fuel,
       lat_loop' cos_deg fuel b step_m (meters_to_lat step_m) (lat_min b)
         = None) /\
    grid_points cos_deg b step_m = None /\
    generate_grid_points cos_deg b step_m = None.
Proof.
  intros cos_deg b step_m Hcos Hstep Hlat Hlng.
  assert (forall lat, lat_min b <= lat <= lat_max b ->
                      meters_to_lng cos_deg step_m lat <= 0) as Hs.
  { intros lat Hin. unfold meters_to_lng.
    apply Qle_shift_div_r; [by apply (lng_divisor_pos cos_deg b Hcos)|].
    lra. }
  assert (forall fuel lat lng,
            lat_min b <= lat <= lat_max b -> lng <= lng_max b ->
            lng_loop fuel lat lng (lng_max b)
                     (meters_to_lng cos_deg step_m lat) = None) as Hinner.
  { intros fuel lat lng Hin Hle. apply lng_loop_never_ends; [|exact Hle].
    by apply Hs. }
  assert (forall fuel, lat_loop cos_deg fuel b step_m (lat_min b) = None)
    as Houter.
  { intros fuel.
    assert (Qle_bool (lat_min b) (lat_max b) = true) as E
      by (by apply Qle_bool_iff).
    destruct fuel; cbn [lat_loop]; rewrite E; [reflexivity|].
    rewrite Hinner; [reflexivity|lra|exact Hlng]. }
  split; [exact Hinner|]. split; [exact Houter|].
  split; [intros fuel; by rewrite lat_loop'_eq|].
  split; [apply Houter|].
  unfold generate_grid_points. rewrite lat_loop'_eq. apply Houter.
Qed.

Lemma grid_points_step_not_positive_witness :
  grid_points cos_parabola small_box 0 = None /\
  generate_grid_points cos_parabola small_box 0 = None.
Proof.
  refine ((fun H => conj (proj1 (proj2 (proj2 (proj2 H))))
                         (proj2 (proj2 (proj2 (proj2 H)))))
            (grid_points_step_not_positive cos_parabola small_box 0
               _ _ _ _)).
  - intros lat [H1 H2]. apply cos_parabola_nonneg.
    change (lat_min small_box) with 0 in H1.
    assert (lat_max small_box <= 90) by discriminate. lra.
  - discriminate.
  - discriminate.
  - discriminate.
Defined.

End GridFacts.

(** ** The set of seen ids and the table *)

Module MirrorFacts.
Import Py Store Effects Adapter Crawl StoreFacts DedupFacts CrawlFacts
  TableFacts.
Local Open Scope crawl_scope.

(** *** Computations that leave the database alone *)

Definition keeps_db {A} (m : M A) : Prop :=
  forall st, db (snd (m st)) = db st.

Lemma kdb_ret {A} (a : A) : keeps_db (ret a).
Proof. intros st. reflexivity. Qed.

Lemma kdb_raise {A} e : keeps_db (@raise A e).
Proof. intros st. reflexivity. Qed.

Lemma kdb_bind {A B} (m : M A) (k : A -> M B) :
  keeps_db m -> (forall a, keeps_db (k a)) -> keeps_db (bind m k).
Proof.
  intros Hm Hk st. unfold bind. specialize (Hm st).
  destruct (m st) as [[a|e] st1]; cbn [snd] in *; [|exact Hm].
  by rewrite Hk.
Qed.

Lemma kdb_try_runtime {A} (m : M A) : keeps_db m -> keeps_db (try_runtime m).
Proof.
  intros Hm st. unfold try_runtime. specialize (Hm st).
  destruct (m st) as [[a|[]] st1]; exact Hm.
Qed.

Lemma kdb_sleep s : keeps_db (sleep s).
Proof. intros st. reflexivity. Qed.

Lemma kdb_print e : keeps_db (print e).
Proof. intros st. reflexivity. Qed.

Lemma kdb_visit p : keeps_db (visit p).
Proof. intros st. reflexivity. Qed.

Lemma kdb_uniform w : keeps_db (uniform w).
Proof. intros st. reflexivity. Qed.

Lemma kdb_http_get w params : keeps_db (http_get w params).
Proof. intros st. reflexivity. Qed.

Lemma kdb_now w : keeps_db (now w).
Proof. intros st. reflexivity. Qed.

Create HintDb kdb.
#[local] Hint Resolve kdb_ret kdb_raise kdb_try_runtime kdb_sleep kdb_print
  kdb_visit kdb_uniform kdb_http_get kdb_now : kdb.

Ltac kdb_step :=
  match goal with
  | |- keeps_db (bind _ _) => apply kdb_bind; [|intros ?]
  | |- keeps_db (if ?c then _ else _) => destruct c
  | |- keeps_db (match ?x with _ => _ end) => destruct x
  | |- keeps_db _ => solve [auto with kdb]
  end.

Lemma kdb_safe_get_from w params tries :
  forall i, keeps_db (safe_get_from w tries i params).
Proof.
  induction tries as [|tries IH]; intros i; cbn [safe_get_from];
    repeat kdb_step; apply IH.
Qed.

Lemma kdb_requests_get w params : keeps_db (requests_get w params).
Proof. unfold requests_get. repeat kdb_step. Qed.

#[local] Hint Resolve kdb_safe_get_from kdb_requests_get : kdb.

(** Fetching never touches the database. *)
Lemma kdb_fetch_pages w lat lng pages :
  forall params tok acc,
    keeps_db (fetch_pages w pages lat lng params tok acc).
Proof.
  induction pages as [|pages IH]; intros params tok acc;
    cbn [fetch_pages]; unfold safe_get; repeat kdb_step; apply IH.
Qed.

Lemma kdb_fetch_pages_1000 w pages :
  forall params tok acc, keeps_db (fetch_pages_1000 w pages params tok acc).
Proof.
  induction pages as [|pages IH]; intros params tok acc;
    cbn [fetch_pages_1000]; repeat kdb_step; apply IH.
Qed.

Lemma kdb_eq {A} (m : M A) st r st' :
  keeps_db m -> m st = (r, st') -> db st' = db st.
Proof. intros Hm E. specialize (Hm st). by rewrite E in Hm. Qed.

(** *** What a write adds to the ids of a city *)

Lemma load_written c c' now cty places :
  current c' = apply_all (map (row_of_place now cty) places) (current c) ->
  load_existing_ids c' cty =
    load_existing_ids c cty ∪ list_to_set (omap p_place_id places) /\
  (forall other, other <> cty ->
     load_existing_ids c' other = load_existing_ids c other).
Proof.
  intros Hcur.
  assert (forall k, k ∈ map row_key (map (row_of_place now cty) places) <->
            fst k = cty /\ snd k ∈ map p_place_id places) as Hkeys.
  { intros [k1 k2]. rewrite map_map.
    change (map ?f places) with (f <$> places).
    rewrite !list_elem_of_fmap. cbn. split.
    - intros (p & [= -> ->] & Hin). split; [done|]. by exists p.
    - intros [-> (p & -> & Hin)]. by exists p. }
  split.
  - apply set_eq. intros x.
    rewrite elem_of_union, !elem_of_load_existing_ids_key, Hcur.
    rewrite apply_all_key_set, Hkeys, elem_of_list_to_set. cbn.
    rewrite list_elem_of_omap.
    change (map p_place_id places) with (p_place_id <$> places).
    rewrite list_elem_of_fmap. split.
    + intros [?|[_ (p & ? & ?)]]; [by left|right]. by exists p.
    + intros [?|(p & ? & ?)]; [by left|right]. split; [done|]. by exists p.
  - intros other Hne. apply set_eq. intros x.
    rewrite !elem_of_load_existing_ids_key, Hcur.
    rewrite apply_all_key_set, Hkeys. cbn. split; [|by left].
    intros [?|[? _]]; done.
Qed.

Lemma upsert_places_ok rejects now c cty places u c' :
  pending c = None ->
  upsert_places rejects now c cty places = (Ok u, c') ->
  pending c' = None /\
  current c' = apply_all (map (row_of_place now cty) places) (current c).
Proof.
  intros Hp. unfold upsert_places.
  destruct (executemany _ _ _ _) as [[[]|e] c1] eqn:E; [|done].
  apply executemany_committed in E as [_ Ea]. intros [= _ <-].
  split; [reflexivity|]. exact Ea.
Qed.

(** The ids the batch loop adds to [seen] are the place ids of the records
    it keeps. *)
Lemma collect_1000_ids results : forall seen new_places,
  exists added,
    snd (collect_1000 results seen new_places) = new_places ++ added /\
    fst (collect_1000 results seen new_places)
      = seen ∪ list_to_set (omap p_place_id added).
Proof.
  induction results as [|p rest IH]; intros seen new_places;
    cbn [collect_1000].
  { exists []. rewrite app_nil_r. cbn. split; [done|]. set_solver. }
  destruct (pid_of p) as [pid|] eqn:Ep; [|by apply IH].
  apply pid_of_Some in Ep as [Ep _].
  case_bool_decide as Hin; [by apply IH|].
  assert (omap p_place_id [p] = [pid]) as Hone by (cbn; by rewrite Ep).
  destruct (TARGET_PER_CITY <=? size ({[pid]} ∪ seen)).
  - exists [p]. cbn [fst snd]. split; [done|]. rewrite Hone. set_solver.
  - destruct (IH ({[pid]} ∪ seen) (new_places ++ [p])) as (added & H1 & H2).
    exists (p :: added). split; [by rewrite H1, <- app_assoc|].
    rewrite H2. change (p :: added) with ([p] ++ added).
    rewrite omap_app, Hone. clear. set_solver.
Qed.

(** X20. In the 1000-per-city script the set [seen_place_ids] mirrors the
    table. If the loop over the grid points of a city starts with the ids
    loaded from the table (no transaction open) and ends without an
    exception, the set it ends with is exactly what [load_existing_ids]
    reads from the table then; no transaction is left open; and the ids
    stored for every other city are as before. *)
Theorem seen_ids_mirror_table :
  forall (w : world) (cty : string) (radius : nat) (pts : list (Q * Q))
         (st : state) (seen' : gset string) (st' : state),
    pending (db st) = None ->
    city_loop_1000 w cty radius pts (load_existing_ids (db st) cty) st
      = (Ok seen', st') ->
    seen' = load_existing_ids (db st') cty /\
    pending (db st') = None /\
    (forall other, other <> cty ->
       load_existing_ids (db st') other = load_existing_ids (db st) other).
Proof.
  intros w cty radius pts.
  assert (forall seen st seen' st',
    pending (db st) = None ->
    seen = load_existing_ids (db st) cty ->
    city_loop_1000 w cty radius pts seen st = (Ok seen', st') ->
    seen' = load_existing_ids (db st') cty /\
    pending (db st') = None /\
    (forall other, other <> cty ->
       load_existing_ids (db st') other = load_existing_ids (db st) other))
    as Hgen; [|intros st seen' st' Hp; by apply Hgen].
  induction pts as [|[lat lng] pts IH]; intros seen st seen' st' Hpend Hseen H;
    cbn [city_loop_1000] in H.
  { by injection H as <- <-. }
  destruct (TARGET_PER_CITY <=? size seen).
  { by injection H as <- <-. }
  apply bind_Ok_inv in H as ([] & st1 & Hv & H).
  apply kdb_eq in Hv; [|apply kdb_visit].
  apply bind_Ok_inv in H as (r & st2 & Hf & H).
  apply kdb_eq in Hf; [|apply kdb_try_runtime, kdb_fetch_pages_1000].
  destruct r as [results|].
  - destruct (collect_1000_ids results seen []) as (added & Hnew & Hids).
    destruct (collect_1000 results seen []) as [seen2 new_places].
    cbn [fst snd app] in Hnew, Hids. subst new_places.
    apply bind_Ok_inv in H as (? & st3 & Hw & H).
    apply bind_Ok_inv in H as (? & st4 & Hp & H).
    apply kdb_eq in Hp; [|repeat kdb_step].
    apply bind_Ok_inv in H as (? & st5 & Hs & H).
    apply kdb_eq in Hs; [|apply kdb_sleep].
    assert (pending (db st3) = None /\
            load_existing_ids (db st3) cty = seen2 /\
            (forall other, other <> cty ->
               load_existing_ids (db st3) other
                 = load_existing_ids (db st) other)) as (Hp3 & Hl3 & Ho3).
    { unfold write_new_1000 in Hw. destruct added as [|p added].
      - injection Hw as _ <-. rewrite Hf, Hv. split; [done|].
        split; [|done]. rewrite Hids, Hseen. cbn. set_solver.
      - apply bind_Ok_inv in Hw as (t & st2' & Hn & Hw).
        injection Hn as _ <-. unfold on_db in Hw.
        destruct (upsert_places _ _ _ _ _) as [res c'] eqn:Eu.
        injection Hw as -> <-. cbn [db].
        rewrite Hf, Hv in Eu.
        apply upsert_places_ok in Eu as [Hp' Hcur]; [|exact Hpend].
        apply load_written in Hcur as [Hl Ho].
        split; [exact Hp'|]. split; [|exact Ho].
        by rewrite Hl, Hids, Hseen. }
    apply IH in H; [|by rewrite Hs, Hp|by rewrite Hs, Hp].
    destruct H as (H1 & H2 & H3). split; [exact H1|]. split; [exact H2|].
    intros other Hne. rewrite H3 by done. rewrite Hs, Hp. by apply Ho3.
  - apply bind_Ok_inv in H as (? & st3 & Hp & H).
    apply kdb_eq in Hp; [|apply kdb_print].
    apply bind_Ok_inv in H as (? & st4 & Hs & H).
    apply kdb_eq in Hs; [|apply kdb_sleep].
    assert (db st4 = db st) as Hdb by congruence.
    apply IH in H; rewrite ?Hdb in *; try done.
Qed.

Lemma seen_ids_mirror_table_witness :
  let r := city_loop_1000 steady_world "San Francisco" 1200
             [(0, 0); (0, 1 # 100)]%Q
             (load_existing_ids empty_conn "San Francisco")
             (start empty_conn) in
  exists seen',
    fst r = Ok seen' /\
    seen' = load_existing_ids (db (snd r)) "San Francisco" /\
    pending (db (snd r)) = None.
Proof.
  intros r.
  assert (exists seen', fst r = Ok seen') as [seen' Hs]
    by (vm_compute; eauto).
  destruct r as [res st'] eqn:E. cbn [fst snd] in *. subst res.
  exists seen'. split; [reflexivity|].
  destruct (seen_ids_mirror_table steady_world "San Francisco" 1200
              [(0, 0); (0, 1 # 100)]%Q (start empty_conn) seen' st'
              eq_refl E) as (H1 & H2 & _).
  by split.
Defined.

End MirrorFacts.

(** ** The detector inside the crawl *)

Module CrawlDetectorFacts.
Import Py Store Effects Adapter Crawl PlateauFacts StoreFacts CrawlFacts.
Local Open Scope crawl_scope.

(** The loop of the plateau script visits the points the detector lets it
    visit: fed with the numbers of new records of the points visited, in
    order, the detector breaks at the last of them or not at all. *)
Lemma city_loop_follows_detector w cty radius pts : forall seen d st st',
  city_loop w cty radius pts seen d st = (Ok tt, st') ->
  exists vis counts,
    vis `prefix_of` pts /\ visited st' = visited st ++ vis /\
    length counts = length vis /\
    ((vis = pts /\ Plateau.run d counts = None) \/
     Plateau.run d counts = Some (Plateau.points_done d + length counts)).
Proof.
  induction pts as [|[lat lng] pts IH]; intros seen d st st' H;
    cbn [city_loop] in H.
  { injection H as <-. exists [], []. rewrite app_nil_r.
    split; [done|]. split; [done|]. split; [done|]. by left. }
  apply bind_Ok_inv in H as ([] & st1 & Hv & H).
  injection Hv as <-.
  apply bind_Ok_inv in H as (results & st2 & Hf & H).
  apply keeps_eq in Hf; [|apply keeps_fetch_pages].
  cbn [visited] in Hf.
  destruct (collect results seen []) as [seen2 new_places].
  apply bind_Ok_inv in H as (? & st3 & Hw & H).
  apply keeps_eq in Hw; [|apply keeps_write_new].
  pose proof (observe_points_done (length new_places) d) as Hpd.
  destruct (Plateau.observe (length new_places) d) as [d' stop] eqn:Eo.
  cbn [fst] in Hpd.
  apply bind_Ok_inv in H as (? & st4 & Hp & H).
  apply keeps_eq in Hp; [|apply keeps_print].
  destruct stop.
  - apply keeps_eq in H; [|apply keeps_print].
    exists [(lat, lng)], [length new_places].
    split; [apply prefix_cons, prefix_nil|].
    split; [congruence|]. split; [done|]. right.
    cbn [Plateau.run length]. rewrite Eo, Hpd. f_equal. lia.
  - apply bind_Ok_inv in H as (? & st5 & Hs & H).
    apply keeps_eq in Hs; [|apply keeps_sleep].
    apply IH in H as (vis & counts & Hpre & Hvis & Hlen & Hend).
    exists ((lat, lng) :: vis), (length new_places :: counts).
    split; [by apply prefix_cons|].
    split; [rewrite Hvis, Hs, Hp, Hw, Hf; by rewrite <- app_assoc|].
    split; [cbn [length]; by rewrite Hlen|].
    cbn [Plateau.run length]. rewrite Eo.
    destruct Hend as [[-> Hnone]|Hsome]; [by left|right].
    rewrite Hsome, Hpd. f_equal. lia.
Qed.

(** X21. The plateau script never cuts a city short before its 133rd grid
    point. When the loop over the points of a city ends without an
    exception, either every point of the grid was visited or at least 133
    of them were; so a grid of fewer than 133 points is always crawled to
    its end, whatever the provider returns. *)
Theorem city_crawled_at_least_133_points :
  forall (w : world) (cty : string) (radius : nat) (pts : list (Q * Q))
         (seen : gset string) (st st' : state),
    city_loop w cty radius pts seen Plateau.init st = (Ok tt, st') ->
    exists vis,
      vis `prefix_of` pts /\ visited st' = visited st ++ vis /\
      (vis = pts \/ 133 <= length vis) /\
      (length pts < 133 -> visited st' = visited st ++ pts).
Proof.
  intros w cty radius pts seen st st' H.
  apply city_loop_follows_detector in H
    as (vis & counts & Hpre & Hvis & Hlen & Hend).
  assert (vis = pts \/ 133 <= length vis) as Hor.
  { destruct Hend as [[-> _]|Hsome]; [by left|right].
    apply run_warming_up in Hsome;
      [|cbn; unfold Plateau.MIN_POINTS_BEFORE_PLATEAU; lia].
    change (Plateau.points_done Plateau.init) with 0 in Hsome. lia. }
  exists vis. split; [exact Hpre|]. split; [exact Hvis|].
  split; [exact Hor|].
  intros Hshort. destruct Hor as [->|Hge]; [exact Hvis|].
  apply prefix_length in Hpre. lia.
Qed.

Lemma city_crawled_at_least_133_points_witness :
  let r := city_loop steady_world "San Francisco" 1200
             [(0, 0); (0, 1 # 100)]%Q ∅ Plateau.init (start empty_conn) in
  fst r = Ok tt /\
  visited (snd r) = [(0, 0); (0, 1 # 100)]%Q.
Proof.
  intros r. assert (fst r = Ok tt) as Hr by (vm_compute; reflexivity).
  split; [exact Hr|].
  destruct r as [res st'] eqn:E. cbn [fst snd] in *. subst res.
  destruct (city_crawled_at_least_133_points steady_world "San Francisco"
              1200 [(0, 0); (0, 1 # 100)]%Q ∅ (start empty_conn) st' E)
    as (vis & _ & _ & _ & Hall).
  apply Hall. cbn. lia.
Defined.

End CrawlDetectorFacts.

(** ** The text-search script *)

Module TextSearchFacts.
Import Py Store Effects TextSearch StoreFacts CrawlFacts AdapterFacts
  MirrorFacts.
Local Open Scope crawl_scope.

Lemma kdb_ts_requests_get w params : keeps_db (ts_requests_get w params).
Proof.
  unfold ts_requests_get. apply kdb_bind; [by intros st|].
  intros [r| |]; [apply kdb_ret|apply kdb_raise|apply kdb_raise].
Qed.

Lemma kdb_fetch_text_pages w pages : forall params tok acc,
  keeps_db (fetch_text_pages w pages params tok acc).
Proof.
  induction pages as [|pages IH]; intros params tok acc;
    cbn [fetch_text_pages]; [apply kdb_ret|].
  apply kdb_bind;
    [destruct (truthy tok); [apply kdb_sleep|apply kdb_ret]|intros _].
  apply kdb_bind; [apply kdb_ts_requests_get|intros data].
  destruct (negb _); [apply kdb_raise|].
  destruct (truthy _); [apply IH|apply kdb_ret].
Qed.

Lemma kdb_fetch_text_search w q n : keeps_db (fetch_text_search w q n).
Proof. apply kdb_fetch_text_pages. Qed.

(** The state once the request [params] has been sent. *)
Definition sent (w : ts_world) (params : ts_request) (st : state) : state :=
  snd (ts_http_get w params st).

Lemma fetch_text_search_refused w q n st r :
  ts_net w (calls st) (Query q) = Answer r ->
  status r <> "OK" -> status r <> "ZERO_RESULTS" ->
  fetch_text_search w q (S n) st = (Raise RuntimeError, sent w (Query q) st).
Proof.
  intros Hn H1 H2. apply String.eqb_neq in H1, H2.
  unfold fetch_text_search. cbn [fetch_text_pages truthy ts_page_params].
  unfold bind at 1. cbn [ret]. unfold bind at 1.
  unfold ts_requests_get, bind at 1. cbn [ts_http_get].
  rewrite Hn. cbn [ret]. by rewrite H1, H2.
Qed.

Lemma fetch_text_search_failed w q n st :
  failed (ts_net w (calls st) (Query q)) = true ->
  fetch_text_search w q (S n) st
    = (Raise RequestException, sent w (Query q) st).
Proof.
  intros Hn.
  unfold fetch_text_search. cbn [fetch_text_pages truthy ts_page_params].
  unfold bind at 1. cbn [ret]. unfold bind at 1.
  unfold ts_requests_get, bind at 1. cbn [ts_http_get].
  by destruct (ts_net w (calls st) (Query q)).
Qed.

Lemma for_queries_app body xs : forall ys st,
  for_queries body (xs ++ ys) st =
  match for_queries body xs st with
  | (Ok _, st1) => for_queries body ys st1
  | (Raise e, st1) => (Raise e, st1)
  end.
Proof.
  induction xs as [|x xs IH]; intros ys st; [reflexivity|].
  cbn [app for_queries]. unfold bind.
  destruct (body x st) as [[[]|e] st1]; [apply IH|reflexivity].
Qed.

(** X22. The text-search script has no [try]: a query that fails ends the
    run. If the search of a city raises (the provider answers its first
    request with a status other than [OK] and [ZERO_RESULTS], which raises
    [RuntimeError] after that one request, or the network fails, which
    raises the exception of [requests]; or a later page does), [main]
    raises that exception in the state the search left: the database is as
    the cities before left it, and the cities after are not queried. *)
Theorem text_search_failure_ends_run :
  forall (w : ts_world) (done rest : list (string * string))
         (name cq : string) (st0 st : state),
    truthy (ts_api_key w) = true ->
    for_queries (search_city w) done st0 = (Ok tt, st) ->
    let q := String.append "restaurants in " cq in
    (forall e st1,
       fetch_text_search w q 3 st = (Raise e, st1) ->
       main_text w (done ++ (name, cq) :: rest) st0 = (Raise e, st1) /\
       db st1 = db st) /\
    (forall r,
       ts_net w (calls st) (Query q) = Answer r ->
       status r <> "OK" -> status r <> "ZERO_RESULTS" ->
       main_text w (done ++ (name, cq) :: rest) st0
         = (Raise RuntimeError, sent w (Query q) st)) /\
    (failed (ts_net w (calls st) (Query q)) = true ->
     main_text w (done ++ (name, cq) :: rest) st0
       = (Raise RequestException, sent w (Query q) st)).
Proof.
  intros w done rest name cq st0 st Hkey Hdone q.
  assert (forall e st1,
    fetch_text_search w q 3 st = (Raise e, st1) ->
    main_text w (done ++ (name, cq) :: rest) st0 = (Raise e, st1) /\
    db st1 = db st) as Hgen.
  { intros e st1 Hf. split.
    - unfold main_text. rewrite Hkey, for_queries_app, Hdone.
      cbn [for_queries]. unfold bind at 1. unfold search_city.
      fold q. unfold bind at 1. by rewrite Hf.
    - by apply (kdb_eq _ _ _ _ (kdb_fetch_text_search w q 3) Hf). }
  split; [exact Hgen|]. split.
  - intros r Hn H1 H2.
    apply Hgen. by apply (fetch_text_search_refused w q 2 st r).
  - intros Hn. apply Hgen. by apply fetch_text_search_failed.
Qed.

(** A provider that denies every request. *)
Definition ts_denied : ts_world :=
  {| ts_api_key := Some "key";
     ts_net := fun _ _ =>
                 Answer {| status := "REQUEST_DENIED"; results := [];
                           next_page_token := None |};
     ts_clock := fun n => n;
     ts_rejects := accepts_all |}.

Lemma text_search_failure_ends_run_witness :
  main_text ts_denied CITIES_TEXT (start empty_conn)
    = (Raise RuntimeError,
       {| db := empty_conn; calls := 1; draws := 0; slept := [];
          out := []; visited := [] |}).
Proof.
  exact (proj1 (proj2 (text_search_failure_ends_run ts_denied []
                         (tail CITIES_TEXT) "San Francisco"
                         "San Francisco, CA" (start empty_conn)
                         (start empty_conn) eq_refl eq_refl))
           _ eq_refl ltac:(discriminate) ltac:(discriminate)).
Defined.

(** *** A result without place id *)

Lemma run_statements_violated rejects violates rows : forall t n,
  Exists (fun r => violates r = true) rows ->
  exists t' n',
    run_statements rejects violates rows t n = (Raise DatabaseError, t', n').
Proof.
  induction rows as [|r rows IH]; intros t n Hex; [by inversion Hex|].
  cbn [run_statements]. destruct (rejects n r || violates r) eqn:E.
  { by exists t, n. }
  apply orb_false_iff in E as [_ E]. apply IH.
  inversion Hex as [? ? Hr|? ? Hrest]; subst; [congruence|exact Hrest].
Qed.

Lemma upsert_restaurants_null rejects now c cty places p :
  p ∈ places -> p_place_id p = None ->
  exists c',
    upsert_restaurants rejects now c cty places = (Raise DatabaseError, c') /\
    committed c' = committed c.
Proof.
  intros Hin Hnone. unfold upsert_restaurants, executemany.
  destruct (run_statements_violated rejects not_null_place_id
              (map (row_of_place_text now cty) places) (current c)
              (total_changes c)) as (t' & n' & ->).
  { apply Exists_exists. exists (row_of_place_text now cty p).
    split; [change (map ?f places) with (f <$> places);
            by apply list_elem_of_fmap_2|].
    unfold not_null_place_id. cbn. by rewrite Hnone. }
  eexists. split; reflexivity.
Qed.

(** X23. In the text-search script one result without [place_id] loses the
    city and ends the run. The table declares [place_id TEXT NOT NULL], so
    when the search of a city returns a record without place id the write
    of the whole batch is refused; [main] does not catch the exception:
    the run ends with the database error, nothing of this city's results
    is committed, and the cities after are not queried. *)
Theorem text_search_result_without_id_ends_run :
  forall (w : ts_world) (done rest : list (string * string))
         (name cq : string) (st0 st st1 : state) (places : list place)
         (p : place),
    truthy (ts_api_key w) = true ->
    for_queries (search_city w) done st0 = (Ok tt, st) ->
    fetch_text_search w (String.append "restaurants in " cq) 3 st
      = (Ok places, st1) ->
    p ∈ places -> p_place_id p = None ->
    let run := main_text w (done ++ (name, cq) :: rest) st0 in
    fst run = Raise DatabaseError /\
    committed (db (snd run)) = committed (db st) /\
    calls (snd run) = calls st1 /\
    out (snd run) = out st1.
Proof.
  intros w done rest name cq st0 st st1 places p Hkey Hdone Hf Hin Hnone run.
  assert (exists c',
    run = (Raise DatabaseError,
           {| db := c'; calls := calls st1; draws := draws st1;
              slept := slept st1; out := out st1;
              visited := visited st1 |}) /\
    committed c' = committed (db st1)) as (c' & -> & Hc).
  { subst run. unfold main_text. rewrite Hkey, for_queries_app, Hdone.
    cbn [for_queries]. unfold bind at 1. unfold search_city.
    unfold bind at 1. rewrite Hf. unfold bind at 1. cbn [ts_now].
    unfold bind at 1, on_db.
    destruct (upsert_restaurants_null (ts_rejects w) (ts_clock w (calls st1))
                (db st1) name places p Hin Hnone) as (c' & -> & Hc).
    by exists c'. }
  cbn [fst snd db calls out]. split; [reflexivity|].
  split; [|by split].
  rewrite Hc. f_equal.
  by apply (kdb_eq _ _ _ _ (kdb_fetch_text_search w _ 3) Hf).
Qed.

(** A provider one of whose results has no place id. *)
Definition ts_nameless : ts_world :=
  {| ts_api_key := Some "key";
     ts_net := fun _ _ =>
                 Answer {| status := "OK";
                           results := [cafe; TableFacts.nameless; diner];
                           next_page_token := None |};
     ts_clock := fun n => n;
     ts_rejects := accepts_all |}.

Lemma text_search_result_without_id_ends_run_witness :
  let run := main_text ts_nameless CITIES_TEXT (start empty_conn) in
  fst run = Raise DatabaseError /\
  committed (db (snd run)) = [] /\
  calls (snd run) = 1 /\
  out (snd run) = [].
Proof.
  exact (text_search_result_without_id_ends_run ts_nameless []
           (tail CITIES_TEXT) "San Francisco" "San Francisco, CA"
           (start empty_conn) (start empty_conn)
           {| db := empty_conn; calls := 1; draws := 0; slept := [];
              out := []; visited := [] |}
           [cafe; TableFacts.nameless; diner] TableFacts.nameless
           eq_refl eq_refl eq_refl ltac:(set_solver) eq_refl).
Defined.

(** *** Pages, sizes and requests *)

Lemma rw_ts_requests_get w params :
  requests_within 1 (ts_requests_get w params).
Proof.
  unfold ts_requests_get. apply (rw_weaken (1 + 0)); [lia|].
  apply rw_bind; [intros st; cbn; lia|].
  intros [r| |]; [apply rw_ret|apply rw_raise|apply rw_raise].
Qed.

Lemma rw_fetch_text_pages w pages : forall params tok acc,
  requests_within pages (fetch_text_pages w pages params tok acc).
Proof.
  induction pages as [|pages IH]; intros params tok acc;
    cbn [fetch_text_pages]; [apply rw_ret|].
  apply (rw_weaken (0 + (1 + pages))); [lia|].
  apply rw_bind;
    [destruct (truthy tok); [apply rw_sleep|apply rw_ret]|intros _].
  apply rw_bind; [apply rw_ts_requests_get|intros data].
  destruct (negb _); [apply (rw_weaken 0); [lia|apply rw_raise]|].
  destruct (truthy _); [apply IH|apply (rw_weaken 0); [lia|apply rw_ret]].
Qed.

Lemma returns_ts_requests_get w page_size params :
  (forall n params r, ts_net w n params = Answer r ->
                      length (results r) <= page_size) ->
  returns (fun r => length (results r) <= page_size)
          (ts_requests_get w params).
Proof.
  intros Hsize st r st' E. unfold ts_requests_get, bind in E.
  cbn [ts_http_get] in E.
  destruct (ts_net w (calls st) params) as [r0| |] eqn:En; [|done|done].
  injection E as <- _. by eapply Hsize.
Qed.

Lemma returns_fetch_text_pages w page_size pages :
  (forall n params r, ts_net w n params = Answer r ->
                      length (results r) <= page_size) ->
  forall params tok acc,
    returns (fun rs => length rs <= length acc + pages * page_size)
            (fetch_text_pages w pages params tok acc).
Proof.
  intros Hsize.
  induction pages as [|pages IH]; intros params tok acc;
    cbn [fetch_text_pages].
  { apply returns_ret. lia. }
  apply (returns_bind (fun _ => True)); [apply returns_any|intros _ _].
  apply (returns_bind (fun r => length (results r) <= page_size));
    [by apply returns_ts_requests_get|intros data Hd].
  destruct (negb _); [apply returns_raise|].
  destruct (truthy (next_page_token data)).
  - intros st rs st' E. apply IH in E. rewrite length_app in E. lia.
  - apply returns_ret. rewrite length_app. lia.
Qed.

(** X24. A text search costs at most [max_pages] requests, whatever its
    outcome, and returns at most [max_pages] pages: if no answer holds
    more than [page_size] results, at most [max_pages * page_size]
    records (60 for three pages of 20). *)
Theorem fetch_text_search_bounded :
  forall (w : ts_world) (query : string) (max_pages page_size : nat)
         (st : state),
    calls st <= calls (snd (fetch_text_search w query max_pages st))
             <= calls st + max_pages /\
    ((forall n params r, ts_net w n params = Answer r ->
                         length (results r) <= page_size) ->
     forall rs st',
       fetch_text_search w query max_pages st = (Ok rs, st') ->
       length rs <= max_pages * page_size).
Proof.
  intros w query max_pages page_size st. split.
  - apply rw_fetch_text_pages.
  - intros Hsize rs st' E.
    by apply (returns_fetch_text_pages w page_size max_pages Hsize) in E.
Qed.

End TextSearchFacts.
